(** * Outlook MCP server: a shallow embedding of the search engine, the
      aggregator/formatter and the tool dispatcher, with the properties of
      the specification checked against it.

    Source files embedded here:
    - [src/utils/email_formatter.py]  (module [Formatter])
    - [src/utils/outlook_client.py]   (module [Client])
    - [outlook_mcp.py]                (module [Server])

    Conventions.  Python strings are [string] (one [ascii] per character, so
    the model covers ASCII text); Python [int] is [Z]; [len] and counters
    are [nat]; a dict with a fixed set of known keys is a record whose
    fields say whether the key is missing, holds [None], or holds a value;
    dicts whose iteration order matters (the search cache, the participant
    table, the conversation table) are association lists in insertion
    order; exceptions are an explicit [Raise] result. *)

Set Warnings "-register-all".
From Stdlib Require Import ZArith List Bool Ascii String Lia Permutation
  Sorted DecimalString DecimalZ Arith.
Import ListNotations.
Open Scope string_scope.
Open Scope list_scope.
Open Scope Z_scope.

(* ================================================================== *)
(** * Python runtime values used by the three modules *)
(* ================================================================== *)

Module Py.

(** ** Exceptions *)

Inductive ExnKind :=
| TypeError | ValueError | AttributeError | KeyError | ComError
| OverflowError.

Record Exn := mkExn { exn_kind : ExnKind; exn_msg : string }.

Inductive Result (A : Type) :=
| Ok (a : A)
| Raise (e : Exn).
Arguments Ok {A} a.
Arguments Raise {A} e.

Definition rbind {A B} (m : Result A) (k : A -> Result B) : Result B :=
  match m with
  | Ok a => k a
  | Raise e => Raise e
  end.

Notation "x <-? m ;; k" := (rbind m (fun x => k))
  (at level 61, m at next level, right associativity).

Fixpoint rmap {A B} (f : A -> Result B) (l : list A) : Result (list B) :=
  match l with
  | [] => Ok []
  | x :: r => y <-? f x ;; ys <-? rmap f r ;; Ok (y :: ys)
  end.

Fixpoint rfold {A S} (f : S -> A -> Result S) (l : list A) (s : S) : Result S :=
  match l with
  | [] => Ok s
  | x :: r => s1 <-? f s x ;; rfold f r s1
  end.

(** ** Dict fields: [d.get(k, default)] *)

Inductive Field (A : Type) :=
| Missing            (* the key is not in the dict *)
| PyNone             (* the key maps to None *)
| Val (a : A).       (* the key maps to a value *)
Arguments Missing {A}.
Arguments PyNone {A}.
Arguments Val {A} a.

(** [get f default]: the result of [d.get(key, default)]; [None] is
    Python's [None]. *)
Definition get {A} (f : Field A) (default : option A) : option A :=
  match f with
  | Missing => default
  | PyNone => None
  | Val a => Some a
  end.

(** ** Dicts in insertion order

    A dict whose iteration order is observed is a list of key/value pairs
    with pairwise different keys, oldest insertion first. *)

(** [k in d] *)
Fixpoint has_key {V} (k : string) (d : list (string * V)) : bool :=
  match d with
  | [] => false
  | (k', _) :: r => String.eqb k k' || has_key k r
  end.

(** [d.get(k)] *)
Fixpoint lookup {V} (k : string) (d : list (string * V)) : option V :=
  match d with
  | [] => None
  | (k', v) :: r => if String.eqb k k' then Some v else lookup k r
  end.

(** [d[k] = f(d[k])] for a key of [d] *)
Fixpoint update {V} (k : string) (f : V -> V) (d : list (string * V))
  : list (string * V) :=
  match d with
  | [] => []
  | (k', v) :: r =>
      if String.eqb k k' then (k', f v) :: r else (k', v) :: update k f r
  end.

(** [d[k] = v] *)
Fixpoint dict_set {V} (k : string) (v : V) (d : list (string * V))
  : list (string * V) :=
  match d with
  | [] => [(k, v)]
  | (k', v') :: r =>
      if String.eqb k k' then (k', v) :: r else (k', v') :: dict_set k v r
  end.

(** [del d[k]] *)
Fixpoint dict_del {V} (k : string) (d : list (string * V)) : list (string * V) :=
  match d with
  | [] => []
  | (k', v') :: r =>
      if String.eqb k k' then r else (k', v') :: dict_del k r
  end.

(** ** Strings *)

Definition is_upper (c : ascii) : bool :=
  (65 <=? nat_of_ascii c)%nat && (nat_of_ascii c <=? 90)%nat.

Definition lower_char (c : ascii) : ascii :=
  if is_upper c then ascii_of_nat (nat_of_ascii c + 32) else c.

(** [str.lower()] *)
Fixpoint lower (s : string) : string :=
  match s with
  | EmptyString => EmptyString
  | String c r => String (lower_char c) (lower r)
  end.

(** The ASCII characters [str.strip()] removes: tab, LF, VT, FF, CR,
    FS, GS, RS, US and space. *)
Definition is_space (c : ascii) : bool :=
  let n := nat_of_ascii c in
  ((9 <=? n)%nat && (n <=? 13)%nat) || ((28 <=? n)%nat && (n <=? 32)%nat).

Fixpoint lstrip (s : string) : string :=
  match s with
  | EmptyString => EmptyString
  | String c r => if is_space c then lstrip r else s
  end.

Fixpoint rstrip (s : string) : string :=
  match s with
  | EmptyString => EmptyString
  | String c r =>
      match rstrip r with
      | EmptyString => if is_space c then EmptyString else String c EmptyString
      | r' => String c r'
      end
  end.

(** [str.strip()] *)
Definition strip (s : string) : string := rstrip (lstrip s).

(** [s.startswith(p)] *)
Definition startswith (s p : string) : bool := String.prefix p s.

(** [s[n:]] *)
Fixpoint drop (n : nat) (s : string) : string :=
  match n, s with
  | O, _ => s
  | S n', String _ r => drop n' r
  | S _, EmptyString => EmptyString
  end.

(** [s[:n]] *)
Fixpoint take (n : nat) (s : string) : string :=
  match n, s with
  | S n', String c r => String c (take n' r)
  | _, _ => EmptyString
  end.

(** [sub in s] *)
Fixpoint contains (sub s : string) : bool :=
  String.prefix sub s ||
  match s with
  | EmptyString => false
  | String _ r => contains sub r
  end.

(** [str(n)] for an int *)
Definition str_int (n : Z) : string := NilZero.string_of_int (Z.to_int n).

(** [str(b)] for a bool *)
Definition str_bool (b : bool) : string := if b then "True" else "False".

(** Truthiness of a str-or-None value. *)
Definition truthy_str (v : option string) : bool :=
  match v with
  | Some s => negb (String.eqb s "")
  | None => false
  end.

(** [a or b] on str-or-None values. *)
Definition or_str (a b : option string) : option string :=
  if truthy_str a then a else b.

(** ** datetime

    A naive datetime is the number of microseconds since
    0001-01-01T00:00:00, read off its calendar fields; an aware datetime is
    its UTC instant on the same scale together with its UTC offset. *)

Inductive datetime :=
| Naive (us : Z)
| Aware (utc_us : Z) (offset_minutes : Z).

Definition datetime_min : datetime := Naive 0.
Definition datetime_max : datetime := Naive 315537897599999999.

(** A microsecond count between [datetime.min] and [datetime.max]. *)
Definition in_datetime_range (us : Z) : bool :=
  (0 <=? us) && (us <=? 315537897599999999).

(** [dt.astimezone(timezone.utc).replace(tzinfo=None)] on an aware datetime
    with the UTC instant [utc_us]: the subtraction of the offset raises
    OverflowError when the instant lies outside datetime's range. *)
Definition astimezone_utc (utc_us : Z) : Result datetime :=
  if in_datetime_range utc_us then Ok (Naive utc_us)
  else Raise (mkExn OverflowError "date value out of range").

(** [n / d] on ints gives the nearest float and raises OverflowError when
    that is no finite float: from [|n / 1024| >= 2**1024 - 2**970] on. *)
Definition float_of_kb_limit : Z := 2 ^ 1034 - 2 ^ 980.
Arguments float_of_kb_limit : simpl never.

(** [a < b]: Python refuses to order a naive against an aware datetime. *)
Definition dt_lt (a b : datetime) : Result bool :=
  match a, b with
  | Naive x, Naive y => Ok (x <? y)
  | Aware x _, Aware y _ => Ok (x <? y)
  | _, _ => Raise (mkExn TypeError
                     "can't compare offset-naive and offset-aware datetimes")
  end.

(** [a < b] on datetime-or-None sort keys. *)
Definition key_lt (a b : option datetime) : Result bool :=
  match a, b with
  | Some x, Some y => dt_lt x y
  | _, _ => Raise (mkExn TypeError "'<' not supported between instances")
  end.

(** ** list.sort / sorted

    CPython computes every key first, then sorts stably with [<] only; with
    [reverse=True] elements with equal keys keep their original order too.
    A stable insertion sort returns the same list, and raises exactly when
    CPython's sort does for the keys used here (one incomparable pair makes
    any comparison sort of at least two elements raise). *)

Section Sort.
Context {A K : Type}.
Variable lt : K -> K -> Result bool.

  (** insert into an ascending list, before the first element that is not
      smaller *)
Fixpoint insert_asc (x : A * K) (l : list (A * K)) : Result (list (A * K)) :=
    match l with
    | [] => Ok [x]
    | y :: r =>
        b <-? lt (snd y) (snd x) ;;
        if b then (r' <-? insert_asc x r ;; Ok (y :: r')) else Ok (x :: l)
    end.

  (** insert into a descending list, before the first element that is not
      larger *)
Fixpoint insert_desc (x : A * K) (l : list (A * K)) : Result (list (A * K)) :=
    match l with
    | [] => Ok [x]
    | y :: r =>
        b <-? lt (snd x) (snd y) ;;
        if b then (r' <-? insert_desc x r ;; Ok (y :: r')) else Ok (x :: l)
    end.

Fixpoint sort_keyed (reverse : bool) (l : list (A * K)) : Result (list (A * K)) :=
    match l with
    | [] => Ok []
    | x :: r =>
        r' <-? sort_keyed reverse r ;;
        if reverse then insert_desc x r' else insert_asc x r'
    end.

  (** [sorted(l, key=key, reverse=reverse)] *)
Definition sorted (key : A -> Result K) (reverse : bool) (l : list A)
    : Result (list A) :=
    keyed <-? rmap (fun a => k <-? key a ;; Ok (a, k)) l ;;
    s <-? sort_keyed reverse keyed ;;
    Ok (map fst s).
End Sort.

(** [a < b] on ints never raises. *)
Definition nat_lt (a b : nat) : Result bool := Ok (a <? b)%nat.

End Py.

(* ================================================================== *)
(** * Configuration

    [src/config/config_reader.py] is not part of the sources at hand; the
    settings the code reads through [config.get], [config.get_int] and
    [config.get_bool] are taken as a record of their resolved values. *)
(* ================================================================== *)

Record Config := mkConfig {
  shared_mailbox_email : option string;
  max_search_results : Z;
  include_sent_items : bool;
  include_timestamps : bool;
  max_connection_retries : Z;
  personal_retention_months : Z;
  shared_retention_months : Z;
  max_body_chars : Z;
  clean_html_content : bool;
  max_recipients_display : Z
}.

(* ================================================================== *)
(** * The mail record *)
(* ================================================================== *)

Import Py.

(** An element of [to_recipients] / [cc_recipients]: a dict with [name]
    and [email], or (legacy flat lists) a bare string. *)
Inductive RecipientEntry :=
| EntryDict (name email : Field string)
| EntryStr (s : string).

(** The dict built by [_extract_email_data] and consumed by the formatter. *)
Record MailRecord := mkMail {
  subject : Field string;
  sender_name : Field string;
  sender_email : Field string;
  to_recipients : Field (list RecipientEntry);
  cc_recipients : Field (list RecipientEntry);
  recipients : Field (list string);
  received_time : Field datetime;
  folder_name : Field string;
  mailbox_type : Field string;
  importance : Field Z;
  body : Field string;
  size : Field Z;
  attachments_count : Field Z;
  unread : Field bool;
  entry_id : Field string
}.

(** The empty dict [{}]. *)
Definition empty_record : MailRecord :=
  mkMail Missing Missing Missing Missing Missing Missing Missing Missing
         Missing Missing Missing Missing Missing Missing Missing.

(* ================================================================== *)
(** * src/utils/email_formatter.py *)
(* ================================================================== *)

Module Formatter.

(** The UTC instant of a datetime on the microsecond scale
    ([dt.astimezone(timezone.utc).replace(tzinfo=None)] for an aware one,
    the datetime itself for a naive one). *)
Definition utc_us (dt : datetime) : Z :=
  match dt with
  | Naive t => t
  | Aware t _ => t
  end.

Definition _sort_key_time (email : MailRecord) (reverse : bool)
  : Result datetime :=
  match get (received_time email) None with
  | None => Ok (if negb reverse then datetime_min else datetime_max)
  | Some (Aware t _) => astimezone_utc t
  | Some dt => Ok dt
  end.

Definition _normalize_dt (dt : option datetime) : Result datetime :=
  match dt with
  | None => Ok datetime_min
  | Some (Aware t _) => astimezone_utc t
  | Some d => Ok d
  end.

(** ** Output shapes *)

(** [round(size / 1024, 1)]: a float; the model keeps the integer it is
    computed from, once the division has gone through. *)
Inductive SizeKb := RoundKb (size_bytes : Z).

(** An ISO-8601 string, kept as the datetime whose [isoformat()] it is. *)
Inductive IsoString := Iso (dt : datetime).

Record FormattedEmail := mkFormatted {
  fe_subject : option string;
  fe_sender_name : option string;
  fe_sender_email : option string;
  fe_to : option (list RecipientEntry);
  fe_cc : option (list RecipientEntry);
  fe_recipients : option (list string);
  fe_folder : option string;
  fe_mailbox : option string;
  fe_body_preview : string;
  fe_attachments : option Z;
  fe_importance : string;
  fe_unread : option bool;
  fe_size_kb : SizeKb;
  fe_received_time : Field IsoString
}.

Record DateRange := mkRange {
  dr_first : option IsoString;
  dr_last : option IsoString
}.

Record Distribution := mkDist {
  d_personal : nat;
  d_shared : nat;
  d_unknown : nat
}.

Record Participant := mkParticipant {
  p_name : option string;
  p_email : option string;
  participation_count : nat;
  sent : nat;
  to_count : nat;
  cc_count : nat
}.

Record Conversation := mkConversation {
  conversation_id : string;
  email_count : nat;
  conv_date_range : DateRange;
  conv_participants : list Participant;
  conv_emails : list FormattedEmail
}.

Record Summary := mkSummary {
  total_emails : nat;
  conversations : nat;
  sum_date_range : DateRange;
  mailbox_distribution : Distribution;
  sum_participants : list Participant
}.

Inductive ChainPayload :=
| NoEmailsFound (search_subject message : string)
| ChainSuccess (search_subject : string) (summary : Summary)
               (convs : list Conversation)
               (all_emails_chronological : list FormattedEmail).

(** ** get_importance_text *)

Definition get_importance_text (importance : option Z) : string :=
  match importance with
  | Some 0 => "Low"
  | Some 1 => "Normal"
  | Some 2 => "High"
  | _ => "Normal"
  end.

(** ** parse_iso_time

    [datetime.fromisoformat] reads back what [isoformat] wrote, so on the
    strings this module produces the result is the normalised datetime;
    the OverflowError of the normalisation is not among the exceptions the
    function catches. *)
Definition parse_iso_time (iso : IsoString) : Result datetime :=
  match iso with
  | Iso dt => _normalize_dt (Some dt)
  end.

(** ** format_single_email *)

Definition format_single_email (cfg : Config) (email : MailRecord)
  : Result FormattedEmail :=
  let body_preview :=
    match get (body email) (Some "") with
    | Some b => if negb (String.eqb b "") then take 500 b else ""
    | None => ""
    end in
  size_kb <-? match get (size email) (Some 0) with
              | Some n =>
                  if Z.abs n <? float_of_kb_limit then Ok (RoundKb n)
                  else Raise (mkExn OverflowError
                         "integer division result too large for a float")
              | None => Raise (mkExn TypeError
                  "unsupported operand type(s) for /: 'NoneType' and 'int'")
              end ;;
  let formatted := mkFormatted
    (get (subject email) (Some "No Subject"))
    (get (sender_name email) (Some "Unknown"))
    (get (sender_email email) (Some ""))
    (get (to_recipients email) (Some []))
    (get (cc_recipients email) (Some []))
    (get (recipients email) (Some []))
    (get (folder_name email) (Some "Unknown"))
    (get (mailbox_type email) (Some "unknown"))
    body_preview
    (get (attachments_count email) (Some 0))
    (get_importance_text (get (importance email) (Some 1)))
    (get (unread email) (Some false))
    size_kb
    Missing in
  if include_timestamps cfg then
    Ok (mkFormatted
          (fe_subject formatted) (fe_sender_name formatted)
          (fe_sender_email formatted) (fe_to formatted) (fe_cc formatted)
          (fe_recipients formatted) (fe_folder formatted)
          (fe_mailbox formatted) (fe_body_preview formatted)
          (fe_attachments formatted) (fe_importance formatted)
          (fe_unread formatted) (fe_size_kb formatted)
          match get (received_time email) None with
          | Some dt => Val (Iso dt)
          | None => PyNone
          end)
  else Ok formatted.

(** ** group_by_conversation *)

Definition prefixes : list string := ["re:"; "fwd:"; "fw:"; "reply:"; "forward:"].

(** One turn of the loop over [prefixes]. *)
Definition strip_prefix (clean_subject prefix : string) : string :=
  if startswith (lower clean_subject) prefix
  then strip (drop (String.length prefix) clean_subject)
  else clean_subject.

(** The conversation key of a (str) subject. *)
Definition conv_key (subject : string) : string :=
  lower (fold_left strip_prefix prefixes (strip subject)).

(** [conversations[k].append(v)] on a [defaultdict(list)] *)
Fixpoint dict_append {V} (k : string) (v : V) (d : list (string * list V))
  : list (string * list V) :=
  match d with
  | [] => [(k, [v])]
  | (k', vs) :: r =>
      if String.eqb k k' then (k', vs ++ [v]) :: r
      else (k', vs) :: dict_append k v r
  end.

Definition group_by_conversation (emails : list MailRecord)
  : Result (list (string * list MailRecord)) :=
  rfold (fun conversations email =>
           match get (subject email) (Some "") with
           | Some s => Ok (dict_append (conv_key s) email conversations)
           | None => Raise (mkExn AttributeError
                        "'NoneType' object has no attribute 'strip'")
           end)
        emails [].

(** ** get_date_range *)

Definition list_min (x : Z) (l : list Z) : Z := fold_left Z.min l x.
Definition list_max (x : Z) (l : list Z) : Z := fold_left Z.max l x.

Definition get_date_range (emails : list MailRecord) : Result DateRange :=
  let dates := flat_map (fun email =>
                 match get (received_time email) None with
                 | Some dt => [dt]
                 | None => []
                 end) emails in
  normalized <-? rmap (fun d => _normalize_dt (Some d)) dates ;;
  match map utc_us normalized with
  | [] => Ok (mkRange None None)
  | t :: ts => Ok (mkRange (Some (Iso (Naive (list_min t ts))))
                           (Some (Iso (Naive (list_max t ts)))))
  end.

(** ** get_mailbox_distribution *)

Definition get_mailbox_distribution (emails : list MailRecord) : Distribution :=
  fold_left (fun d email =>
    match get (mailbox_type email) (Some "unknown") with
    | Some m =>
        if String.eqb m "personal" then mkDist (S (d_personal d)) (d_shared d) (d_unknown d)
        else if String.eqb m "shared" then mkDist (d_personal d) (S (d_shared d)) (d_unknown d)
        else mkDist (d_personal d) (d_shared d) (S (d_unknown d))
    | None => mkDist (d_personal d) (d_shared d) (S (d_unknown d))
    end) emails (mkDist 0 0 0).


(** ** get_participants *)

Inductive Role := RSent | RTo | RCc.

(** A value of the local [stats] dict. *)
Record Info := mkInfo {
  i_name : option string;
  i_email : option string;
  i_sent : nat;
  i_to : nat;
  i_cc : nat
}.

Definition Stats := list (string * Info).

Definition bump (role : Role) (i : Info) : Info :=
  match role with
  | RSent => mkInfo (i_name i) (i_email i) (S (i_sent i)) (i_to i) (i_cc i)
  | RTo => mkInfo (i_name i) (i_email i) (i_sent i) (S (i_to i)) (i_cc i)
  | RCc => mkInfo (i_name i) (i_email i) (i_sent i) (i_to i) (S (i_cc i))
  end.

Definition is_unknown (v : option string) : bool :=
  match v with
  | Some s => String.eqb s "Unknown"
  | None => false
  end.

(** The statements of [_touch] after the entry exists. *)
Definition refresh (name email : option string) (role : Role) (i : Info) : Info :=
  let i1 := bump role i in
  let i2 := if truthy_str email && negb (truthy_str (i_email i1))
            then mkInfo (i_name i1) email (i_sent i1) (i_to i1) (i_cc i1)
            else i1 in
  if truthy_str name && (negb (truthy_str (i_name i2)) || is_unknown (i_name i2))
  then mkInfo name (i_email i2) (i_sent i2) (i_to i2) (i_cc i2)
  else i2.

Definition _touch (stats : Stats) (key : string) (name email : option string)
  (role : Role) : Stats :=
  let stats1 := if has_key key stats then stats
                else stats ++ [(key, mkInfo name email 0 0 0)] in
  update key (refresh name email role) stats1.

(** [(e or n).lower()] *)
Definition lower_key (e n : option string) : Result string :=
  match or_str e n with
  | Some s => Ok (lower s)
  | None => Raise (mkExn AttributeError
               "'NoneType' object has no attribute 'lower'")
  end.

(** The body of the loops over [to_recipients] and [cc_recipients]. *)
Definition touch_entry (role : Role) (stats : Stats) (entry : RecipientEntry)
  : Result Stats :=
  let e := match entry with
           | EntryDict _ em => get em (Some "")
           | EntryStr _ => Some ""
           end in
  let n := match entry with
           | EntryDict nm _ => get nm (Some "")
           | EntryStr s => Some s
           end in
  k <-? lower_key e n ;;
  if negb (String.eqb k "") then Ok (_touch stats k n e role) else Ok stats.

(** [for entry in email.get(field, [])]: [None] is not iterable. *)
Definition iter_entries (f : Field (list RecipientEntry))
  : Result (list RecipientEntry) :=
  match get f (Some []) with
  | Some l => Ok l
  | None => Raise (mkExn TypeError "'NoneType' object is not iterable")
  end.

(** The body of the loop over [emails]. *)
Definition touch_email (stats : Stats) (email : MailRecord) : Result Stats :=
  let sname := get (sender_name email) (Some "Unknown") in
  let semail := get (sender_email email) (Some "") in
  key <-? lower_key semail sname ;;
  let stats1 := _touch stats key sname semail RSent in
  tos <-? iter_entries (to_recipients email) ;;
  stats2 <-? rfold (touch_entry RTo) tos stats1 ;;
  ccs <-? iter_entries (cc_recipients email) ;;
  rfold (touch_entry RCc) ccs stats2.

(** The [stats] dict once the loop over [emails] is over. *)
Definition participant_stats (emails : list MailRecord) : Result Stats :=
  rfold touch_email emails [].

Definition info_total (i : Info) : nat := (i_sent i + i_to i + i_cc i)%nat.

Definition to_participant (info : Info) : Participant :=
  let total := (i_sent info + i_to info + i_cc info)%nat in
  mkParticipant (i_name info) (i_email info) total
                (i_sent info) (i_to info) (i_cc info).

(** The list [participants] before the final slice. *)
Definition ranked_participants (emails : list MailRecord)
  : Result (list Participant) :=
  stats <-? participant_stats emails ;;
  ranked <-? sorted nat_lt (fun x => Ok (info_total x)) true (map snd stats) ;;
  Ok (map to_participant ranked).

Definition get_participants (emails : list MailRecord)
  : Result (list Participant) :=
  participants <-? ranked_participants emails ;;
  Ok (firstn 20 participants).

(** ** format_email_chain *)

(** The sort key of a formatted conversation:
    [max([parse_iso_time(e["received_time"]) for e in x["emails"]
          if e["received_time"]])]. *)
Definition conversation_key (x : Conversation) : Result datetime :=
  times <-? rfold (fun acc e =>
              match fe_received_time e with
              | Missing => Raise (mkExn KeyError "'received_time'")
              | PyNone => Ok acc
              | Val iso => t <-? parse_iso_time iso ;; Ok (acc ++ [t])
              end) (conv_emails x) [] ;;
  match map utc_us times with
  | [] => Raise (mkExn ValueError "max() arg is an empty sequence")
  | t :: ts => Ok (Naive (list_max t ts))
  end.

(** The body of the loop over [conversations.items()]. *)
Definition format_conversation (cfg : Config)
  (item : string * list MailRecord) : Result Conversation :=
  let conv_id := fst item in
  sorted_emails <-? sorted dt_lt (fun x => _sort_key_time x false) false
                      (snd item) ;;
  date_range <-? get_date_range sorted_emails ;;
  participants <-? get_participants sorted_emails ;;
  emails <-? rmap (format_single_email cfg) sorted_emails ;;
  Ok (mkConversation conv_id (List.length sorted_emails)
        date_range participants emails).

Definition format_email_chain (cfg : Config) (emails : list MailRecord)
  (search_subject : string) : Result ChainPayload :=
  match emails with
  | [] => Ok (NoEmailsFound search_subject
               ("No emails found for subject: '" ++ search_subject ++ "'")%string)
  | _ =>
      convs <-? group_by_conversation emails ;;
      date_range <-? get_date_range emails ;;
      participants <-? get_participants emails ;;
      let stats := mkSummary (List.length emails) (List.length convs)
                     date_range
                     (get_mailbox_distribution emails) participants in
      formatted_conversations <-? rmap (format_conversation cfg) convs ;;
      sorted_conversations <-? sorted dt_lt conversation_key true
                                 formatted_conversations ;;
      chronological <-? sorted dt_lt (fun x => _sort_key_time x true) true
                          emails ;;
      all_emails <-? rmap (format_single_email cfg) chronological ;;
      Ok (ChainSuccess search_subject stats sorted_conversations all_emails)
  end.

(** ** format_mailbox_status *)

(** The dict [check_access] returns. *)
Inductive AccessResult :=
| AccessError (error : string)
| AccessReport (outlook_connected personal_accessible shared_accessible
                shared_configured : bool)
               (retention_personal_months retention_shared_months : Z)
               (personal_name shared_name : option string)
               (errors : list string).

Record MailboxStatus := mkStatus {
  ms_outlook_connected : bool;
  ms_personal_accessible : bool;
  ms_personal_name : string;
  ms_personal_retention : Z;
  ms_shared_configured : bool;
  ms_shared_accessible : bool;
  ms_shared_name : string;
  ms_shared_email : string;
  ms_shared_retention : Z;
  ms_errors : list string
}.

Definition format_mailbox_status (cfg : Config) (access_result : AccessResult)
  : MailboxStatus :=
  let email := match shared_mailbox_email cfg with
               | Some a => a
               | None => "Not configured"
               end in
  match access_result with
  | AccessError _ =>
      mkStatus false false "Personal Mailbox" 6 false false "Shared Mailbox"
               email 12 []
  | AccessReport oc pa sa sc rp rs pn sn errs =>
      mkStatus oc pa
               (match pn with Some n => n | None => "Personal Mailbox" end) rp
               sc sa
               (match sn with Some n => n | None => "Shared Mailbox" end)
               email rs errs
  end.

(** ** create_alert_timeline *)

Record TimelineEntry := mkTimeline {
  tl_timestamp : option IsoString;
  tl_subject : string;
  tl_sender : option string;
  tl_mailbox : option string;
  tl_folder : option string;
  tl_importance : string
}.

(** The dict built for one alert; [None[:100]] raises. *)
Definition timeline_entry (alert : MailRecord) : Result TimelineEntry :=
  let timestamp := match get (received_time alert) None with
                   | Some dt => Some (Iso dt)
                   | None => None
                   end in
  subject100 <-? match get (subject alert) (Some "No Subject") with
                 | Some s => Ok (take 100 s)
                 | None => Raise (mkExn TypeError
                             "'NoneType' object is not subscriptable")
                 end ;;
  Ok (mkTimeline timestamp subject100
        (get (sender_name alert) (Some "Unknown"))
        (get (mailbox_type alert) (Some "unknown"))
        (get (folder_name alert) (Some "Unknown"))
        (get_importance_text (get (importance alert) (Some 1)))).

Definition create_alert_timeline (alerts : list MailRecord)
  : Result (list TimelineEntry) :=
  sorted_alerts <-? sorted dt_lt (fun x => _sort_key_time x false) false
                      alerts ;;
  rmap timeline_entry sorted_alerts.

End Formatter.

(* ================================================================== *)
(** * src/utils/outlook_client.py *)
(* ================================================================== *)

Module Client.
Import Formatter.

(** ** The mail store behind the COM session

    What Outlook answers is data of the model.  An answer of type
    [Result _] or [option _] says whether the COM call raises ([Raise],
    [None]); where the code swallows the exception its text is not kept. *)

(** A COM recipient of a mail item. *)
Record Recipient := mkRecipient {
  rc_name : option string;       (* None: no attribute Name *)
  rc_address : option string;    (* None: no attribute Address *)
  rc_smtp : option string;       (* PR_SMTP_ADDRESS; None: GetProperty raises *)
  rc_type : option Z             (* None: no attribute Type *)
}.

(** [item.Sender] and its SMTP property. *)
Inductive SenderAnswer :=
| SenderAbsent                   (* item.Sender is None *)
| SenderSmtp (smtp : string)
| SenderFault.                   (* item.Sender or GetProperty raises *)

(** A COM integer property (VT_I4): a signed 32-bit value. *)
Record Long := mkLong {
  long_value : Z;
  long_in_range :
    (-2147483648 <=? long_value) && (long_value <=? 2147483647) = true
}.

(** A COM date property (VT_DATE) as pywin32 hands it over: a datetime,
    which as every datetime lies between [datetime.min] and
    [datetime.max], either naive or aware with the UTC time zone. *)
Record ComTime := mkComTime {
  ct_aware : bool;
  ct_us : Z;
  ct_in_range : in_datetime_range ct_us = true
}.

Definition com_datetime (t : ComTime) : datetime :=
  if ct_aware t then Aware (ct_us t) 0 else Naive (ct_us t).

(** A COM mail item; [None] in an attribute: the attribute does not exist
    and [getattr] takes its default. *)
Record Item := mkItem {
  it_entry_id : option string;
  it_subject : option string;
  it_sender_name : option string;
  it_sender_email_address : option string;
  it_sender : SenderAnswer;
  it_sender_smtp_property : option string;  (* PR_SENDER_SMTP_ADDRESS; None: raises *)
  it_received_time : option ComTime;
  it_importance : option Z;
  it_body : option string;
  it_size : option Long;
  it_attachments_count : option Z;
  it_unread : option bool;
  it_recipients : list (option Recipient);  (* a None element: the iteration raises there *)
  it_recipients_count : Z;
  it_broken : bool   (* reading the item raises a COM error in _extract_email_data *)
}.

(** A MAPI folder.  [f_restrict filter] is [folder.Items], sorted newest
    first and restricted by the DASL [filter]: [None] when one of these
    calls raises; a [None] element where the iteration (or the read of
    [EntryID]) raises.  [f_folders] is what [folder.Folders] answers:
    [None] when reading it or its [Count] raises; otherwise one element for
    each index up to [Count], the subfolder [Item(i)] or [None] where
    [Item(i)] raises. *)
Inductive Folder := mkFolder {
  f_name : string;
  f_restrict : string -> option (list (option Item));
  f_folders : option (list (option Folder))
}.

(** The object [folder.Parent]; [st_id] is Python's [id()] of the wrapper. *)
Record Store := mkStore {
  st_id : Z;
  st_display_name : option string;
  st_name : option string;
  st_folders : option (list Folder)   (* the root's child folders; None: raises *)
}.

(** A default folder as returned by the namespace. *)
Record Inbox := mkInbox {
  ib_folder : Folder;
  ib_parent : Result Store            (* inbox_folder.Parent *)
}.

(** A recipient created from the shared mailbox address, after [Resolve()]. *)
Record SharedRecipient := mkShared {
  sr_resolved : bool;
  sr_inbox : Result Inbox   (* namespace.GetSharedDefaultFolder(recipient, 6) *)
}.

(** What the session answers during one call.  Clock readings are taken
    once per call; [time.time()] is read in whole seconds. *)
Record World := mkWorld {
  w_time : Z;                                   (* time.time() *)
  w_now : Z;                                    (* datetime.now(), a naive datetime *)
  w_probe : bool;                               (* namespace.CurrentUser.Name answers *)
  w_connect : Z -> bool;                        (* the connection attempt succeeds *)
  w_default_folder : Result Inbox;              (* namespace.GetDefaultFolder(6) *)
  w_create_recipient : string -> Result SharedRecipient
                                                (* CreateRecipient(addr) and Resolve() *)
}.

(** Session accesses, in the order they happen. *)
Inductive Event :=
| EvConnect (attempt : Z)
| EvCurrentUser
| EvGetDefaultFolder
| EvCreateRecipient (address : string)
| EvGetSharedDefaultFolder
| EvFolders (folder : string)
| EvParent
| EvRootFolders
| EvRestrict (folder filter : string).

(** ** The client object *)

(** A value of [_search_cache].  The list in [data] is the very object
    handed to the callers; none of them mutates it (the formatter sorts
    copies), so it is kept by value. *)
Record CacheEntry := mkEntry {
  data : list MailRecord;
  timestamp : Z
}.

Record State := mkState {
  outlook : bool;                 (* self.outlook is not None *)
  namespace : bool;               (* self.namespace is not None *)
  connected : bool;
  _search_cache : list (string * CacheEntry);
  _folder_cache : list (string * Folder);
  _shared_recipient_cache : option SharedRecipient;
  _max_retries : Z
}.

(** [OutlookClient()] *)
Definition init (cfg : Config) : State :=
  mkState false false false [] [] None (max_connection_retries cfg).

(** ** Methods run on the client: state, trace of session accesses, result *)

Definition M (A : Type) : Type := State -> State * list Event * Result A.

Definition ret {A} (a : A) : M A := fun s => (s, [], Ok a).

Definition bind {A B} (m : M A) (k : A -> M B) : M B :=
  fun s =>
    match m s with
    | (s1, t1, Ok a) =>
        match k a s1 with
        | (s2, t2, r) => (s2, t1 ++ t2, r)
        end
    | (s1, t1, Raise e) => (s1, t1, Raise e)
    end.

Notation "x <- m ;; k" := (bind m (fun x => k))
  (at level 61, m at next level, right associativity).
Notation "m ;;; k" := (bind m (fun _ => k))
  (at level 61, right associativity).

Definition emit (e : Event) : M unit := fun s => (s, [e], Ok tt).
Definition emit_all (t : list Event) : M unit := fun s => (s, t, Ok tt).
Definition get_state : M State := fun s => (s, [], Ok s).
Definition lift {A} (r : Result A) : M A := fun s => (s, [], r).

(** [try: m  except Exception as e: handler e] *)
Definition try_catch {A} (m : M A) (handler : Exn -> M A) : M A :=
  fun s =>
    match m s with
    | (s1, t1, Ok a) => (s1, t1, Ok a)
    | (s1, t1, Raise e) =>
        match handler e s1 with
        | (s2, t2, r) => (s2, t1 ++ t2, r)
        end
    end.

Definition set_connection (o n c : bool) : M unit :=
  fun s => (mkState o n c (_search_cache s) (_folder_cache s)
                    (_shared_recipient_cache s) (_max_retries s), [], Ok tt).

Definition set_search_cache (c : list (string * CacheEntry)) : M unit :=
  fun s => (mkState (outlook s) (namespace s) (connected s) c (_folder_cache s)
                    (_shared_recipient_cache s) (_max_retries s), [], Ok tt).

Definition set_folder_cache (c : list (string * Folder)) : M unit :=
  fun s => (mkState (outlook s) (namespace s) (connected s) (_search_cache s) c
                    (_shared_recipient_cache s) (_max_retries s), [], Ok tt).

Definition set_shared_recipient_cache (c : option SharedRecipient) : M unit :=
  fun s => (mkState (outlook s) (namespace s) (connected s) (_search_cache s)
                    (_folder_cache s) c (_max_retries s), [], Ok tt).

(** ** connect

    One attempt is [GetActiveObject] or [Dispatch], [GetNamespace] and the
    optional, non-fatal [Logon]; the session says through [w_connect]
    whether it goes through.  Only the session accesses are traced, not
    the back-off sleeps.
    [connect(retry_attempt)] calls itself while
    [retry_attempt < self._max_retries - 1]; [retries_left] is
    [self._max_retries - 1 - retry_attempt]. *)
Fixpoint connect_from (w : World) (retries_left : nat) (retry_attempt : Z)
  : M bool :=
  emit (EvConnect retry_attempt) ;;;
  if w_connect w retry_attempt then
    set_connection true true true ;;; ret true
  else
    set_connection false false false ;;;
    match retries_left with
    | S n => connect_from w n (retry_attempt + 1)
    | O => ret false
    end.

Definition connect (w : World) : M bool :=
  s <- get_state ;;
  connect_from w (Z.to_nat (_max_retries s - 1)) 0.

Definition _is_connection_alive (w : World) : M bool :=
  s <- get_state ;;
  if negb (connected s) || negb (namespace s) then ret false
  else emit EvCurrentUser ;;; ret (w_probe w).

Definition _ensure_connected (w : World) : M bool :=
  alive <- _is_connection_alive w ;;
  if alive then ret true
  else
    set_connection false false false ;;;
    set_shared_recipient_cache None ;;;
    set_folder_cache [] ;;;
    set_search_cache [] ;;;
    connect w.

(** ** _clean_html *)

Fixpoint has_char (c : ascii) (s : string) : bool :=
  match s with
  | EmptyString => false
  | String c' r => Ascii.eqb c c' || has_char c r
  end.

(** After a ["<"], the pattern [<[^>]+>] matches when the next character
    is not [">"] and a [">"] follows further on. *)
Definition tag_opens (r : string) : bool :=
  match r with
  | String c r' => negb (Ascii.eqb c ">") && has_char ">" r'
  | EmptyString => false
  end.

(** [re.sub(r'<[^>]+>', '', text)]; [inside]: the scan is within a match. *)
Fixpoint remove_tags (inside : bool) (s : string) : string :=
  match s with
  | EmptyString => EmptyString
  | String c r =>
      if inside then
        if Ascii.eqb c ">" then remove_tags false r else remove_tags true r
      else if Ascii.eqb c "<" && tag_opens r then remove_tags true r
      else String c (remove_tags false r)
  end.

(** [s.replace(old, new)] for a non-empty [old]; [skip]: characters of a
    replaced occurrence still to pass. *)
Fixpoint replace_from (old new : string) (skip : nat) (s : string) : string :=
  match s with
  | EmptyString => EmptyString
  | String c r =>
      match skip with
      | S k => replace_from old new k r
      | O =>
          if String.prefix old s
          then (new ++ replace_from old new (String.length old - 1) r)%string
          else String c (replace_from old new 0 r)
      end
  end.

Definition replace (old new s : string) : string := replace_from old new 0 s.

(** [re.sub(r'\s+', ' ', text)] *)
Fixpoint collapse_ws (in_ws : bool) (s : string) : string :=
  match s with
  | EmptyString => EmptyString
  | String c r =>
      if is_space c then
        if in_ws then collapse_ws true r else String " " (collapse_ws true r)
      else String c (collapse_ws false r)
  end.

Definition html_entities : list (string * string) :=
  [("&amp;", "&"); ("&lt;", "<"); ("&gt;", ">");
   ("&quot;", String (ascii_of_nat 34) EmptyString); ("&#39;", "'");
   ("&nbsp;", " ")].

Definition _clean_html (text : string) : string :=
  let text1 := remove_tags false text in
  let text2 := fold_left (fun t ec => replace (fst ec) (snd ec) t)
                         html_entities text1 in
  strip (collapse_ws false text2).

(** ** _extract_email_data *)

Definition OL_TO : Z := 1.
Definition OL_CC : Z := 2.

Definition default {A} (d : A) (v : option A) : A :=
  match v with
  | Some a => a
  | None => d
  end.

(** [address and (address.startswith('/') or '@' not in address)] *)
Definition is_exchange_dn (address : string) : bool :=
  negb (String.eqb address "") &&
  (startswith address "/" || negb (contains "@" address)).

(** The loop over [item.Recipients]; returns [to_recipients],
    [cc_recipients] and the flat [all_recipients]. *)
Fixpoint read_recipients (max_recipients total : Z)
  (rs : list (option Recipient)) (count : Z)
  (to cc : list RecipientEntry) (all : list string)
  : list RecipientEntry * list RecipientEntry * list string :=
  match rs with
  | [] => (to, cc, all)
  | None :: _ => (to, cc, all)
  | Some recipient :: rest =>
      if count >=? max_recipients then
        (to, cc,
         all ++ [("... and " ++ str_int (total - count) ++ " more")%string])
      else
        let name := default "" (rc_name recipient) in
        let address := default "" (rc_address recipient) in
        let smtp := if is_exchange_dn address
                    then default address (rc_smtp recipient)
                    else address in
        let entry := EntryDict (Val name) (Val smtp) in
        let rtype := default OL_TO (rc_type recipient) in
        let shown := if negb (String.eqb name "") then name else smtp in
        if rtype =? OL_CC
        then read_recipients max_recipients total rest (count + 1)
                             to (cc ++ [entry]) (all ++ [shown])
        else read_recipients max_recipients total rest (count + 1)
                             (to ++ [entry]) cc (all ++ [shown])
  end.

Definition resolve_sender (item : Item) : string :=
  let sender_email := default "" (it_sender_email_address item) in
  if is_exchange_dn sender_email then
    match it_sender item with
    | SenderSmtp smtp => smtp
    | SenderAbsent => sender_email
    | SenderFault => default sender_email (it_sender_smtp_property item)
    end
  else sender_email.

Definition _extract_email_data (cfg : Config) (w : World) (item : Item)
  (folder_name mailbox_type : string) : option MailRecord :=
  if it_broken item then None
  else
    let body0 := default "" (it_body item) in
    let max_chars := max_body_chars cfg in
    let body1 :=
      if (max_chars >? 0) && (Z.of_nat (String.length body0) >? max_chars)
      then (take (Z.to_nat max_chars) body0 ++ " [truncated]")%string
      else body0 in
    let body2 :=
      if clean_html_content cfg && negb (String.eqb body1 "")
      then _clean_html body1 else body1 in
    let '(to, cc, all) :=
      read_recipients (max_recipients_display cfg) (it_recipients_count item)
                      (it_recipients item) 0 [] [] [] in
    Some (mkMail
      (Val (default "No Subject" (it_subject item)))
      (Val (default "Unknown" (it_sender_name item)))
      (Val (resolve_sender item))
      (Val to)
      (Val cc)
      (Val all)
      (Val (match it_received_time item with
            | Some t => com_datetime t
            | None => Naive (w_now w)
            end))
      (Val folder_name)
      (Val mailbox_type)
      (Val (default 1 (it_importance item)))
      (Val body2)
      (Val (match it_size item with
            | Some n => long_value n
            | None => 0
            end))
      (Val (default 0 (it_attachments_count item)))
      (Val (default false (it_unread item)))
      (Val (default "" (it_entry_id item)))).

(** ** _get_store_display_name *)

Definition _get_store_display_name (folder : Inbox) : M string :=
  emit EvParent ;;;
  match ib_parent folder with
  | Ok parent =>
      match st_display_name parent, st_name parent with
      | Some n, _ => ret n
      | None, Some n => ret n
      | None, None => ret "Mailbox"
      end
  | Raise _ => ret "Mailbox"
  end.

(** ** _get_folder_by_name *)

Definition _get_folder_by_name (parent : Store) (name : string)
  : M (option Folder) :=
  let cache_key := (str_int (st_id parent) ++ "_" ++ name)%string in
  s <- get_state ;;
  match lookup cache_key (_folder_cache s) with
  | Some folder => ret (Some folder)
  | None =>
      emit EvRootFolders ;;;
      match st_folders parent with
      | Some folders =>
          match find (fun folder =>
                        String.eqb (lower (f_name folder)) (lower name))
                     folders with
          | Some folder =>
              set_folder_cache (dict_set cache_key folder (_folder_cache s)) ;;;
              ret (Some folder)
          | None => ret None
          end
      | None => ret None
      end
  end.

(** ** _collect_subfolders_recursive *)

(** [folder_list] after the call: the folder is appended, then the
    subfolders are walked until the enumeration ends or raises. *)
Fixpoint collect (folder : Folder) (folder_list : list Folder) : list Folder :=
  match folder with
  | mkFolder _ _ subfolders =>
      match subfolders with
      | None => folder_list ++ [folder]
      | Some items =>
          (fix walk (items : list (option Folder)) (acc : list Folder)
             : list Folder :=
             match items with
             | Some subfolder :: rest => walk rest (collect subfolder acc)
             | _ => acc
             end) items (folder_list ++ [folder])
      end
  end.

(** The reads of [Folders] during the call: one for [Count], then one for
    each [Item(i)], each followed by the reads of the walk of that
    subfolder; an [Item(i)] that raises ends the loop. *)
Fixpoint folder_reads (folder : Folder) : list Event :=
  match folder with
  | mkFolder name _ subfolders =>
      EvFolders name ::
      match subfolders with
      | None => []
      | Some items =>
          (fix walk (items : list (option Folder)) : list Event :=
             match items with
             | [] => []
             | None :: _ => [EvFolders name]
             | Some subfolder :: rest =>
                 EvFolders name :: folder_reads subfolder ++ walk rest
             end) items
      end
  end.

Definition _collect_subfolders_recursive (folder : Folder)
  (folder_list : list Folder) : M (list Folder) :=
  emit_all (folder_reads folder) ;;;
  ret (collect folder folder_list).

(** ** _search_folder_restrict *)

Definition dq : string := String (ascii_of_nat 34) EmptyString.

Definition dasl_filter (safe : string) : string :=
  ("@SQL=(" ++ dq ++ "urn:schemas:httpmail:subject" ++ dq ++ " LIKE '%"
   ++ safe ++ "%' OR " ++ dq ++ "urn:schemas:httpmail:textdescription" ++ dq
   ++ " LIKE '%" ++ safe ++ "%')")%string.

Definition subject_filter (safe : string) : string :=
  ("@SQL=" ++ dq ++ "urn:schemas:httpmail:subject" ++ dq ++ " LIKE '%"
   ++ safe ++ "%'")%string.

(** [x in found_ids] *)
Definition mem (x : string) (found_ids : list string) : bool :=
  existsb (String.eqb x) found_ids.

(** The loop [for item in filtered].  The first component of the result
    is [false] when the loop was left by an exception. *)
Fixpoint scan (cfg : Config) (w : World) (folder_name mailbox_type : string)
  (max_results : Z) (filtered : list (option Item)) (count : Z)
  (emails : list MailRecord) (found_ids : list string)
  : bool * list MailRecord * list string :=
  match filtered with
  | [] => (true, emails, found_ids)
  | None :: _ => (false, emails, found_ids)
  | Some item :: rest =>
      if count >=? max_results then (true, emails, found_ids)
      else
        let entry_id := default "" (it_entry_id item) in
        if negb (String.eqb entry_id "") && negb (mem entry_id found_ids) then
          match _extract_email_data cfg w item folder_name mailbox_type with
          | Some email_data =>
              scan cfg w folder_name mailbox_type max_results rest (count + 1)
                   (emails ++ [email_data]) (found_ids ++ [entry_id])
          | None =>
              scan cfg w folder_name mailbox_type max_results rest count
                   emails found_ids
          end
        else
          scan cfg w folder_name mailbox_type max_results rest count
               emails found_ids
  end.

(** Returns the folder's [emails] and the updated [found_ids] (the set is
    shared with the caller). *)
Definition _search_folder_restrict (cfg : Config) (w : World) (folder : Folder)
  (search_text mailbox_type : string) (max_results : Z)
  (found_ids : list string) : M (list MailRecord * list string) :=
  let safe := replace "'" "''" search_text in
  emit (EvRestrict (f_name folder) (dasl_filter safe)) ;;;
  let '(finished, emails, found) :=
    match f_restrict folder (dasl_filter safe) with
    | Some filtered =>
        scan cfg w (f_name folder) mailbox_type max_results filtered 0
             [] found_ids
    | None => (false, [], found_ids)
    end in
  if finished then ret (emails, found)
  else
    emit (EvRestrict (f_name folder) (subject_filter safe)) ;;;
    match f_restrict folder (subject_filter safe) with
    | Some filtered =>
        let '(_, emails2, found2) :=
          scan cfg w (f_name folder) mailbox_type max_results filtered 0
               emails found in
        ret (emails2, found2)
    | None => ret (emails, found)
    end.

(** ** _search_mailbox_comprehensive *)

(** The loop [for folder in folders_to_search]. *)
Fixpoint search_folders (cfg : Config) (w : World)
  (search_text mailbox_type : string) (max_results : Z)
  (folders_to_search : list Folder) (emails : list MailRecord)
  (found_ids : list string) : M (list MailRecord) :=
  match folders_to_search with
  | [] => ret emails
  | folder :: rest =>
      if Z.of_nat (List.length emails) >=? max_results then ret emails
      else
        r <- try_catch
               (_search_folder_restrict cfg w folder search_text mailbox_type
                  (max_results - Z.of_nat (List.length emails)) found_ids)
               (fun _ => ret ([], found_ids)) ;;
        search_folders cfg w search_text mailbox_type max_results rest
                       (emails ++ fst r) (snd r)
  end.

(** The block under [# Sent Items]: returns [folders_to_search] after it. *)
Definition add_sent_items (cfg : Config) (inbox_folder : Inbox)
  (folders_to_search : list Folder) : M (list Folder) :=
  if include_sent_items cfg then
    emit EvParent ;;;
    parent <- lift (ib_parent inbox_folder) ;;
    sent <- _get_folder_by_name parent "Sent Items" ;;
    match sent with
    | Some f => ret (folders_to_search ++ [f])
    | None => ret folders_to_search
    end
  else ret folders_to_search.

Definition _search_mailbox_comprehensive (cfg : Config) (w : World)
  (inbox_folder : Inbox) (search_text mailbox_type : string) (max_results : Z)
  : M (list MailRecord) :=
  folders <- _collect_subfolders_recursive (ib_folder inbox_folder) [] ;;
  folders_to_search <- add_sent_items cfg inbox_folder folders ;;
  search_folders cfg w search_text mailbox_type max_results
                 folders_to_search [] [].

(** ** _shared_mailbox_configured *)

Definition _shared_mailbox_configured (cfg : Config) : bool :=
  let addr := strip (default "" (shared_mailbox_email cfg)) in
  negb (String.eqb addr "") && negb (contains "example.com" addr)
  && negb (contains "your-shared" addr).

(** ** check_access *)

Definition exn_str (e : Exn) : string := exn_msg e.

(** The block under [if not self._shared_recipient_cache:], followed by
    the read of the cache. *)
Definition shared_recipient (w : World) (shared_email : string)
  : M SharedRecipient :=
  s <- get_state ;;
  match _shared_recipient_cache s with
  | Some r => ret r
  | None =>
      emit (EvCreateRecipient shared_email) ;;;
      r <- lift (w_create_recipient w shared_email) ;;
      set_shared_recipient_cache (Some r) ;;; ret r
  end.

(** The probe of the shared mailbox: returns [shared_accessible] and
    [shared_name]. *)
Definition probe_shared (w : World) (shared_email : string)
  : M (bool * option string) :=
  rcp <- shared_recipient w shared_email ;;
  if sr_resolved rcp then
    emit EvGetSharedDefaultFolder ;;;
    shared_inbox <- lift (sr_inbox rcp) ;;
    name <- _get_store_display_name shared_inbox ;;
    ret (true, Some name)
  else ret (false, None).

Definition check_access (cfg : Config) (w : World) : M AccessResult :=
  ok <- _ensure_connected w ;;
  if negb ok then ret (AccessError "Could not connect to Outlook")
  else
    let shared_configured := truthy_str (shared_mailbox_email cfg) in
    personal <- try_catch
      (emit EvGetDefaultFolder ;;;
       personal_inbox <- lift (w_default_folder w) ;;
       name <- _get_store_display_name personal_inbox ;;
       ret (true, Some name, []))
      (fun e => ret (false, None,
                     [("Personal mailbox error: " ++ exn_str e)%string])) ;;
    let '(personal_accessible, personal_name, errors1) := personal in
    shared <-
      (if truthy_str (shared_mailbox_email cfg) then
         try_catch
           (r <- probe_shared w (default "" (shared_mailbox_email cfg)) ;;
            ret (fst r, snd r, errors1))
           (fun e =>
              set_shared_recipient_cache None ;;;
              ret (false, None,
                   errors1 ++ [("Shared mailbox error: " ++ exn_str e)%string]))
       else ret (false, None, errors1)) ;;
    let '(shared_accessible, shared_name, errors2) := shared in
    ret (AccessReport true personal_accessible shared_accessible
           shared_configured
           (personal_retention_months cfg) (shared_retention_months cfg)
           personal_name shared_name errors2).

(** ** search_emails *)

Definition cache_key (search_text : string) (include_personal include_shared : bool)
  (max_results : Z) : string :=
  (search_text ++ "_" ++ str_bool include_personal ++ "_"
   ++ str_bool include_shared ++ "_" ++ str_int max_results)%string.

(** [min(d.keys(), key=lambda k: d[k]['timestamp'])], scanning on from a
    best candidate: the first key with the least timestamp wins. *)
Fixpoint min_key (best : string) (best_ts : Z) (d : list (string * CacheEntry))
  : string :=
  match d with
  | [] => best
  | (k, e) :: r =>
      if timestamp e <? best_ts then min_key k (timestamp e) r
      else min_key best best_ts r
  end.

(** The block under [# Limit cache size]. *)
Definition limit_cache (cache : list (string * CacheEntry))
  : list (string * CacheEntry) :=
  if (100 <? List.length cache)%nat then
    match cache with
    | (k, e) :: r => dict_del (min_key k (timestamp e) r) cache
    | [] => cache
    end
  else cache.

(** [l[:n]] for an int [n] of either sign. *)
Definition slice_to {A} (n : Z) (l : list A) : list A :=
  if 0 <=? n then firstn (Z.to_nat n) l
  else firstn (List.length l - Z.to_nat (- n)) l.

(** The cached entry served for [key], if any. *)
Definition cache_hit (w : World) (key : string) (s : State) : option CacheEntry :=
  match lookup key (_search_cache s) with
  | Some cache_entry =>
      if w_time w - timestamp cache_entry <? 3600 then Some cache_entry
      else None
  | None => None
  end.

(** The block under [# --- Shared mailbox]: returns [all_emails] after it. *)
Definition search_shared (cfg : Config) (w : World) (search_text : string)
  (max_results : Z) (all_emails : list MailRecord) : M (list MailRecord) :=
  try_catch
    (rcp <- shared_recipient w (default "" (shared_mailbox_email cfg)) ;;
     if sr_resolved rcp then
       emit EvGetSharedDefaultFolder ;;;
       shared_inbox <- lift (sr_inbox rcp) ;;
       shared_emails <- _search_mailbox_comprehensive cfg w shared_inbox
                          search_text "shared"
                          (max_results - Z.of_nat (List.length all_emails)) ;;
       ret (all_emails ++ shared_emails)
     else ret all_emails)
    (fun _ => set_shared_recipient_cache None ;;; ret all_emails).

Definition search_emails (cfg : Config) (w : World) (search_text : string)
  (include_personal include_shared : bool) : M (list MailRecord) :=
  ok <- _ensure_connected w ;;
  if negb ok then ret []
  else
    let max_results := max_search_results cfg in
    let key := cache_key search_text include_personal include_shared
                         max_results in
    s <- get_state ;;
    match cache_hit w key s with
    | Some cache_entry => ret (data cache_entry)
    | None =>
        personal_emails <-
          (if include_personal then
             emit EvGetDefaultFolder ;;;
             inbox <- lift (w_default_folder w) ;;
             _search_mailbox_comprehensive cfg w inbox search_text "personal"
                                           max_results
           else ret []) ;;
        all_emails <-
          (if include_shared && _shared_mailbox_configured cfg
           then search_shared cfg w search_text max_results personal_emails
           else ret personal_emails) ;;
        sorted_emails <-
          lift (sorted key_lt
                  (fun x => Ok (get (received_time x) (Some datetime_min)))
                  true all_emails) ;;
        let limited_results := slice_to max_results sorted_emails in
        s1 <- get_state ;;
        set_search_cache
          (limit_cache (dict_set key (mkEntry limited_results (w_time w))
                                 (_search_cache s1))) ;;;
        ret limited_results
    end.

(** ** search_emails_by_subject *)

Definition search_emails_by_subject (cfg : Config) (w : World) (subject : string)
  (include_personal include_shared : bool) : M (list MailRecord) :=
  search_emails cfg w subject include_personal include_shared.

End Client.

(* ================================================================== *)
(** * outlook_mcp.py *)
(* ================================================================== *)

Module Server.
Import Formatter Client.

(** The [arguments] mapping of a tool call, with the keys the tools read
    and the value types of their input schemas. *)
Record Arguments := mkArgs {
  search_text : Field string;
  include_personal : option bool;     (* None: key absent *)
  include_shared : option bool
}.

(** The dicts the tools answer with. *)
Inductive Payload :=
| MailboxStatusPayload (status : MailboxStatus)
| ChainResult (result : ChainPayload)
| ContactsResult (status search_text : string) (emails_scanned : nat)
                 (date_range : DateRange) (contacts : list Participant)
| ToolError (tool error message : string)
| AccessCheckError (message : string) (troubleshooting : list string)
| SearchError (search_text message : string) (troubleshooting : list string)
| ContactsError (search_text message : string).

(** [types.TextContent(type="text", text=str(payload))]; the model keeps
    the dict instead of its rendering. *)
Record TextContent := mkText {
  tc_type : string;
  tc_text : Payload
}.

(** The value under ["status"]. *)
Definition payload_status (p : Payload) : string :=
  match p with
  | MailboxStatusPayload _ => "success"
  | ChainResult (NoEmailsFound _ _) => "no_emails_found"
  | ChainResult (ChainSuccess _ _ _ _) => "success"
  | ContactsResult status _ _ _ _ => status
  | ToolError _ _ _ => "error"
  | AccessCheckError _ _ => "error"
  | SearchError _ _ _ => "error"
  | ContactsError _ _ => "error"
  end.

(** The keys of the dict. *)
Definition payload_keys (p : Payload) : list string :=
  match p with
  | MailboxStatusPayload _ =>
      ["status"; "connection"; "personal_mailbox"; "shared_mailbox";
       "errors"; "notes"]
  | ChainResult (NoEmailsFound _ _) => ["status"; "search_subject"; "message"]
  | ChainResult (ChainSuccess _ _ _ _) =>
      ["status"; "search_subject"; "summary"; "conversations";
       "all_emails_chronological"]
  | ContactsResult _ _ _ _ _ =>
      ["status"; "search_text"; "emails_scanned"; "date_range"; "contacts"]
  | ToolError _ _ _ => ["status"; "tool"; "error"; "message"]
  | AccessCheckError _ _ => ["status"; "message"; "troubleshooting"]
  | SearchError _ _ _ => ["status"; "search_text"; "message"; "troubleshooting"]
  | ContactsError _ _ => ["status"; "search_text"; "message"]
  end.

Definition text (p : Payload) : list TextContent := [mkText "text" p].

Definition handle_check_mailbox_access (cfg : Config) (w : World)
  : M (list TextContent) :=
  try_catch
    (access_result <- check_access cfg w ;;
     ret (text (MailboxStatusPayload (format_mailbox_status cfg access_result))))
    (fun e =>
       ret (text (AccessCheckError
              ("Could not check mailbox access: " ++ exn_str e)%string
              ["Make sure Outlook is running";
               "Grant permission when security dialog appears";
               "Check network connectivity"]))).

Definition handle_get_email_chain (cfg : Config) (w : World)
  (search_text : string) (include_personal include_shared : bool)
  : M (list TextContent) :=
  try_catch
    (emails <- search_emails cfg w search_text include_personal include_shared ;;
     formatted_result <- lift (format_email_chain cfg emails search_text) ;;
     ret (text (ChainResult formatted_result)))
    (fun e =>
       ret (text (SearchError search_text
              ("Could not search emails: " ++ exn_str e)%string
              ["Verify Outlook connection";
               "Use specific search terms for best results";
               "Ensure mailboxes are accessible"]))).

Definition handle_get_email_contacts (cfg : Config) (w : World)
  (search_text : string) (include_personal include_shared : bool)
  : M (list TextContent) :=
  try_catch
    (emails <- search_emails cfg w search_text include_personal include_shared ;;
     participants <- lift (get_participants emails) ;;
     date_range <- lift (get_date_range emails) ;;
     ret (text (ContactsResult
            (match emails with [] => "no_emails_found" | _ => "success" end)
            search_text (List.length emails) date_range
            participants)))
    (fun e =>
       ret (text (ContactsError search_text
              ("Contact search failed: " ++ exn_str e)%string))).

(** [arguments.get("search_text")], refused when falsy. *)
Definition required_search_text (arguments : Arguments) : M string :=
  let v := get (search_text arguments) None in
  if negb (truthy_str v)
  then lift (Raise (mkExn ValueError "search_text parameter is required"))
  else ret (default "" v).

Definition call_tool (cfg : Config) (w : World) (name : string)
  (arguments : Arguments) : M (list TextContent) :=
  try_catch
    (if String.eqb name "check_mailbox_access" then
       handle_check_mailbox_access cfg w
     else if String.eqb name "get_email_chain" then
       st <- required_search_text arguments ;;
       handle_get_email_chain cfg w st
         (default true (include_personal arguments))
         (default true (include_shared arguments))
     else if String.eqb name "get_email_contacts" then
       st <- required_search_text arguments ;;
       handle_get_email_contacts cfg w st
         (default true (include_personal arguments))
         (default true (include_shared arguments))
     else lift (Raise (mkExn ValueError ("Unknown tool: " ++ name)%string)))
    (fun e =>
       ret (text (ToolError name (exn_str e)
              ("Failed to execute " ++ name ++ ": " ++ exn_str e)%string))).

(** ** list_tools: the name of each tool and the required keys of its
    input schema *)

Record Tool := mkTool {
  tool_name : string;
  tool_required : list string
}.

Definition list_tools : list Tool :=
  [mkTool "check_mailbox_access" [];
   mkTool "get_email_chain" ["search_text"];
   mkTool "get_email_contacts" ["search_text"]].

End Server.

(* ================================================================== *)
(** * Predicates the properties are stated with *)
(* ================================================================== *)

Module Props.
Import Formatter Client Server.

(** The dispatcher itself refuses the call: unknown tool, or a search tool
    without a usable search_text. *)
Definition dispatch_refuses (name : string) (arguments : Arguments) : bool :=
  if String.eqb name "check_mailbox_access" then false
  else if String.eqb name "get_email_chain" || String.eqb name "get_email_contacts"
  then negb (truthy_str (get (search_text arguments) None))
  else true.

(** The text starts with none of the reply and forward markers, whatever
    the case of its letters. *)
Definition unmarked (x : string) : bool :=
  forallb (fun p => negb (startswith (lower x) p)) prefixes.

(** The answer of a handler: one text payload, never the dispatcher's. *)
Definition from_handler (l : list TextContent) : Prop :=
  exists p, l = [mkText "text" p] /\
    match p with
    | ToolError _ _ _ => False
    | ContactsResult st _ _ _ _ => st = "success" \/ st = "no_emails_found"
    | _ => True
    end.

(** A record as one mailbox pass produces it: tagged with the pass, with a
    received time and an identity token. *)
Definition from_pass (mt : string) (r : MailRecord) : Prop :=
  mailbox_type r = Val mt /\
  (exists t, received_time r = Val t) /\
  (exists id, entry_id r = Val id).

(** The invariant of the loops of one mailbox pass: the records collected
    so far have pairwise different identity tokens, all of them noted in
    [found_ids]. *)
Definition pass_inv (mt : string) (l : list MailRecord) (found : list string)
  : Prop :=
  NoDup (map entry_id l) /\
  Forall (from_pass mt) l /\
  (forall r id, In r l -> entry_id r = Val id -> In id found).

(** Mailbox scope and identity token of a record. *)
Definition scope_id (r : MailRecord) : Field string * Field string :=
  (mailbox_type r, entry_id r).

Definition has_time (r : MailRecord) : Prop :=
  exists t, received_time r = Val t.

(** The sort key of [search_emails]. *)
Definition received_key (r : MailRecord) : option datetime :=
  get (received_time r) (Some datetime_min).

(** Most recent first: no record is older than a later one. *)
Definition newest_first (l : list MailRecord) : Prop :=
  StronglySorted
    (fun a b => key_lt (received_key a) (received_key b) = Ok false) l.

(** What holds of a list [search_emails] hands out under a result cap. *)
Definition result_ok (max_results : Z) (l : list MailRecord) : Prop :=
  (List.length l <= Z.to_nat max_results)%nat /\
  NoDup (map scope_id l) /\
  newest_first l /\
  Forall has_time l.

(** Every cached list is a result for the cap its key was built with. *)
Definition cache_ok (cache : list (string * CacheEntry)) : Prop :=
  forall k e, In (k, e) cache ->
  forall txt ip ish max_results,
    cache_key txt ip ish max_results = k -> result_ok max_results (data e).

(** A method keeps a property of the client state. *)
Definition preserves {A} (I : State -> Prop) (m : M A) : Prop :=
  forall s s' t r, I s -> m s = (s', t, r) -> I s'.

Definition is_restrict (e : Event) : Prop :=
  match e with
  | EvRestrict _ _ => True
  | _ => False
  end.

(** Accesses that reach for the shared mailbox. *)
Definition is_shared_access (e : Event) : Prop :=
  match e with
  | EvCreateRecipient _ | EvGetSharedDefaultFolder => True
  | _ => False
  end.

(** Two client states that differ at most in the folder-lookup cache. *)
Definition same_but_folder_cache (s s' : State) : Prop :=
  outlook s' = outlook s /\ namespace s' = namespace s /\
  connected s' = connected s /\ _search_cache s' = _search_cache s /\
  _shared_recipient_cache s' = _shared_recipient_cache s /\
  _max_retries s' = _max_retries s.

(** Two client states that differ at most in the folder-lookup cache and
    the cached shared recipient. *)
Definition same_session (s s' : State) : Prop :=
  outlook s' = outlook s /\ namespace s' = namespace s /\
  connected s' = connected s /\ _search_cache s' = _search_cache s /\
  _max_retries s' = _max_retries s.

(** Accesses to folders and stores once an inbox is at hand. *)
Definition is_folder_access (e : Event) : Prop :=
  match e with
  | EvFolders _ | EvParent | EvRootFolders | EvRestrict _ _ => True
  | _ => False
  end.


(** The liveness probe and the connection attempts. *)
Definition is_connection_access (e : Event) : Prop :=
  match e with
  | EvConnect _ | EvCurrentUser => True
  | _ => False
  end.

(** The client states a server can be in: a fresh client, then any
    sequence of searches and access checks, whatever the session answers. *)
Inductive reachable (cfg : Config) : State -> Prop :=
| reach_init : reachable cfg (init cfg)
| reach_search w txt ip ish s s' t r :
    reachable cfg s ->
    search_emails cfg w txt ip ish s = (s', t, r) ->
    reachable cfg s'
| reach_check w s s' t r :
    reachable cfg s ->
    check_access cfg w s = (s', t, r) ->
    reachable cfg s'.

(** *** Participants *)

(** One call of [_touch]: key, name, email, role. *)
Record Touch := mkTouch {
  t_key : string;
  t_name : option string;
  t_email : option string;
  t_role : Role
}.

Definition apply_touch (stats : Stats) (t : Touch) : Stats :=
  _touch stats (t_key t) (t_name t) (t_email t) (t_role t).

(** The calls of [_touch] one recipient entry gives rise to. *)
Definition entry_touches (role : Role) (entry : RecipientEntry)
  : Result (list Touch) :=
  let e := match entry with
           | EntryDict _ em => get em (Some "")
           | EntryStr _ => Some ""
           end in
  let n := match entry with
           | EntryDict nm _ => get nm (Some "")
           | EntryStr s => Some s
           end in
  k <-? lower_key e n ;;
  if negb (String.eqb k "") then Ok [mkTouch k n e role] else Ok [].

(** The calls of [_touch] one record gives rise to, in order. *)
Definition email_touches (email : MailRecord) : Result (list Touch) :=
  let sname := get (sender_name email) (Some "Unknown") in
  let semail := get (sender_email email) (Some "") in
  key <-? lower_key semail sname ;;
  tos <-? iter_entries (to_recipients email) ;;
  tt <-? rmap (entry_touches RTo) tos ;;
  ccs <-? iter_entries (cc_recipients email) ;;
  ct <-? rmap (entry_touches RCc) ccs ;;
  Ok (mkTouch key sname semail RSent :: List.concat tt ++ List.concat ct).

Definition role_eqb (a b : Role) : bool :=
  match a, b with
  | RSent, RSent | RTo, RTo | RCc, RCc => true
  | _, _ => false
  end.

Definition count_of (role : Role) (i : Info) : nat :=
  match role with
  | RSent => i_sent i
  | RTo => i_to i
  | RCc => i_cc i
  end.

(** How often [key] is touched in [role]. *)
Definition occurrences (role : Role) (key : string) (ts : list Touch) : nat :=
  List.length (filter (fun t => String.eqb (t_key t) key
                                && role_eqb (t_role t) role) ts).

(** The key is the lower-cased address, or name when no address is known. *)
Definition key_source (name email : option string) : string :=
  lower (default "" (or_str email name)).

Definition touch_wf (t : Touch) : Prop :=
  exists s, or_str (t_email t) (t_name t) = Some s /\ t_key t = lower s.

(** A participant's key: the normalized address, falling back to the
    normalized display name. *)
Definition participant_key (p : Participant) : string :=
  key_source (p_name p) (p_email p).

(** A participant as the ranking identifies and counts it. *)
Definition profile (p : Participant) : string * (nat * nat * nat) :=
  (participant_key p, (sent p, to_count p, cc_count p)).

Definition entry_profile (x : string * Info) : string * (nat * nat * nat) :=
  (fst x, (i_sent (snd x), i_to (snd x), i_cc (snd x))).

(** The table after the touches [ts]. *)
Definition stats_inv (ts : list Touch) (stats : Stats) : Prop :=
  NoDup (map fst stats) /\
  (forall k i, In (k, i) stats ->
     (forall role, count_of role i = occurrences role k ts) /\
     k = key_source (i_name i) (i_email i) /\
     In k (map t_key ts)) /\
  (forall t, In t ts -> In (t_key t) (map fst stats)).


(** The number of occurrences a profile stands for. *)
Definition profile_total (q : string * (nat * nat * nat)) : nat :=
  match snd q with
  | (s, t, c) => (s + t + c)%nat
  end.

(** *** Predicates of the further properties *)

(** The scope a record is counted under by [get_mailbox_distribution]. *)
Definition counted_as (scope : string) (r : MailRecord) : bool :=
  match get (mailbox_type r) (Some "unknown") with
  | Some m =>
      if String.eqb m "personal" then String.eqb scope "personal"
      else if String.eqb m "shared" then String.eqb scope "shared"
      else String.eqb scope "unknown"
  | None => String.eqb scope "unknown"
  end.

(** The normalised received times of the records that have one. *)
Definition present_times (emails : list MailRecord) : list Z :=
  flat_map (fun r => match get (received_time r) None with
                     | Some dt => [utc_us dt]
                     | None => []
                     end) emails.

(** A recipient entry as the extraction writes it. *)
Definition complete_entry (e : RecipientEntry) : Prop :=
  exists n a, e = EntryDict (Val n) (Val a).

(** A record with the fields the formatter computes with, as the
    extraction writes them. *)
Definition complete (r : MailRecord) : Prop :=
  (exists x, subject r = Val x) /\
  (exists x, sender_name r = Val x) /\
  (exists x, sender_email r = Val x) /\
  (exists l, to_recipients r = Val l /\ Forall complete_entry l) /\
  (exists l, cc_recipients r = Val l /\ Forall complete_entry l) /\
  (exists x, received_time r = Val x) /\
  (exists x, size r = Val x).

(** Every cached record has a property. *)
Definition cache_all (P : MailRecord -> Prop)
  (cache : list (string * CacheEntry)) : Prop :=
  forall k e, In (k, e) cache -> Forall P (data e).

(** A datetime the normalisation to naive UTC accepts: a naive one, or an
    aware one whose UTC instant is within datetime's range. *)
Definition normalisable (dt : datetime) : bool :=
  match dt with
  | Naive _ => true
  | Aware t _ => in_datetime_range t
  end.

(** A record whose received time, if it has one, can be normalised. *)
Definition time_ok (r : MailRecord) : Prop :=
  match get (received_time r) None with
  | Some dt => normalisable dt = true
  | None => True
  end.

(** A record whose size the division by 1024 accepts. *)
Definition size_ok (r : MailRecord) : Prop :=
  match get (size r) (Some 0) with
  | Some n => Z.abs n < float_of_kb_limit
  | None => False
  end.

(** A record of the kind the extraction builds from what Outlook answers:
    the fields are there, the size is an int a float can hold and the
    received time is within reach of UTC. *)
Definition formattable (r : MailRecord) : Prop :=
  complete r /\ time_ok r /\ size_ok r.

(** The key a record is sorted by: its normalised received time, or the
    least or greatest datetime when it has none. *)
Definition time_key (reverse : bool) (r : MailRecord) : Z :=
  match get (received_time r) None with
  | Some dt => utc_us dt
  | None => if negb reverse then 0 else 315537897599999999
  end.

Definition overflow_in_date : Exn :=
  mkExn OverflowError "date value out of range".

(** The microsecond count of a naive datetime. *)
Definition naive_us (dt : datetime) : Z :=
  match dt with
  | Naive t => t
  | Aware t _ => t
  end.

Definition is_naive (dt : datetime) : Prop :=
  match dt with
  | Naive _ => True
  | Aware _ _ => False
  end.

(** Whitespace is a single space between two other characters. *)
Fixpoint single_spaced (after_space : bool) (s : string) : bool :=
  match s with
  | EmptyString => true
  | String c r =>
      if is_space c
      then Ascii.eqb c " " && negb after_space && single_spaced true r
      else single_spaced false r
  end.




(** The record's subject gives the conversation key [k]. *)
Definition key_is (k : string) (r : MailRecord) : bool :=
  match get (subject r) (Some "") with
  | Some s => String.eqb (conv_key s) k
  | None => false
  end.

Definition subject_usable (r : MailRecord) : Prop :=
  get (subject r) (Some "") <> None.

(** The invariant of the loop of [group_by_conversation] after the records
    [pre]. *)
Definition groups_inv (pre : list MailRecord)
  (groups : list (string * list MailRecord)) : Prop :=
  NoDup (map fst groups) /\
  (forall k g, In (k, g) groups -> g <> [] /\ g = filter (key_is k) pre) /\
  (forall r s, In r pre -> get (subject r) (Some "") = Some s ->
     In (conv_key s) (map fst groups)) /\
  List.length (List.concat (map snd groups)) = List.length pre.

(** A formatted record that carries its received time. *)
Definition stamped (f : FormattedEmail) : Prop :=
  exists dt, fe_received_time f = Val (Iso dt) /\ normalisable dt = true.

(** The number of records the conversations of a payload account for. *)
Definition emails_counted (convs : list Conversation) : nat :=
  list_sum (map email_count convs).

(** The trace of [n] connection attempts numbered from [first]. *)
Definition attempts (first : Z) (n : nat) : list Event :=
  map (fun i => EvConnect (first + Z.of_nat i)) (seq 0 n).

(** A method keeps the property [I] of the client state and, when it
    returns, returns a value with the property [Q]. *)
Definition establishes {A} (I : State -> Prop) (m : M A) (Q : A -> Prop)
  : Prop :=
  forall s s' t r, I s -> m s = (s', t, r) ->
    I s' /\ (forall a, r = Ok a -> Q a).

End Props.

(* ================================================================== *)
(** * Concrete inputs used by the examples below *)
(* ================================================================== *)

Module Examples.
Import Formatter Client Server.

(** The settings with their defaults and a given shared mailbox address. *)
Definition config_with (shared : option string) (max_results : Z) : Config :=
  mkConfig shared max_results true true 3 6 12 0 true 50.

Definition placeholder_config : Config :=
  config_with (Some "your-shared-mailbox@example.com") 500.

Definition plain_config : Config := config_with None 500.

(** A mail item with an [EntryID], a subject and possibly a [ReceivedTime]. *)
Definition item (entry_id subject : string) (received : option ComTime) : Item :=
  mkItem (Some entry_id) (Some subject) (Some "Alice")
         (Some "alice@corp.test") SenderAbsent None received (Some 1)
         (Some "body") (Some (mkLong 2048 eq_refl)) (Some 0) (Some false)
         [] 0 false.

(** 2022-10-01T11:06:40 as Outlook stamps it, aware and in UTC. *)
Definition stamp : ComTime := mkComTime true 63800000000000000 eq_refl.

(** A folder without subfolders whose every query answers [items]. *)
Definition leaf (name : string) (items : list (option Item)) : Folder :=
  mkFolder name (fun _ => Some items) (Some []).

Definition store (id : Z) : Store := mkStore id (Some "Mailbox - Alice") None (Some []).

Definition inbox_of (items : list (option Item)) : Inbox :=
  mkInbox (leaf "Inbox" items) (Ok (store 1)).

(** A session that connects at once and answers every call. *)
Definition world_of (personal : list (option Item)) (shared : list (option Item))
  : World :=
  mkWorld 1000 63900000000000000 true (fun _ => true)
          (Ok (inbox_of personal))
          (fun _ => Ok (mkShared true (Ok (inbox_of shared)))).

(** A genuine shared mailbox address. *)
Definition shared_config : Config := config_with (Some "team@corp.test") 500.

Definition zero_config : Config := config_with None 0.

Definition negative_config : Config := config_with None (-1).

Definition order_item : Item :=
  item "A1" "Order" (Some stamp).

(** One item stamped by Outlook (timezone-aware) and one without
    [ReceivedTime]. *)
Definition mixed_world : World :=
  world_of [Some (item "A1" "Order" (Some stamp));
            Some (item "B2" "Re: Order" None)] [].

(** A personal mailbox whose only item has no [ReceivedTime]. *)
Definition unstamped_world : World :=
  world_of [Some (item "B2" "Order" None)] [].

(** The same item reachable through the personal and the shared mailbox. *)
Definition overlap_world : World :=
  world_of [Some (item "A1" "Order" (Some stamp))]
           [Some (item "A1" "Order" (Some stamp))].

(** A session whose default folder cannot be opened. *)
Definition no_inbox_world : World :=
  mkWorld 1000 63900000000000000 true (fun _ => true)
          (Raise (mkExn ComError "The operation failed."))
          (fun _ => Raise (mkExn ComError "The operation failed.")).

Definition with_subject (s : string) : MailRecord :=
  mkMail (Val s) Missing Missing Missing Missing Missing Missing Missing
         Missing Missing Missing Missing Missing Missing Missing.


(** A mail from [sender] to the addresses [to], with [cc] in copy. *)
Definition thread_mail (sender : string) (to cc : list string) : MailRecord :=
  mkMail (Val "Order") (Val sender) (Val sender)
         (Val (map (fun a => EntryDict (Val a) (Val a)) to))
         (Val (map (fun a => EntryDict (Val a) (Val a)) cc))
         Missing Missing Missing Missing Missing Missing Missing Missing
         Missing Missing.

Definition thread : list MailRecord :=
  [thread_mail "ann@corp.test" ["bob@corp.test"] ["cy@corp.test"];
   thread_mail "bob@corp.test" ["ann@corp.test"; "cy@corp.test"] []].



(** A record with every field the extraction writes. *)
Definition extracted (subject sender : string) (received : datetime)
  : MailRecord :=
  mkMail (Val subject) (Val sender) (Val sender) (Val []) (Val []) (Val [])
         (Val received) (Val "Inbox") (Val "personal") (Val 1) (Val "body")
         (Val 2048) (Val 0) (Val false) (Val "A1").

Definition order_thread : list MailRecord :=
  [extracted "Order" "ann@corp.test" (Aware 63800000000000000 0);
   extracted "Re: Order" "bob@corp.test" (Naive 63800000001000000)].

(** The defaults with include_timestamps switched off. *)
Definition no_timestamps_config : Config :=
  mkConfig None 500 true false 3 6 12 0 true 50.

(** The record the extraction builds from [order_item] in the Inbox of the
    personal mailbox. *)
Definition extracted_order : MailRecord :=
  mkMail (Val "Order") (Val "Alice") (Val "alice@corp.test") (Val [])
         (Val []) (Val []) (Val (Aware 63800000000000000 0)) (Val "Inbox")
         (Val "personal") (Val 1) (Val "body") (Val 2048) (Val 0)
         (Val false) (Val "A1").

(** The defaults with at most two recipients shown. *)
Definition two_recipients_config : Config :=
  mkConfig None 500 true true 3 6 12 0 true 2.

(** An item sent to Bob and Dee with Cy, known by an Exchange address, in
    copy. *)
Definition invitation_item : Item :=
  mkItem (Some "C3") (Some "Invitation") (Some "Alice")
         (Some "alice@corp.test") SenderAbsent None (Some stamp) (Some 1)
         (Some "body") (Some (mkLong 2048 eq_refl)) (Some 0) (Some false)
         [Some (mkRecipient (Some "Bob") (Some "bob@corp.test") None (Some 1));
          Some (mkRecipient (Some "Cy") (Some "/o=corp/cn=cy")
                            (Some "cy@corp.test") (Some 2));
          Some (mkRecipient (Some "Dee") (Some "dee@corp.test") None (Some 1))]
         3 false.

(** The record the extraction builds from [invitation_item] when two
    recipients are shown. *)
Definition extracted_invitation : MailRecord :=
  mkMail (Val "Invitation") (Val "Alice") (Val "alice@corp.test")
         (Val [EntryDict (Val "Bob") (Val "bob@corp.test")])
         (Val [EntryDict (Val "Cy") (Val "cy@corp.test")])
         (Val ["Bob"; "Cy"; "... and 1 more"])
         (Val (Aware 63800000000000000 0)) (Val "Inbox")
         (Val "personal") (Val 1) (Val "body") (Val 2048) (Val 0)
         (Val false) (Val "C3").

(** The session of [world_of] read [later] seconds after [w]. *)
Definition later_world (later : Z) (w : World) : World :=
  mkWorld (w_time w + later) (w_now w) (w_probe w) (w_connect w)
          (w_default_folder w) (w_create_recipient w).

(** The client after one search for Order in the personal mailbox. *)
Definition after_order_search : State :=
  fst (fst (search_emails plain_config (world_of [Some order_item] [])
                          "Order" true false (init plain_config))).

(** The client after a hundred searches for different texts, made 4000
    seconds after the clock reading of [world_of]. *)
Definition busy_client : State :=
  fold_left
    (fun s n =>
       fst (fst (search_emails plain_config
                   (later_world 4000
                      (world_of [Some order_item] []))
                   ("q" ++ str_int (Z.of_nat n))%string true false s)))
    (seq 0 100) (init plain_config).

(** A machine on which Outlook cannot be reached. *)
Definition offline_world : World :=
  mkWorld 1000 63900000000000000 false (fun _ => false)
          (Raise (mkExn ComError "The operation failed."))
          (fun _ => Raise (mkExn ComError "The operation failed.")).

End Examples.

(* ================================================================== *)
(** * Properties *)
(* ================================================================== *)

Import Formatter Client Server Props.

(** ** Conversation keys (group_by_conversation) *)

Lemma one_marker_at_a_time x p q :
  In p prefixes -> In q prefixes ->
  startswith x p = true -> startswith x q = true -> p = q.
Proof.
  unfold startswith, prefixes. intros Hp Hq.
  repeat (destruct Hp as [<-|Hp]; [|]); try contradiction;
    repeat (destruct Hq as [<-|Hq]; [|]); try contradiction;
    try reflexivity; intros H1 H2; exfalso;
    repeat (destruct x as [|? x]; [discriminate|];
            cbn [String.prefix] in H1, H2;
            repeat match goal with
                   | H : match ascii_dec ?a ?b with _ => _ end = true |- _ =>
                       destruct (ascii_dec a b); [subst|discriminate H]
                   end;
            try discriminate).
Qed.

Lemma strip_prefix_miss x p :
  startswith (lower x) p = false -> strip_prefix x p = x.
Proof. unfold strip_prefix. intros ->. reflexivity. Qed.

Lemma strip_prefix_hit x p :
  startswith (lower x) p = true ->
  strip_prefix x p = strip (drop (String.length p) x).
Proof. unfold strip_prefix. intros ->. reflexivity. Qed.

Lemma fold_miss l : forall x,
  (forall q, In q l -> startswith (lower x) q = false) ->
  fold_left strip_prefix l x = x.
Proof.
  induction l as [|p r IH]; intros x H; simpl; [reflexivity|].
  rewrite strip_prefix_miss by (apply H; left; reflexivity).
  apply IH. intros q Hq. apply H. right. exact Hq.
Qed.

Lemma fold_hit l1 p l2 x :
  (forall q, In q l1 -> startswith (lower x) q = false) ->
  startswith (lower x) p = true ->
  fold_left strip_prefix (l1 ++ p :: l2) x
  = fold_left strip_prefix l2 (strip (drop (String.length p) x)).
Proof.
  intros Hm Hp. rewrite fold_left_app, (fold_miss l1 x Hm).
  simpl. rewrite strip_prefix_hit by exact Hp. reflexivity.
Qed.

Lemma other_markers_miss x p q :
  In p prefixes -> In q prefixes -> startswith x p = true -> q <> p ->
  startswith x q = false.
Proof.
  intros Hp Hq H Hne. destruct (startswith x q) eqn:E; [|reflexivity].
  exfalso. apply Hne. eapply one_marker_at_a_time; eassumption.
Qed.

Lemma unmarked_miss x :
  unmarked x = true -> forall q, In q prefixes -> startswith (lower x) q = false.
Proof.
  unfold unmarked. rewrite forallb_forall. intros H q Hq.
  apply negb_true_iff, H, Hq.
Qed.

(** The loop from the turn of prefix [k] on, for a text that starts with the
    marker of index [j]. *)
Lemma loop_from k j q y :
  nth_error prefixes j = Some q -> startswith (lower y) q = true ->
  fold_left strip_prefix (skipn k prefixes) y
  = if (k <=? j)%nat
    then fold_left strip_prefix (skipn (S j) prefixes)
           (strip (drop (String.length q) y))
    else y.
Proof.
  intros Hn Hq.
  assert (Hin : In q prefixes) by (eapply nth_error_In; exact Hn).
  assert (Hm : forall r, In r prefixes -> r <> q -> startswith (lower y) r = false)
    by (intros r Hr Hne; apply (other_markers_miss _ q r); assumption).
  destruct (k <=? j)%nat eqn:E.
  - apply Nat.leb_le in E.
    assert (Hs : exists l1, skipn k prefixes = l1 ++ q :: skipn (S j) prefixes /\
                            forall r, In r l1 -> In r prefixes /\ r <> q).
    { exists (firstn (j - k) (skipn k prefixes)). unfold prefixes in *.
      destruct j as [|[|[|[|[|j]]]]]; simpl in Hn;
        try (destruct j; discriminate Hn); injection Hn as <-;
        destruct k as [|[|[|[|[|k]]]]]; try lia;
        (split; [reflexivity|]);
        intros r Hr; simpl in Hr;
        repeat (destruct Hr as [<-|Hr];
                [split; [simpl; tauto|discriminate]|]);
        contradiction. }
    destruct Hs as (l1 & -> & Hl1). apply fold_hit; [|exact Hq].
    intros r Hr. destruct (Hl1 r Hr). apply Hm; assumption.
  - apply Nat.leb_gt in E. apply fold_miss. intros r Hr. apply Hm.
    + rewrite <- (firstn_skipn k prefixes). apply in_or_app. right. exact Hr.
    + intros ->. unfold prefixes in *.
      destruct j as [|[|[|[|[|j]]]]]; simpl in Hn;
        try (destruct j; discriminate Hn); injection Hn as <-;
        destruct k as [|[|[|[|[|[|k]]]]]]; try lia; simpl in Hr;
        repeat (destruct Hr as [Hr|Hr]; [discriminate Hr|]);
        try contradiction;
        rewrite skipn_nil in Hr; contradiction.
Qed.

Lemma loop_hit i p x :
  nth_error prefixes i = Some p -> startswith (lower x) p = true ->
  fold_left strip_prefix prefixes x
  = fold_left strip_prefix (skipn (S i) prefixes)
      (strip (drop (String.length p) x)).
Proof. intros Hn Hp. exact (loop_from 0 i p x Hn Hp). Qed.

Lemma loop_unmarked k x :
  unmarked x = true -> fold_left strip_prefix (skipn k prefixes) x = x.
Proof.
  intros H. apply fold_miss. intros q Hq. apply unmarked_miss; [exact H|].
  rewrite <- (firstn_skipn k prefixes). apply in_or_app. right. exact Hq.
Qed.

(** C5, as stated, fails: the loop over the prefixes has no [break], so
    "Re: Fwd: Order" loses both markers and lands on the key of "Order". *)
Lemma conv_key_strips_nested_prefixes :
  conv_key "Re: Fwd: Order" = "order" /\
  conv_key "Re: Fwd: Order" = conv_key "Order".
Proof. split; reflexivity. Qed.

(** C5 (amended): the loop tries each of the five prefixes once, in the
    fixed order re:, fwd:, fw:, reply:, forward:, on the stripped subject,
    whatever the case of its letters, and the key is what is left, in
    lower case.  A subject that starts with none of the markers keeps its
    text.  One that starts with a marker loses it, with the white space
    around, and only the prefixes later in the order are tried on the
    rest: a second marker that comes later in the order is removed too, a
    second marker of the same kind or of a kind earlier in the order
    stays in the key.  So "Re: Fwd: Order" and "Reply: Forward: Order" go
    to the key of "Order", and a subject with all five markers in order
    loses all five, while "Fwd: Re: Order", "Re: Re: Order" and "Forward:
    Reply: Order" keep one marker; "Order #1", "Re: Order #1" and
    "FW: Order #1" share one key and one group. *)
Theorem conv_key_one_pass_per_prefix :
  (forall s, unmarked (strip s) = true -> conv_key s = lower (strip s)) /\
  (forall s i p,
     nth_error prefixes i = Some p ->
     startswith (lower (strip s)) p = true ->
     let rest := strip (drop (String.length p) (strip s)) in
     conv_key s
     = lower (fold_left strip_prefix (skipn (S i) prefixes) rest) /\
     (unmarked rest = true -> conv_key s = lower rest) /\
     (forall j q,
        nth_error prefixes j = Some q ->
        startswith (lower rest) q = true ->
        ((j <= i)%nat -> conv_key s = lower rest) /\
        ((i < j)%nat ->
         unmarked (strip (drop (String.length q) rest)) = true ->
         conv_key s = lower (strip (drop (String.length q) rest))))) /\
  conv_key "Re: Fwd: Order" = "order" /\
  conv_key "Fwd: Re: Order" = "re: order" /\
  conv_key "Re: Re: Order" = "re: order" /\
  conv_key "Reply: Forward: Order" = "order" /\
  conv_key "Forward: Reply: Order" = "reply: order" /\
  conv_key "RE: Fwd: FW: Reply: Forward: Order" = "order" /\
  conv_key "Order #1" = "order #1" /\
  conv_key "Re: Order #1" = "order #1" /\
  conv_key "FW: Order #1" = "order #1" /\
  group_by_conversation
    [Examples.with_subject "Order #1"; Examples.with_subject "Re: Order #1";
     Examples.with_subject "FW: Order #1"] =
  Ok [("order #1",
       [Examples.with_subject "Order #1"; Examples.with_subject "Re: Order #1";
        Examples.with_subject "FW: Order #1"])].
Proof.
  split; [|split].
  - intros s H. unfold conv_key. rewrite (loop_unmarked 0 _ H : fold_left strip_prefix prefixes _ = _).
    reflexivity.
  - intros s i p Hn Hp rest. unfold conv_key.
    rewrite (loop_hit i p _ Hn Hp). fold rest.
    split; [reflexivity|]. split.
    + intros H. rewrite (loop_unmarked _ _ H). reflexivity.
    + intros j q Hj Hq. rewrite (loop_from (S i) j q rest Hj Hq). split.
      * intros Hle. destruct (S i <=? j)%nat eqn:E; [|reflexivity].
        apply Nat.leb_le in E. lia.
      * intros Hlt H. destruct (S i <=? j)%nat eqn:E;
          [|apply Nat.leb_gt in E; lia].
        rewrite (loop_unmarked _ _ H). reflexivity.
  - repeat split; vm_compute; reflexivity.
Qed.

Lemma conv_key_one_pass_per_prefix_witness :
  conv_key "Forward: Reply: Order" = "reply: order" /\
  conv_key "Reply: Forward: Order" = "order".
Proof.
  split.
  - exact (proj1 (proj2 (proj2 (proj1 (proj2 conv_key_one_pass_per_prefix)
                     "Forward: Reply: Order" 4%nat "forward:" eq_refl eq_refl))
                   3%nat "reply:" eq_refl eq_refl) ltac:(lia)).
  - exact (proj2 (proj2 (proj2 (proj1 (proj2 conv_key_one_pass_per_prefix)
                     "Reply: Forward: Order" 3%nat "reply:" eq_refl eq_refl))
                   4%nat "forward:" eq_refl eq_refl) ltac:(lia) eq_refl).
Defined.

(** ** Totality of the formatter *)

(** C6 fails on the code: for the one-record list [[{}]] (a record with no
    received_time) the sort key of the conversation takes [max] of an empty
    list (or, with timestamps switched off, reads a missing key), so
    [format_email_chain] raises; a [None] subject and a [None] size raise
    in [group_by_conversation] and [format_single_email]. *)
Theorem format_email_chain_raises_on_empty_record :
  (forall cfg search_subject,
     exists e, format_email_chain cfg [empty_record] search_subject = Raise e) /\
  format_email_chain Examples.plain_config [empty_record] "x" =
    Raise (mkExn ValueError "max() arg is an empty sequence") /\
  (exists e, group_by_conversation
               [mkMail PyNone Missing Missing Missing Missing Missing Missing
                       Missing Missing Missing Missing Missing Missing Missing
                       Missing] = Raise e) /\
  (forall cfg, exists e,
     format_single_email cfg
       (mkMail Missing Missing Missing Missing Missing Missing Missing Missing
               Missing Missing Missing PyNone Missing Missing Missing) = Raise e).
Proof.
  repeat split.
  - intros cfg s. destruct cfg as [a b c ts d e f g h i].
    destruct ts; vm_compute; eexists; reflexivity.
  - vm_compute; eexists; reflexivity.
  - intros cfg. vm_compute. eexists; reflexivity.
Qed.

(** ** Ordering of search results *)

(** C3 fails on the code: [search_emails] sorts on the raw received_time,
    without the normalisation [_sort_key_time] applies in the formatter.
    With one item stamped by Outlook (aware) and one item without
    ReceivedTime (naive [datetime.now()] substituted) the sort raises
    TypeError and no list is returned. *)
Theorem search_emails_mixed_timestamps_raises :
  snd (search_emails Examples.plain_config Examples.mixed_world "Order"
         true false (init Examples.plain_config)) =
  Raise (mkExn TypeError
           "can't compare offset-naive and offset-aware datetimes").
Proof. vm_compute. reflexivity. Qed.

(** ** Placeholder shared mailbox *)

(** C4 fails on the code: with the placeholder address
    [_shared_mailbox_configured] is false, yet [check_access] tests the
    raw setting for truthiness, reports shared_configured = True and asks
    the session to resolve the placeholder. *)
Theorem check_access_placeholder_reported_configured :
  _shared_mailbox_configured Examples.placeholder_config = false /\
  exists s' tr r,
    check_access Examples.placeholder_config (Examples.world_of [] [])
                 (init Examples.placeholder_config) = (s', tr, Ok r) /\
    ms_shared_configured (format_mailbox_status Examples.placeholder_config r)
      = true /\
    In (EvCreateRecipient "your-shared-mailbox@example.com") tr.
Proof.
  split; [reflexivity|].
  do 3 eexists. split; [vm_compute; reflexivity|].
  split; [reflexivity|]. simpl. tauto.
Qed.

(** ** The method monad *)

Lemma bind_ok_inv {A B} (m : M A) (k : A -> M B) s s' t b :
  bind m k s = (s', t, Ok b) ->
  exists s1 t1 a t2,
    m s = (s1, t1, Ok a) /\ k a s1 = (s', t2, Ok b) /\ t = t1 ++ t2.
Proof.
  unfold bind. destruct (m s) as [[s1 t1] [a|e]]; [|discriminate].
  destruct (k a s1) as [[s2 t2] r] eqn:Hk. intros H; inversion H; subst.
  exists s1, t1, a, t2. auto.
Qed.

Lemma bind_inv {A B} (m : M A) (k : A -> M B) s s' t r :
  bind m k s = (s', t, r) ->
  (exists e, m s = (s', t, Raise e) /\ r = Raise e) \/
  (exists s1 t1 a t2,
     m s = (s1, t1, Ok a) /\ k a s1 = (s', t2, r) /\ t = t1 ++ t2).
Proof.
  unfold bind. destruct (m s) as [[s1 t1] [a|e]].
  - destruct (k a s1) as [[s2 t2] r2] eqn:Hk. intros H; inversion H; subst.
    right. exists s1, t1, a, t2. auto.
  - intros H; inversion H; subst. left. exists e. auto.
Qed.

Lemma try_catch_ok {A} (P : A -> Prop) (m : M A) (h : Exn -> M A) s :
  (forall s1 t1 a, m s = (s1, t1, Ok a) -> P a) ->
  (forall e s1, exists s2 t2 a, h e s1 = (s2, t2, Ok a) /\ P a) ->
  exists s' t a, try_catch m h s = (s', t, Ok a) /\ P a.
Proof.
  intros Hm Hh. unfold try_catch.
  destruct (m s) as [[s1 t1] [a|e]] eqn:E.
  - exists s1, t1, a. split; [reflexivity|]. eapply Hm; reflexivity.
  - destruct (Hh e s1) as (s2 & t2 & a & Ha & HP). rewrite Ha.
    exists s2, (t1 ++ t2), a. auto.
Qed.

(** ** The tool dispatcher always answers *)

(** C9, as stated, fails: when the default folder cannot be opened the
    search raises inside [handle_get_email_chain], whose own error payload
    has status, search_text, message and troubleshooting but no field with
    the operation name. *)
Lemma handler_error_payload_has_no_tool_name :
  exists s' tr p,
    call_tool Examples.plain_config Examples.no_inbox_world "get_email_chain"
      (mkArgs (Val "Order") None None) (init Examples.plain_config)
    = (s', tr, Ok [mkText "text" p]) /\
    payload_status p = "error" /\
    ~ In "tool" (payload_keys p).
Proof.
  do 3 eexists. split; [vm_compute; reflexivity|].
  split; [reflexivity|]. simpl. intros H.
  repeat (destruct H as [H|H]; [discriminate H|]). exact H.
Qed.

(** The payloads a handler can answer with. *)
Lemma handler_payload_shape (p : Payload) :
  match p with
  | ToolError _ _ _ => False
  | ContactsResult st _ _ _ _ => st = "success" \/ st = "no_emails_found"
  | _ => True
  end ->
  (payload_status p = "error" -> In "message" (payload_keys p)) /\
  (payload_status p = "error" -> ~ In "tool" (payload_keys p)) /\
  In "status" (payload_keys p).
Proof.
  destruct p as [st|r|st x n d c|tool err msg|msg tr|x msg tr|x msg]; simpl; intros H.
  - repeat split; try discriminate; auto.
  - destruct r; simpl; repeat split; try discriminate; auto.
  - destruct H as [H|H]; subst; repeat split; try discriminate; auto.
  - contradiction.
  - repeat split; auto; intros _ K;
      repeat (destruct K as [K|K]; [discriminate K|]); exact K.
  - repeat split; auto; intros _ K;
      repeat (destruct K as [K|K]; [discriminate K|]); exact K.
  - repeat split; auto; intros _ K;
      repeat (destruct K as [K|K]; [discriminate K|]); exact K.
Qed.

Lemma handle_check_mailbox_access_answers cfg w s :
  exists s' t l, handle_check_mailbox_access cfg w s = (s', t, Ok l) /\
                 from_handler l.
Proof.
  unfold handle_check_mailbox_access. apply try_catch_ok.
  - intros s1 t1 a H. apply bind_ok_inv in H.
    destruct H as (s2 & t2 & r & t3 & _ & H & _).
    unfold ret in H. inversion H; subst. eexists; split; [reflexivity|exact I].
  - intros e s1. do 3 eexists. split; [reflexivity|].
    eexists; split; [reflexivity|exact I].
Qed.

Lemma handle_get_email_chain_answers cfg w txt ip ish s :
  exists s' t l, handle_get_email_chain cfg w txt ip ish s = (s', t, Ok l) /\
                 from_handler l.
Proof.
  unfold handle_get_email_chain. apply try_catch_ok.
  - intros s1 t1 a H. apply bind_ok_inv in H.
    destruct H as (s2 & t2 & r & t3 & _ & H & _).
    apply bind_ok_inv in H. destruct H as (s3 & t4 & f & t5 & _ & H & _).
    unfold ret in H. inversion H; subst. eexists; split; [reflexivity|exact I].
  - intros e s1. do 3 eexists. split; [reflexivity|].
    eexists; split; [reflexivity|exact I].
Qed.

Lemma handle_get_email_contacts_answers cfg w txt ip ish s :
  exists s' t l, handle_get_email_contacts cfg w txt ip ish s = (s', t, Ok l) /\
                 from_handler l.
Proof.
  unfold handle_get_email_contacts. apply try_catch_ok.
  - intros s1 t1 a H. apply bind_ok_inv in H.
    destruct H as (s2 & t2 & r & t3 & _ & H & _).
    apply bind_ok_inv in H. destruct H as (s3 & t4 & f & t5 & _ & H & _).
    apply bind_ok_inv in H. destruct H as (s4 & t6 & dr & t7 & _ & H & _).
    unfold ret in H. inversion H; subst. eexists; split; [reflexivity|].
    destruct r; auto.
  - intros e s1. do 3 eexists. split; [reflexivity|].
    eexists; split; [reflexivity|exact I].
Qed.

Lemma try_catch_of_ok {A} (m : M A) h s s' t a :
  m s = (s', t, Ok a) -> try_catch m h s = (s', t, Ok a).
Proof. intros H. unfold try_catch. rewrite H. reflexivity. Qed.

Lemma required_search_text_cases arguments s :
  (truthy_str (get (search_text arguments) None) = false /\
   required_search_text arguments s =
     (s, [], Raise (mkExn ValueError "search_text parameter is required"))) \/
  (truthy_str (get (search_text arguments) None) = true /\
   exists st, required_search_text arguments s = (s, [], Ok st)).
Proof.
  unfold required_search_text.
  destruct (truthy_str (get (search_text arguments) None)); simpl.
  - right. split; [reflexivity|]. eexists; reflexivity.
  - left. split; reflexivity.
Qed.

(** C9 (amended): every call of [call_tool], for every tool name, argument
    mapping, session and client state, returns exactly one text payload
    with a status field and never raises; a payload with status "error"
    carries a message; it carries the operation name exactly when the
    dispatcher itself refuses the call (unknown tool, search_text missing
    or empty), while an error raised inside a handler is answered with
    that handler's own payload, without the operation name. *)
Theorem call_tool_always_answers cfg w name arguments s :
  exists s' tr p,
    call_tool cfg w name arguments s = (s', tr, Ok [mkText "text" p]) /\
    In "status" (payload_keys p) /\
    (payload_status p = "error" -> In "message" (payload_keys p)) /\
    (Props.dispatch_refuses name arguments = true ->
     exists err, p = ToolError name err
                       ("Failed to execute " ++ name ++ ": " ++ err)%string) /\
    (Props.dispatch_refuses name arguments = false ->
     payload_status p = "error" -> ~ In "tool" (payload_keys p)).
Proof.
  assert (Hh : forall l s' t m,
             m s = (s', t, Ok l) -> from_handler l ->
             Props.dispatch_refuses name arguments = false ->
             exists s'' tr p,
               try_catch m
                 (fun e => ret (text (ToolError name (exn_str e)
                    ("Failed to execute " ++ name ++ ": " ++ exn_str e)%string))) s
               = (s'', tr, Ok [mkText "text" p]) /\
               In "status" (payload_keys p) /\
               (payload_status p = "error" -> In "message" (payload_keys p)) /\
               (Props.dispatch_refuses name arguments = true ->
                exists err, p = ToolError name err
                       ("Failed to execute " ++ name ++ ": " ++ err)%string) /\
               (Props.dispatch_refuses name arguments = false ->
                payload_status p = "error" -> ~ In "tool" (payload_keys p))).
  { intros l s' t m Hm (p & -> & Hp) Hd.
    exists s', t, p. split; [apply try_catch_of_ok; exact Hm|].
    destruct (handler_payload_shape p Hp) as (H1 & H2 & H3).
    repeat split; auto. rewrite Hd. discriminate. }
  assert (Hr : forall m e s1 t1,
             m s = (s1, t1, Raise e) ->
             Props.dispatch_refuses name arguments = true ->
             exists s'' tr p,
               try_catch m
                 (fun e => ret (text (ToolError name (exn_str e)
                    ("Failed to execute " ++ name ++ ": " ++ exn_str e)%string))) s
               = (s'', tr, Ok [mkText "text" p]) /\
               In "status" (payload_keys p) /\
               (payload_status p = "error" -> In "message" (payload_keys p)) /\
               (Props.dispatch_refuses name arguments = true ->
                exists err, p = ToolError name err
                       ("Failed to execute " ++ name ++ ": " ++ err)%string) /\
               (Props.dispatch_refuses name arguments = false ->
                payload_status p = "error" -> ~ In "tool" (payload_keys p))).
  { intros m e s1 t1 Hm Hd. unfold try_catch. rewrite Hm. simpl.
    do 3 eexists. split; [reflexivity|]. simpl.
    repeat split; auto.
    - intros _. eexists; reflexivity.
    - rewrite Hd. discriminate. }
  unfold call_tool, Props.dispatch_refuses in *.
  destruct (String.eqb name "check_mailbox_access") eqn:E1.
  { destruct (handle_check_mailbox_access_answers cfg w s) as (s' & t & l & H & Hl).
    eapply Hh; eauto. }
  destruct (String.eqb name "get_email_chain") eqn:E2; simpl in *.
  { destruct (required_search_text_cases arguments s) as [[Hf Hq]|[Ht [st Hq]]].
    - eapply Hr; [|rewrite Hf; reflexivity].
      unfold bind. rewrite Hq. reflexivity.
    - destruct (handle_get_email_chain_answers cfg w st
                  (default true (include_personal arguments))
                  (default true (include_shared arguments)) s)
        as (s' & t & l & H & Hl).
      eapply Hh; [| exact Hl | rewrite Ht; reflexivity].
      unfold bind. rewrite Hq. rewrite H. reflexivity. }
  destruct (String.eqb name "get_email_contacts") eqn:E3; simpl in *.
  { destruct (required_search_text_cases arguments s) as [[Hf Hq]|[Ht [st Hq]]].
    - eapply Hr; [|rewrite Hf; reflexivity].
      unfold bind. rewrite Hq. reflexivity.
    - destruct (handle_get_email_contacts_answers cfg w st
                  (default true (include_personal arguments))
                  (default true (include_shared arguments)) s)
        as (s' & t & l & H & Hl).
      eapply Hh; [| exact Hl | rewrite Ht; reflexivity].
      unfold bind. rewrite Hq. rewrite H. reflexivity. }
  eapply Hr; [|reflexivity]. reflexivity.
Qed.
(** ** One mailbox pass: extraction and the folder loops *)

Lemma extract_fields cfg w item fn mt d :
  _extract_email_data cfg w item fn mt = Some d ->
  entry_id d = Val (default "" (it_entry_id item)) /\
  mailbox_type d = Val mt /\
  received_time d = Val (match it_received_time item with
                         | Some t => com_datetime t
                         | None => Naive (w_now w)
                         end).
Proof.
  unfold _extract_email_data. destruct (it_broken item); [discriminate|].
  destruct (read_recipients _ _ _ _ _ _ _) as [[to cc] all].
  intros H; inversion H; subst; simpl. auto.
Qed.

Lemma mem_true_iff x l : mem x l = true <-> In x l.
Proof.
  unfold mem. rewrite existsb_exists. split.
  - intros (y & Hy & E). apply String.eqb_eq in E. subst. exact Hy.
  - intros H. exists x. split; [exact H|apply String.eqb_refl].
Qed.

Lemma pass_inv_found_mono mt l found extra :
  pass_inv mt l found -> pass_inv mt l (found ++ extra).
Proof.
  intros (H1 & H2 & H3). repeat split; auto.
  intros r id Hr Hid. apply in_or_app. left. eauto.
Qed.

Lemma pass_inv_add mt l found d id :
  pass_inv mt l found ->
  entry_id d = Val id -> from_pass mt d -> ~ In id found ->
  pass_inv mt (l ++ [d]) (found ++ [id]).
Proof.
  intros (H1 & H2 & H3) Hid Hd Hn. repeat split.
  - rewrite map_app. simpl.
    assert (Hnot : ~ In (entry_id d) (map entry_id l)).
    { intros Hin. apply in_map_iff in Hin. destruct Hin as (r & Hr & Hin).
      apply Hn. apply (H3 r id Hin). congruence. }
    clear - H1 Hnot. induction l as [|a l IH]; simpl in *.
    + constructor; [tauto|constructor].
    + inversion H1; subst. constructor.
      * rewrite in_app_iff. simpl. intuition.
      * apply IH; intuition.
  - apply Forall_app. split; [exact H2|]. constructor; [exact Hd|constructor].
  - intros r id' Hr Hid'. apply in_app_or in Hr. apply in_or_app.
    destruct Hr as [Hr|[Hr|[]]].
    + left. eauto.
    + subst r. right. left. congruence.
Qed.

Lemma scan_pass_inv cfg w fn mt max_results filtered :
  forall count emails found acc b emails' found',
    scan cfg w fn mt max_results filtered count emails found
      = (b, emails', found') ->
    pass_inv mt (acc ++ emails) found ->
    pass_inv mt (acc ++ emails') found'.
Proof.
  induction filtered as [|[item|] rest IH]; intros count emails found acc b
    emails' found' Hs HJ; simpl in Hs.
  - inversion Hs; subst; exact HJ.
  - destruct (count >=? max_results); [inversion Hs; subst; exact HJ|].
    destruct (negb (String.eqb (default "" (it_entry_id item)) "")
              && negb (mem (default "" (it_entry_id item)) found)) eqn:E.
    + destruct (_extract_email_data cfg w item fn mt) as [d|] eqn:Ed.
      * apply (IH _ _ _ acc) in Hs; [exact Hs|].
        rewrite app_assoc. apply andb_prop in E. destruct E as [_ E].
        apply negb_true_iff in E.
        destruct (extract_fields _ _ _ _ _ _ Ed) as (F1 & F2 & F3).
        apply pass_inv_add; auto.
        -- repeat split; eauto.
        -- intros Hin. apply mem_true_iff in Hin. congruence.
      * eapply IH; eauto.
    + eapply IH; eauto.
  - inversion Hs; subst; exact HJ.
Qed.

(** [_search_folder_restrict] never raises, leaves the client alone and
    only issues Restrict queries. *)
Lemma search_folder_restrict_spec cfg w folder txt mt max_results found s :
  exists t emails found',
    _search_folder_restrict cfg w folder txt mt max_results found s
      = (s, t, Ok (emails, found')) /\
    Forall is_restrict t /\ t <> [] /\
    (forall acc, pass_inv mt acc found -> pass_inv mt (acc ++ emails) found').
Proof.
  unfold _search_folder_restrict.
  set (safe := replace "'" "''" txt).
  destruct (match f_restrict folder (dasl_filter safe) with
            | Some filtered =>
                scan cfg w (f_name folder) mt max_results filtered 0 [] found
            | None => (false, [], found)
            end) as [[finished emails] found1] eqn:E1.
  assert (H1 : forall acc, pass_inv mt acc found ->
                           pass_inv mt (acc ++ emails) found1).
  { intros acc HJ. destruct (f_restrict folder (dasl_filter safe)).
    - eapply scan_pass_inv; [exact E1|]. rewrite app_nil_r. exact HJ.
    - inversion E1; subst. rewrite app_nil_r. exact HJ. }
  destruct finished.
  - do 3 eexists. split; [unfold bind, emit, ret; simpl; reflexivity|].
    split; [repeat constructor|]. split; [discriminate|exact H1].
  - destruct (f_restrict folder (subject_filter safe)) as [filtered|] eqn:E2.
    + destruct (scan cfg w (f_name folder) mt max_results filtered 0 emails
                     found1) as [[b2 emails2] found2] eqn:E3.
      do 3 eexists. split.
      { unfold bind, emit, ret; simpl. reflexivity. }
      split; [repeat constructor|]. split; [discriminate|].
      intros acc HJ. eapply scan_pass_inv; [exact E3|]. apply H1. exact HJ.
    + do 3 eexists. split.
      { unfold bind, emit, ret; simpl. reflexivity. }
      split; [repeat constructor|]. split; [discriminate|exact H1].
Qed.

Ltac run :=
  repeat (progress (unfold bind, try_catch, ret, emit, emit_all, lift,
                      get_state, set_connection, set_search_cache,
                      set_folder_cache, set_shared_recipient_cache;
                    cbv beta iota zeta)).

Ltac run_in H :=
  repeat (progress (unfold bind, try_catch, ret, emit, emit_all, lift,
                      get_state, set_connection, set_search_cache,
                      set_folder_cache, set_shared_recipient_cache in H;
                    cbv beta iota zeta in H)).

Lemma same_but_folder_cache_refl s : same_but_folder_cache s s.
Proof. repeat split. Qed.

Lemma search_folders_spec cfg w txt mt max_results folders :
  forall emails found s,
    pass_inv mt emails found ->
    exists t l found',
      search_folders cfg w txt mt max_results folders emails found s
        = (s, t, Ok l) /\
      Forall is_restrict t /\
      pass_inv mt l found' /\
      (max_results <= Z.of_nat (List.length emails) -> l = emails /\ t = []).
Proof.
  induction folders as [|folder rest IH]; intros emails found s HJ; simpl.
  - exists [], emails, found. repeat split; auto; apply HJ.
  - destruct (Z.of_nat (List.length emails) >=? max_results) eqn:E.
    + exists [], emails, found. repeat split; auto; apply HJ.
    + destruct (search_folder_restrict_spec cfg w folder txt mt
                  (max_results - Z.of_nat (List.length emails)) found s)
        as (t1 & fe & found1 & H1 & T1 & _ & J1).
      destruct (IH (emails ++ fe) found1 s (J1 _ HJ))
        as (t2 & l & found2 & H2 & T2 & J2 & _).
      exists (t1 ++ t2), l, found2. split.
      { unfold bind, try_catch. rewrite H1. simpl. rewrite H2. reflexivity. }
      split; [apply Forall_app; auto|]. split; [exact J2|].
      intros Hle. rewrite Z.geb_leb in E. apply Z.leb_gt in E. lia.
Qed.

Lemma get_folder_by_name_spec parent name s :
  exists s' t r,
    _get_folder_by_name parent name s = (s', t, Ok r) /\
    same_but_folder_cache s s' /\ Forall is_folder_access t /\
    Forall (fun e => ~ is_restrict e) t.
Proof.
  unfold _get_folder_by_name. run.
  destruct (lookup _ (_folder_cache s)).
  - do 3 eexists. split; [reflexivity|].
    split; [apply same_but_folder_cache_refl|]. split; constructor.
  - destruct (st_folders parent) as [folders|]; simpl.
    + destruct (find _ folders); simpl.
      * do 3 eexists. split; [reflexivity|].
        split; [repeat split|]. split; repeat constructor. simpl; tauto.
      * do 3 eexists. split; [reflexivity|].
        split; [repeat split|]. split; repeat constructor. simpl; tauto.
    + do 3 eexists. split; [reflexivity|].
      split; [repeat split|]. split; repeat constructor. simpl; tauto.
Qed.

Lemma Forall_folder_reads (P : Event -> Prop) :
  (forall n, P (EvFolders n)) -> forall folder, Forall P (folder_reads folder).
Proof.
  intros H. fix IH 1. intros [n r subs]. cbn [folder_reads].
  constructor; [apply H|].
  destruct subs as [items|]; [|constructor].
  induction items as [|[sub|] rest IHl]; [constructor| |].
  - constructor; [apply H|]. apply Forall_app. split; [apply IH|exact IHl].
  - repeat constructor. apply H.
Qed.

Lemma add_sent_items_spec cfg inbox folders s s' t r :
  add_sent_items cfg inbox folders s = (s', t, r) ->
  same_but_folder_cache s s' /\ Forall is_folder_access t /\
  Forall (fun e => ~ is_restrict e) t.
Proof.
  unfold add_sent_items. destruct (include_sent_items cfg).
  - destruct (ib_parent inbox) as [parent|e] eqn:Ep.
    + destruct (get_folder_by_name_spec parent "Sent Items" s)
        as (s0 & t0 & sent & H0 & S0 & T0 & N0).
      run. rewrite H0. destruct sent; run; intros H; inversion H; subst;
        (split; [exact S0|]; split; [constructor; [exact I|]|constructor; [simpl; tauto|]];
         rewrite app_nil_r; assumption).
    + run. intros H; inversion H; subst.
      split; [apply same_but_folder_cache_refl|].
      split; repeat constructor. simpl; tauto.
  - run. intros H; inversion H; subst.
    split; [apply same_but_folder_cache_refl|]. split; constructor.
Qed.

(** One mailbox pass: the client is left alone but for the folder-lookup
    cache; only folders and stores are accessed; a returned list has
    pairwise different identity tokens and is tagged with the pass; with a
    cap of 0 or less nothing is queried and nothing is collected. *)
Lemma search_mailbox_comprehensive_spec cfg w inbox txt mt max_results s s' t r :
  _search_mailbox_comprehensive cfg w inbox txt mt max_results s = (s', t, r) ->
  same_but_folder_cache s s' /\
  Forall is_folder_access t /\
  (max_results <= 0 -> Forall (fun e => ~ is_restrict e) t) /\
  (forall l, r = Ok l ->
     (exists found, pass_inv mt l found) /\ (max_results <= 0 -> l = [])).
Proof.
  unfold _search_mailbox_comprehensive. intros H.
  assert (J0 : pass_inv mt [] []).
  { repeat split; [constructor|constructor|intros r0 id []]. }
  apply bind_inv in H.
  destruct H as [(e & H & ->)|(s1 & t1 & folders & t2 & H1 & H & ->)];
    [unfold _collect_subfolders_recursive in H; run_in H; discriminate H|].
  unfold _collect_subfolders_recursive in H1. run_in H1.
  inversion H1; subst s1 t1 folders; clear H1.
  assert (Hev : Forall is_folder_access
                  (folder_reads (ib_folder inbox) ++ []) /\
                Forall (fun e => ~ is_restrict e)
                  (folder_reads (ib_folder inbox) ++ [])).
  { rewrite app_nil_r. split; apply Forall_folder_reads; simpl; tauto. }
  destruct Hev as [Hev1 Hev2].
  apply bind_inv in H.
  destruct H as [(e & H & ->)|(s2 & t3 & fts & t4 & H2 & H & ->)].
  - apply add_sent_items_spec in H. destruct H as (A & B & C).
    split; [exact A|]. split; [apply Forall_app; auto|].
    split; [intros _; apply Forall_app; auto|]. intros l E; discriminate.
  - apply add_sent_items_spec in H2. destruct H2 as (A & B & C).
    destruct (search_folders_spec cfg w txt mt max_results fts [] [] s2 J0)
      as (t5 & l & found' & H5 & T5 & J5 & Z5).
    rewrite H5 in H. inversion H; subst; clear H.
    split; [exact A|]. split.
    { apply Forall_app; split; [exact Hev1|]. apply Forall_app; split; [exact B|].
      eapply Forall_impl; [|exact T5]. intros [] K; simpl in *; tauto. }
    split.
    { intros Hle. destruct (Z5 Hle) as [_ ->]. rewrite !app_nil_r in *.
      apply Forall_app; split; [exact Hev2|exact C]. }
    intros l0 E. inversion E; subst. split; [eauto|]. intros Hle. apply Z5, Hle.
Qed.

(** ** Sorting returns a permutation *)

Section SortFacts.
Context {A K : Type}.
Variable lt : K -> K -> Result bool.

Lemma insert_asc_perm (x : A * K) l l' :
  insert_asc lt x l = Ok l' -> Permutation (x :: l) l'.
Proof.
  revert l'. induction l as [|y r IH]; intros l' H; simpl in H.
  - inversion H; subst. apply Permutation_refl.
  - destruct (lt (snd y) (snd x)) as [[|]|e]; simpl in H; try discriminate.
    + destruct (insert_asc lt x r) as [r'|e]; simpl in H; [|discriminate].
      inversion H; subst. eapply perm_trans; [apply perm_swap|].
      apply perm_skip. apply IH. reflexivity.
    + inversion H; subst. apply Permutation_refl.
Qed.

Lemma insert_desc_perm (x : A * K) l l' :
  insert_desc lt x l = Ok l' -> Permutation (x :: l) l'.
Proof.
  revert l'. induction l as [|y r IH]; intros l' H; simpl in H.
  - inversion H; subst. apply Permutation_refl.
  - destruct (lt (snd x) (snd y)) as [[|]|e]; simpl in H; try discriminate.
    + destruct (insert_desc lt x r) as [r'|e]; simpl in H; [|discriminate].
      inversion H; subst. eapply perm_trans; [apply perm_swap|].
      apply perm_skip. apply IH. reflexivity.
    + inversion H; subst. apply Permutation_refl.
Qed.

Lemma sort_keyed_perm reverse (l l' : list (A * K)) :
  sort_keyed lt reverse l = Ok l' -> Permutation l l'.
Proof.
  revert l'. induction l as [|x r IH]; intros l' H; simpl in H.
  - inversion H; subst. constructor.
  - destruct (sort_keyed lt reverse r) as [r'|e]; simpl in H; [|discriminate].
    eapply perm_trans; [apply perm_skip, IH; reflexivity|].
    destruct reverse; [eapply insert_desc_perm|eapply insert_asc_perm]; exact H.
Qed.

Lemma rmap_keyed_fst (key : A -> Result K) l keyed :
  rmap (fun a => k <-? key a ;; Ok (a, k)) l = Ok keyed ->
  map fst keyed = l /\ Forall (fun ak => key (fst ak) = Ok (snd ak)) keyed.
Proof.
  revert keyed. induction l as [|a r IH]; intros keyed H; simpl in H.
  - inversion H; subst. split; constructor.
  - destruct (key a) as [k|e] eqn:Ek; simpl in H; [|discriminate].
    destruct (rmap _ r) as [ys|e]; simpl in H; [|discriminate].
    inversion H; subst. destruct (IH ys eq_refl) as [E F]. simpl.
    split; [congruence|]. constructor; [exact Ek|exact F].
Qed.

Lemma sorted_perm (key : A -> Result K) reverse l l' :
  sorted lt key reverse l = Ok l' -> Permutation l l'.
Proof.
  unfold sorted. intros H.
  destruct (rmap _ l) as [keyed|e] eqn:Ek; simpl in H; [|discriminate].
  destruct (sort_keyed lt reverse keyed) as [s|e] eqn:Es; simpl in H;
    [|discriminate].
  inversion H; subst. apply rmap_keyed_fst in Ek. destruct Ek as [<- _].
  apply Permutation_map. eapply sort_keyed_perm; exact Es.
Qed.

Hypothesis lt_asym : forall x y, lt x y = Ok true -> lt y x = Ok false.
Hypothesis lt_trans_false :
  forall x y z, lt x y = Ok false -> lt y z = Ok false -> lt x z = Ok false.

Lemma insert_desc_sorted (x : A * K) l l' :
  insert_desc lt x l = Ok l' ->
  StronglySorted (fun a b => lt (snd a) (snd b) = Ok false) l ->
  StronglySorted (fun a b => lt (snd a) (snd b) = Ok false) l'.
Proof.
  revert l'. induction l as [|y r IH]; intros l' H Hs; simpl in H.
  - inversion H; subst. repeat constructor.
  - inversion Hs as [|a b Hsr Hall]; subst.
    destruct (lt (snd x) (snd y)) as [[|]|e] eqn:E; simpl in H;
      try discriminate.
    + destruct (insert_desc lt x r) as [r'|e] eqn:Er; simpl in H;
        [|discriminate].
      inversion H; subst. constructor; [apply IH; auto|].
      eapply Permutation_Forall; [eapply insert_desc_perm; exact Er|].
      constructor; [apply lt_asym; exact E|exact Hall].
    + inversion H; subst. constructor; [exact Hs|].
      constructor; [exact E|].
      eapply Forall_impl; [|exact Hall]. intros z Hz.
      eapply lt_trans_false; eassumption.
Qed.

Lemma sort_keyed_desc_sorted (l l' : list (A * K)) :
  sort_keyed lt true l = Ok l' ->
  StronglySorted (fun a b => lt (snd a) (snd b) = Ok false) l'.
Proof.
  revert l'. induction l as [|x r IH]; intros l' H; simpl in H.
  - inversion H; subst. constructor.
  - destruct (sort_keyed lt true r) as [r'|e]; simpl in H; [|discriminate].
    eapply insert_desc_sorted; [exact H|]. apply IH. reflexivity.
Qed.

Lemma sorted_desc_sorted (f : A -> K) l l' :
  sorted lt (fun x => Ok (f x)) true l = Ok l' ->
  StronglySorted (fun a b => lt (f a) (f b) = Ok false) l'.
Proof.
  unfold sorted. intros H.
  destruct (rmap _ l) as [keyed|e] eqn:Ek; simpl in H; [|discriminate].
  destruct (sort_keyed lt true keyed) as [s|e] eqn:Es; simpl in H;
    [|discriminate].
  inversion H; subst. apply rmap_keyed_fst in Ek. destruct Ek as [_ Hk].
  pose proof (sort_keyed_desc_sorted _ _ Es) as Hss.
  assert (Hf : Forall (fun ak => Ok (f (fst ak)) = Ok (snd ak)) s).
  { eapply Permutation_Forall; [eapply sort_keyed_perm; exact Es|exact Hk]. }
  clear - Hss Hf. induction Hss as [|a r Hr IH Hall]; simpl; [constructor|].
  inversion Hf as [|x xs Ha Hrest]; subst. constructor; [auto|].
  rewrite Forall_forall in *. intros b Hb. apply in_map_iff in Hb.
  destruct Hb as (y & <- & Hy). specialize (Hrest y Hy).
  inversion Ha as [Ea]. inversion Hrest as [Ey]. rewrite Ea, Ey.
  apply Hall, Hy.
Qed.

End SortFacts.

Lemma key_lt_asym x y : key_lt x y = Ok true -> key_lt y x = Ok false.
Proof.
  destruct x as [[a|a oa]|], y as [[b|b ob]|]; simpl; try discriminate;
    intros H; injection H as E; apply Z.ltb_lt in E; f_equal;
    apply Z.ltb_ge; lia.
Qed.

Lemma key_lt_trans_false x y z :
  key_lt x y = Ok false -> key_lt y z = Ok false -> key_lt x z = Ok false.
Proof.
  destruct x as [[a|a oa]|], y as [[b|b ob]|], z as [[c|c oc]|]; simpl;
    try discriminate; intros H1 H2; injection H1 as E1;
    injection H2 as E2; apply Z.ltb_ge in E1; apply Z.ltb_ge in E2;
    f_equal; apply Z.ltb_ge; lia.
Qed.


(** ** Slicing *)

Lemma slice_to_length {A} (n : Z) (l : list A) :
  0 <= n -> (List.length (slice_to n l) <= Z.to_nat n)%nat.
Proof.
  intros H. unfold slice_to. apply Z.leb_le in H. rewrite H.
  rewrite length_firstn. lia.
Qed.

Lemma slice_to_nil {A} (n : Z) : slice_to n (@nil A) = [].
Proof. unfold slice_to. destruct (0 <=? n); apply firstn_nil. Qed.

Lemma slice_to_firstn {A} (n : Z) (l : list A) :
  exists k, slice_to n l = firstn k l.
Proof. unfold slice_to. destruct (0 <=? n); eexists; reflexivity. Qed.

Lemma NoDup_firstn {A} k (l : list A) : NoDup l -> NoDup (firstn k l).
Proof.
  intros H. rewrite <- (firstn_skipn k l) in H.
  apply NoDup_app_remove_r in H. exact H.
Qed.

Lemma Forall_firstn' {A} (P : A -> Prop) k (l : list A) :
  Forall P l -> Forall P (firstn k l).
Proof.
  intros H. rewrite <- (firstn_skipn k l) in H.
  apply Forall_app in H. apply H.
Qed.

Lemma StronglySorted_firstn {A} (R : A -> A -> Prop) k (l : list A) :
  StronglySorted R l -> StronglySorted R (firstn k l).
Proof.
  intros H. revert k. induction H as [|a r Hr IH Ha]; intros [|k]; simpl;
    try constructor; auto.
  apply Forall_firstn'. exact Ha.
Qed.

(** ** The cache key determines the result cap *)

Lemma str_int_inj n m : str_int n = str_int m -> n = m.
Proof.
  unfold str_int. intros H.
  assert (Hn : forall z, NilZero.int_of_string
                           (NilZero.string_of_int (Z.to_int z))
                         = Some (Z.to_int z)).
  { intros z. apply NilZero.isi; destruct z; simpl; try discriminate;
      intros E; inversion E as [E']; revert E'; apply DecimalPos.Unsigned.to_uint_nonnil. }
  pose proof (Hn n) as H1. rewrite H, Hn in H1. inversion H1 as [E].
  apply DecimalZ.to_int_inj. symmetry. exact E.
Qed.

Lemma uint_no_underscore d :
  has_char "_" (NilEmpty.string_of_uint d) = false.
Proof. induction d; simpl; auto. Qed.

Lemma str_int_no_underscore n : has_char "_" (str_int n) = false.
Proof.
  unfold str_int. destruct (Z.to_int n) as [d|d]; simpl;
    destruct d; simpl; auto using uint_no_underscore.
Qed.

Lemma has_char_append c a b :
  has_char c (a ++ String c b)%string = true.
Proof.
  induction a as [|c' r IH]; simpl.
  - rewrite Ascii.eqb_refl. reflexivity.
  - rewrite IH. apply orb_true_r.
Qed.

Lemma last_segment_inj a a' t t' :
  has_char "_" t = false -> has_char "_" t' = false ->
  (a ++ String "_" t)%string = (a' ++ String "_" t')%string -> t = t'.
Proof.
  intros Ht Ht'. revert a'. induction a as [|c r IH]; intros [|c' r'] H;
    simpl in H.
  - inversion H; reflexivity.
  - inversion H as [[Hc E]]. subst t.
    rewrite has_char_append in Ht. discriminate.
  - inversion H as [[Hc E]]. subst t'.
    rewrite has_char_append in Ht'. discriminate.
  - inversion H. eapply IH; eassumption.
Qed.

Lemma append_assoc (a b c : string) :
  ((a ++ b) ++ c = a ++ (b ++ c))%string.
Proof. induction a; simpl; congruence. Qed.

Lemma cache_key_max_inj txt ip ish m txt' ip' ish' m' :
  cache_key txt ip ish m = cache_key txt' ip' ish' m' -> m = m'.
Proof.
  unfold cache_key. intros H.
  apply str_int_inj.
  apply (last_segment_inj
           (txt ++ "_" ++ str_bool ip ++ "_" ++ str_bool ish)
           (txt' ++ "_" ++ str_bool ip' ++ "_" ++ str_bool ish'));
    try apply str_int_no_underscore.
  repeat rewrite append_assoc. exact H.
Qed.

(** ** Dict operations on the search cache *)

Lemma lookup_In {V} k (d : list (string * V)) v :
  lookup k d = Some v -> In (k, v) d.
Proof.
  induction d as [|[k' v'] r IH]; simpl; [discriminate|].
  destruct (String.eqb k k') eqn:E.
  - intros H; inversion H; subst. apply String.eqb_eq in E. subst. auto.
  - auto.
Qed.

Lemma dict_set_In {V} k0 (v : V) d k e :
  In (k, e) (dict_set k0 v d) -> (k = k0 /\ e = v) \/ In (k, e) d.
Proof.
  induction d as [|[k' v'] r IH]; simpl.
  - intros [H|[]]; inversion H; auto.
  - destruct (String.eqb k0 k') eqn:E; simpl.
    + apply String.eqb_eq in E. subst.
      intros [H|H]; [inversion H; auto|auto].
    + intros [H|H]; [auto|]. destruct (IH H); auto.
Qed.

Lemma dict_del_In {V} k0 (d : list (string * V)) k e :
  In (k, e) (dict_del k0 d) -> In (k, e) d.
Proof.
  induction d as [|[k' v'] r IH]; simpl; [tauto|].
  destruct (String.eqb k0 k'); simpl; intuition.
Qed.

Lemma limit_cache_In cache k e :
  In (k, e) (limit_cache cache) -> In (k, e) cache.
Proof.
  unfold limit_cache. destruct (100 <? List.length cache)%nat; [|tauto].
  destruct cache as [|[k0 e0] r]; [tauto|]. apply dict_del_In.
Qed.

Lemma lookup_dict_set {V} k (v : V) d : lookup k (dict_set k v d) = Some v.
Proof.
  induction d as [|[k' v'] r IH]; simpl.
  - rewrite String.eqb_refl. reflexivity.
  - destruct (String.eqb k k') eqn:E; simpl; rewrite E; auto.
Qed.


Lemma cache_ok_nil : cache_ok [].
Proof. intros k e []. Qed.

Lemma cache_ok_store cache txt ip ish max_results l now :
  cache_ok cache -> result_ok max_results l ->
  cache_ok (limit_cache (dict_set (cache_key txt ip ish max_results)
                                  (mkEntry l now) cache)).
Proof.
  intros Hc Hl k e Hin txt' ip' ish' m' Hk.
  apply limit_cache_In in Hin. apply dict_set_In in Hin.
  destruct Hin as [[-> ->]|Hin].
  - apply cache_key_max_inj in Hk. subst m'. exact Hl.
  - eapply Hc; eauto.
Qed.

(** ** Connecting *)

Lemma connect_from_spec w n :
  forall a s, exists s' t b,
    connect_from w n a s = (s', t, Ok b) /\
    (exists rest, t = EvConnect a :: rest) /\
    Forall is_connection_access t /\
    _search_cache s' = _search_cache s /\
    _folder_cache s' = _folder_cache s /\
    _shared_recipient_cache s' = _shared_recipient_cache s /\
    _max_retries s' = _max_retries s /\
    connected s' = b /\ namespace s' = b.
Proof.
  induction n as [|n IH]; intros a s; simpl.
  - run. destruct (w_connect w a); run;
      do 3 eexists; (split; [reflexivity|]); simpl;
      (split; [eexists; reflexivity|]); (split; [repeat constructor|]);
      repeat split.
  - run. destruct (w_connect w a); run.
    + do 3 eexists; (split; [reflexivity|]); simpl;
      (split; [eexists; reflexivity|]); (split; [repeat constructor|]);
      repeat split.
    + match goal with
      | |- context [connect_from w n ?a' ?s0] =>
          destruct (IH a' s0) as (s' & t & b & H & (rest & Ht) & F & C1 & C2 & C3 & C4 & C5 & C6)
      end.
      rewrite H. exists s', (EvConnect a :: t), b.
      split; [reflexivity|]. split; [eexists; reflexivity|].
      split; [constructor; [exact I|exact F]|]. simpl in *. auto 10.
Qed.

(** [_ensure_connected] never raises and always reaches for the session:
    a live client is only probed and left as it is; otherwise the caches
    are dropped and a connection is attempted. *)
Lemma ensure_connected_spec w s :
  exists s' t ok,
    _ensure_connected w s = (s', t, Ok ok) /\
    (exists e rest, t = e :: rest /\ is_connection_access e) /\
    Forall is_connection_access t /\
    (_search_cache s' = _search_cache s \/ _search_cache s' = []) /\
    connected s' = ok /\ namespace s' = ok /\
    (connected s = true -> namespace s = true -> w_probe w = true ->
     s' = s /\ t = [EvCurrentUser] /\ ok = true).
Proof.
  unfold _ensure_connected, _is_connection_alive, connect. run.
  destruct (connected s) eqn:Ec; destruct (namespace s) eqn:En; simpl;
    try destruct (w_probe w) eqn:Ep; run;
    try (match goal with
         | |- context [connect_from w ?n ?a ?s0] =>
             destruct (connect_from_spec w n a s0)
               as (s' & t & b & H & (rest & Ht) & F & C1 & C2 & C3 & C4 & C5 & C6)
         end; rewrite H; simpl in *;
         do 3 eexists; (split; [reflexivity|]);
         split; [first [ (simpl; do 2 eexists; split; [reflexivity|exact I])
                        | (subst t; simpl; do 2 eexists; split; [reflexivity|exact I]) ]|];
         split; [repeat (constructor; try exact I); try exact F|];
         split; [right; exact C1|];
         split; [exact C5|]; split; [exact C6|];
         intros; discriminate).
  do 3 eexists. split; [reflexivity|].
  split; [do 2 eexists; split; [reflexivity|exact I]|].
  split; [repeat constructor|]. split; [left; reflexivity|].
  split; [exact Ec|]. split; [exact En|]. intros _ _ _.
  split; [reflexivity|]. split; reflexivity.
Qed.

Lemma try_catch_inv {A} (m : M A) h s s' t r :
  try_catch m h s = (s', t, r) ->
  (exists a, m s = (s', t, Ok a) /\ r = Ok a) \/
  (exists s1 t1 e t2,
     m s = (s1, t1, Raise e) /\ h e s1 = (s', t2, r) /\ t = t1 ++ t2).
Proof.
  unfold try_catch. destruct (m s) as [[s1 t1] [a|e]].
  - intros H; inversion H; subst. left. eauto.
  - destruct (h e s1) as [[s2 t2] r2] eqn:Hh. intros H; inversion H; subst.
    right. exists s1, t1, e, t2. auto.
Qed.

Lemma same_session_refl s : same_session s s.
Proof. repeat split. Qed.

Lemma same_session_trans s1 s2 s3 :
  same_session s1 s2 -> same_session s2 s3 -> same_session s1 s3.
Proof. unfold same_session. intuition congruence. Qed.

Lemma same_but_folder_cache_session s s' :
  same_but_folder_cache s s' -> same_session s s'.
Proof. unfold same_but_folder_cache, same_session. intuition. Qed.

Lemma pass_inv_nil mt : pass_inv mt [] [].
Proof. repeat split; [constructor|constructor|intros r id []]. Qed.

(** ** The shared mailbox pass *)

Lemma shared_recipient_spec w addr s s' t r :
  shared_recipient w addr s = (s', t, r) ->
  same_session s s' /\ Forall is_shared_access t /\
  Forall (fun e => ~ is_restrict e) t.
Proof.
  unfold shared_recipient. run. destruct (_shared_recipient_cache s).
  - intros H; inversion H; subst. split; [apply same_session_refl|].
    split; constructor.
  - destruct (w_create_recipient w addr); run; intros H; inversion H; subst;
      (split; [repeat split|]); split; repeat constructor; simpl; tauto.
Qed.

Lemma search_shared_spec cfg w txt max_results all s s' t r :
  search_shared cfg w txt max_results all s = (s', t, r) ->
  same_session s s' /\
  Forall (fun e => is_folder_access e \/ is_shared_access e) t /\
  (max_results - Z.of_nat (List.length all) <= 0 ->
   Forall (fun e => ~ is_restrict e) t) /\
  exists sh, r = Ok (all ++ sh) /\
    (exists found, pass_inv "shared" sh found) /\
    (max_results - Z.of_nat (List.length all) <= 0 -> sh = []).
Proof.
  unfold search_shared. intros H.
  assert (Hbody : forall s1 t1 r1,
    (rcp <- shared_recipient w (default "" (shared_mailbox_email cfg)) ;;
     if sr_resolved rcp then
       emit EvGetSharedDefaultFolder ;;;
       shared_inbox <- lift (sr_inbox rcp) ;;
       shared_emails <- _search_mailbox_comprehensive cfg w shared_inbox
                          txt "shared"
                          (max_results - Z.of_nat (List.length all)) ;;
       ret (all ++ shared_emails)
     else ret all) s = (s1, t1, r1) ->
    same_session s s1 /\
    Forall (fun e => is_folder_access e \/ is_shared_access e) t1 /\
    (max_results - Z.of_nat (List.length all) <= 0 ->
     Forall (fun e => ~ is_restrict e) t1) /\
    forall l, r1 = Ok l ->
      exists sh, l = all ++ sh /\
        (exists found, pass_inv "shared" sh found) /\
        (max_results - Z.of_nat (List.length all) <= 0 -> sh = [])).
  { intros s1 t1 r1 Hb. apply bind_inv in Hb.
    destruct Hb as [(e & Hb & ->)|(s2 & t2 & rcp & t3 & Hq2 & Hb & ->)].
    - apply shared_recipient_spec in Hb. destruct Hb as (A & B & C).
      split; [exact A|]. split; [eapply Forall_impl; [|exact B]; tauto|].
      split; [intros _; exact C|]. intros l E; discriminate.
    - apply shared_recipient_spec in Hq2. destruct Hq2 as (A & B & C).
      assert (B' : Forall (fun e => is_folder_access e \/ is_shared_access e) t2)
        by (eapply Forall_impl; [|exact B]; tauto).
      destruct (sr_resolved rcp).
      + apply bind_inv in Hb.
        destruct Hb as [(e & Hb & ->)|(s3 & t4 & u & t5 & Hq3 & Hb & ->)];
          [run_in Hb; discriminate Hb|].
        run_in Hq3. inversion Hq3; subst s3 t4; clear Hq3.
        apply bind_inv in Hb.
        destruct Hb as [(e & Hb & ->)|(s4 & t6 & inbox & t7 & Hq4 & Hb & ->)].
        * unfold lift in Hb. inversion Hb; subst.
          split; [exact A|].
          split; [apply Forall_app; split; [exact B'|repeat constructor; simpl; tauto]|].
          split; [intros _; apply Forall_app; split;
                  [exact C|repeat constructor; simpl; tauto]|].
          intros l E; discriminate.
        * unfold lift in Hq4. inversion Hq4; subst s4 t6; clear Hq4.
          apply bind_inv in Hb.
          destruct Hb as [(e & Hb & ->)|(s5 & t8 & sh & t9 & Hq5 & Hb & ->)].
          -- apply search_mailbox_comprehensive_spec in Hb.
             destruct Hb as (A2 & B2 & C2 & D2).
             split; [eapply same_session_trans;
                     [exact A|apply same_but_folder_cache_session, A2]|].
             split.
             { apply Forall_app; split; [exact B'|]. constructor; [simpl; tauto|].
               simpl. eapply Forall_impl; [|exact B2]; tauto. }
             split.
             { intros Hle. apply Forall_app; split; [exact C|].
               constructor; [simpl; tauto|]. simpl. apply C2, Hle. }
             intros l E; discriminate.
          -- apply search_mailbox_comprehensive_spec in Hq5.
             destruct Hq5 as (A2 & B2 & C2 & D2).
             unfold ret in Hb. inversion Hb; subst; clear Hb.
             destruct (D2 sh eq_refl) as [Hf Hz].
             split; [eapply same_session_trans;
                     [exact A|apply same_but_folder_cache_session, A2]|].
             split.
             { apply Forall_app; split; [exact B'|]. constructor; [simpl; tauto|].
               simpl. rewrite app_nil_r.
               eapply Forall_impl; [|exact B2]; tauto. }
             split.
             { intros Hle. apply Forall_app; split; [exact C|].
               constructor; [simpl; tauto|]. simpl. rewrite app_nil_r.
               apply C2, Hle. }
             intros l E. inversion E; subst. exists sh. auto.
      + unfold ret in Hb. inversion Hb; subst; clear Hb.
        split; [exact A|]. rewrite app_nil_r. split; [exact B'|].
        split; [intros _; exact C|].
        intros l E. inversion E; subst. exists []. rewrite app_nil_r.
        split; [reflexivity|]. split; [exists []; apply pass_inv_nil|reflexivity]. }
  apply try_catch_inv in H.
  destruct H as [(a & H & ->)|(s1 & t1 & e & t2 & H & Hh & ->)].
  - apply Hbody in H. destruct H as (A & B & C & D).
    split; [exact A|]. split; [exact B|]. split; [exact C|].
    destruct (D a eq_refl) as (sh & -> & F & Z). exists sh. auto.
  - apply Hbody in H. destruct H as (A & B & C & _).
    run_in Hh. inversion Hh; subst; clear Hh.
    split; [destruct A as (A1 & A2 & A3 & A4 & A5); repeat split; assumption|].
    rewrite app_nil_r. split; [exact B|]. split; [exact C|].
    exists []. rewrite app_nil_r. split; [reflexivity|].
    split; [exists []; apply pass_inv_nil|reflexivity].
Qed.

(** ** search_emails *)

Lemma pass_inv_scope mt l found :
  pass_inv mt l found ->
  NoDup (map scope_id l) /\ Forall has_time l /\
  Forall (fun r => mailbox_type r = Val mt) l.
Proof.
  intros (H1 & H2 & _). split; [|split].
  - clear H2. induction l as [|a l IH]; simpl in *; [constructor|].
    inversion H1 as [|x xs Hnotin Hrest]; subst. constructor; [|auto].
    intros Hin. apply in_map_iff in Hin. destruct Hin as (b & Hb & Hin).
    unfold scope_id in Hb. inversion Hb. apply Hnotin.
    apply in_map_iff. exists b. auto.
  - eapply Forall_impl; [|exact H2]. intros r (_ & Ht & _). exact Ht.
  - eapply Forall_impl; [|exact H2]. intros r (Hm & _). exact Hm.
Qed.

Lemma two_passes_scope p sh fp fs :
  pass_inv "personal" p fp -> pass_inv "shared" sh fs ->
  NoDup (map scope_id (p ++ sh)) /\ Forall has_time (p ++ sh).
Proof.
  intros Hp Hs. apply pass_inv_scope in Hp. apply pass_inv_scope in Hs.
  destruct Hp as (P1 & P2 & P3). destruct Hs as (S1 & S2 & S3). split.
  - rewrite map_app. apply NoDup_app; auto.
    intros a Ha Hb. apply in_map_iff in Ha. apply in_map_iff in Hb.
    destruct Ha as (x & <- & Hx). destruct Hb as (y & Hy & Hyin).
    rewrite Forall_forall in P3, S3. specialize (P3 x Hx).
    specialize (S3 y Hyin). unfold scope_id in Hy. inversion Hy. congruence.
  - apply Forall_app. auto.
Qed.

Lemma result_ok_nil m : result_ok m [].
Proof. repeat split; simpl; [lia|constructor|constructor|constructor]. Qed.

Lemma result_ok_slice max_results all sorted_emails :
  NoDup (map scope_id all) -> Forall has_time all ->
  (max_results <= 0 -> all = []) ->
  Permutation all sorted_emails -> newest_first sorted_emails ->
  result_ok max_results (slice_to max_results sorted_emails).
Proof.
  intros Hn Ht Hz Hp Hso.
  destruct (Z_le_gt_dec max_results 0) as [Hle|Hgt].
  - rewrite (Hz Hle) in Hp. apply Permutation_nil in Hp. subst.
    rewrite slice_to_nil. apply result_ok_nil.
  - split; [apply slice_to_length; lia|].
    destruct (slice_to_firstn max_results sorted_emails) as [k ->].
    split; [|split].
    + rewrite <- firstn_map. apply NoDup_firstn.
      eapply Permutation_NoDup; [apply Permutation_map; exact Hp|exact Hn].
    + apply StronglySorted_firstn. exact Hso.
    + apply Forall_firstn'. eapply Permutation_Forall; eassumption.
Qed.

(** The outcomes of a search: the connection check comes first; without a
    connection the answer is the empty list; a fresh cache entry is handed
    out as it is, with no further access to the session; otherwise both
    mailbox passes run and the sorted, capped list is stored and
    returned. *)
Lemma search_emails_spec cfg w txt ip ish s s' t r :
  search_emails cfg w txt ip ish s = (s', t, r) ->
  cache_ok (_search_cache s) ->
  exists s0 t0 ok t1,
    _ensure_connected w s = (s0, t0, Ok ok) /\ t = t0 ++ t1 /\
    cache_ok (_search_cache s') /\
    (forall l, r = Ok l -> result_ok (max_search_results cfg) l) /\
    (max_search_results cfg <= 0 -> Forall (fun e => ~ is_restrict e) t1) /\
    (_shared_mailbox_configured cfg = false ->
     Forall (fun e => ~ is_shared_access e) t1) /\
    (ok = false -> r = Ok [] /\ s' = s0 /\ t1 = []) /\
    (forall e, ok = true ->
       cache_hit w (cache_key txt ip ish (max_search_results cfg)) s0 = Some e ->
       r = Ok (data e) /\ s' = s0 /\ t1 = []) /\
    (forall l, ok = true ->
       cache_hit w (cache_key txt ip ish (max_search_results cfg)) s0 = None ->
       r = Ok l ->
       _search_cache s' =
         limit_cache (dict_set (cache_key txt ip ish (max_search_results cfg))
                               (mkEntry l (w_time w)) (_search_cache s0)) /\
       connected s' = true /\ namespace s' = true) /\
    (forall e, r = Raise e -> _search_cache s' = _search_cache s0).
Proof.
  intros H Hc. unfold search_emails in H.
  destruct (ensure_connected_spec w s)
    as (s0 & t0 & ok & He & _ & _ & Hcache & Hconn & Hns & _).
  assert (Hc0 : cache_ok (_search_cache s0)).
  { destruct Hcache as [-> | ->]; [exact Hc|apply cache_ok_nil]. }
  apply bind_inv in H.
  destruct H as [(e & H & _)|(sa & ta & oka & t1 & Ha & H & ->)];
    [rewrite He in H; discriminate H|].
  rewrite He in Ha. inversion Ha; subst sa ta oka; clear Ha.
  exists s0, t0, ok, t1. split; [exact He|]. split; [reflexivity|].
  destruct ok; simpl in H.
  2:{ unfold ret in H. inversion H; subst.
      split; [exact Hc0|]. split; [intros l E; inversion E; apply result_ok_nil|].
      split; [constructor|]. split; [constructor|].
      split; [auto|]. split; [intros; discriminate|].
      split; intros; discriminate. }
  apply bind_inv in H.
  destruct H as [(e & H & _)|(sb & tb & sb' & t2 & Hb & H & ->)];
    [unfold get_state in H; discriminate H|].
  unfold get_state in Hb. inversion Hb; subst sb tb sb'; clear Hb.
  simpl.
  destruct (cache_hit w (cache_key txt ip ish (max_search_results cfg)) s0)
    as [entry|] eqn:Ehit.
  { unfold ret in H. inversion H; subst.
    split; [exact Hc0|]. split.
    { intros l E; inversion E; subst. unfold cache_hit in Ehit.
      destruct (lookup _ (_search_cache s')) as [ce|] eqn:El; [|discriminate].
      destruct (w_time w - timestamp ce <? 3600); [|discriminate].
      inversion Ehit; subst. apply lookup_In in El.
      eapply Hc0; [exact El|reflexivity]. }
    split; [constructor|]. split; [constructor|].
    split; [discriminate|]. split; [|split; intros; discriminate].
    intros e _ E. inversion E; subst. auto. }
  (* the personal pass *)
  apply bind_inv in H.
  assert (Hpers : forall sp tp rp,
    (if ip then
       emit EvGetDefaultFolder ;;;
       inbox <- lift (w_default_folder w) ;;
       _search_mailbox_comprehensive cfg w inbox txt "personal"
                                     (max_search_results cfg)
     else ret []) s0 = (sp, tp, rp) ->
    same_session s0 sp /\
    Forall (fun e => ~ is_shared_access e) tp /\
    (max_search_results cfg <= 0 -> Forall (fun e => ~ is_restrict e) tp) /\
    forall l, rp = Ok l ->
      (exists found, pass_inv "personal" l found) /\
      (max_search_results cfg <= 0 -> l = [])).
  { intros sp tp rp Hp. destruct ip.
    - apply bind_inv in Hp.
      destruct Hp as [(e & Hp & _)|(sc & tc & u & t3 & Hq & Hp & ->)];
        [unfold emit in Hp; discriminate Hp|].
      unfold emit in Hq. inversion Hq; subst sc tc; clear Hq.
      apply bind_inv in Hp.
      destruct Hp as [(e & Hp & ->)|(sd & td & inbox & t4 & Hq & Hp & ->)].
      + unfold lift in Hp. inversion Hp; subst.
        split; [apply same_session_refl|].
        split; [repeat constructor; simpl; tauto|].
        split; [intros _; repeat constructor; simpl; tauto|].
        intros l E; discriminate.
      + unfold lift in Hq. inversion Hq; subst sd td; clear Hq.
        apply search_mailbox_comprehensive_spec in Hp.
        destruct Hp as (A & B & C & D).
        split; [apply same_but_folder_cache_session, A|].
        split.
        { constructor; [simpl; tauto|]. simpl.
          eapply Forall_impl; [|exact B]. intros [] K; simpl in *; tauto. }
        split.
        { intros Hle. constructor; [simpl; tauto|]. simpl. apply C, Hle. }
        exact D.
    - unfold ret in Hp. inversion Hp; subst.
      split; [apply same_session_refl|]. split; [constructor|].
      split; [constructor|]. intros l E. inversion E; subst.
      split; [exists []; apply pass_inv_nil|reflexivity]. }
  destruct H as [(e & H & ->)|(sp & tp & personal & t3 & Hp & H & ->)].
  { apply Hpers in H. destruct H as (A & B & C & _).
    destruct A as (_ & _ & _ & A4 & _).
    split; [rewrite A4; exact Hc0|].
    split; [intros l E; discriminate|]. split; [exact C|].
    split; [intros _; exact B|]. split; [discriminate|].
    split; [intros; discriminate|]. split; [intros; discriminate|].
    intros _ _. exact A4. }
  apply Hpers in Hp. destruct Hp as (Ap & Bp & Cp & Dp).
  destruct (Dp personal eq_refl) as [[fp Jp] Zp]. clear Dp.
  (* the shared pass *)
  apply bind_inv in H.
  assert (Hsh : forall sq tq rq,
    (if ish && _shared_mailbox_configured cfg
     then search_shared cfg w txt (max_search_results cfg) personal
     else ret personal) sp = (sq, tq, rq) ->
    same_session sp sq /\
    (_shared_mailbox_configured cfg = false ->
     Forall (fun e => ~ is_shared_access e) tq) /\
    (max_search_results cfg <= 0 -> Forall (fun e => ~ is_restrict e) tq) /\
    exists sh, rq = Ok (personal ++ sh) /\
      (exists found, pass_inv "shared" sh found) /\
      (max_search_results cfg <= 0 -> sh = [])).
  { intros sq tq rq Hq.
    destruct (ish && _shared_mailbox_configured cfg) eqn:Eg.
    - apply search_shared_spec in Hq. destruct Hq as (A & B & C & sh & D & F & G).
      split; [exact A|]. split.
      { intros Hn. rewrite Hn, andb_false_r in Eg. discriminate. }
      split; [intros Hle; apply C; lia|].
      exists sh. split; [exact D|]. split; [exact F|]. intros Hle. apply G. lia.
    - unfold ret in Hq. inversion Hq; subst.
      split; [apply same_session_refl|]. split; [constructor|].
      split; [constructor|]. exists []. rewrite app_nil_r.
      split; [reflexivity|]. split; [exists []; apply pass_inv_nil|reflexivity]. }
  destruct H as [(e & H & ->)|(sq & tq & all & t4 & Hq & H & ->)].
  { apply Hsh in H. destruct H as (_ & _ & _ & sh & E & _). discriminate E. }
  apply Hsh in Hq. destruct Hq as (Aq & Bq & Cq & sh & Eall & [fs Js] & Zs).
  inversion Eall; subst all; clear Eall.
  destruct (two_passes_scope _ _ _ _ Jp Js) as [Hnd Hti].
  assert (Hz : max_search_results cfg <= 0 -> personal ++ sh = []).
  { intros Hle. rewrite (Zp Hle), (Zs Hle). reflexivity. }
  assert (Hss : same_session s0 sq) by (eapply same_session_trans; eassumption).
  (* sorting, capping, caching *)
  apply bind_inv in H.
  destruct H as [(e & H & ->)|(sr & tr & sorted_emails & t5 & Hso & H & ->)].
  { unfold lift in H. injection H as E1 E2 E3. subst.
    destruct Hss as (_ & _ & _ & S4 & _).
    split; [rewrite S4; exact Hc0|].
    split; [intros l E; discriminate|].
    rewrite app_nil_r.
    split; [intros Hle; apply Forall_app; auto|].
    split; [intros Hn; apply Forall_app; auto|].
    split; [discriminate|]. split; [intros; discriminate|].
    split; [intros; discriminate|]. intros _ _. exact S4. }
  unfold lift in Hso. inversion Hso as [[E1 E2 Hsorted]]; subst sr tr; clear Hso.
  assert (Hnew : newest_first sorted_emails).
  { eapply (sorted_desc_sorted key_lt key_lt_asym key_lt_trans_false
              received_key). exact Hsorted. }
  apply sorted_perm in Hsorted.
  run_in H. inversion H; subst; clear H. simpl.
  pose proof (result_ok_slice (max_search_results cfg) _ _ Hnd Hti Hz Hsorted
                              Hnew) as Hres.
  destruct Hss as (S1 & S2 & S3 & S4 & S5).
  split; [rewrite S4; apply cache_ok_store; assumption|].
  split; [intros l E; inversion E; subst; exact Hres|].
  rewrite !app_nil_r.
  split; [intros Hle; apply Forall_app; auto|].
  split; [intros Hn; apply Forall_app; auto|].
  split; [discriminate|]. split; [intros; discriminate|].
  split; [|intros; discriminate].
  intros l _ _ E. inversion E; subst. rewrite S4.
  split; [reflexivity|]. rewrite S3, S2. auto.
Qed.

(** ** Methods that keep a property of the client state *)

Lemma preserves_ret {A} I (a : A) : preserves I (ret a).
Proof. intros s s' t r Hi H. unfold ret in H. inversion H; subst; exact Hi. Qed.

Lemma preserves_emit I e : preserves I (emit e).
Proof. intros s s' t r Hi H. unfold emit in H. inversion H; subst; exact Hi. Qed.

Lemma preserves_lift {A} I (x : Result A) : preserves I (lift x).
Proof. intros s s' t r Hi H. unfold lift in H. inversion H; subst; exact Hi. Qed.

Lemma preserves_get_state I : preserves I get_state.
Proof.
  intros s s' t r Hi H. unfold get_state in H. inversion H; subst; exact Hi.
Qed.

Lemma preserves_bind {A B} I (m : M A) (k : A -> M B) :
  preserves I m -> (forall a, preserves I (k a)) -> preserves I (bind m k).
Proof.
  intros Hm Hk s s' t r Hi H. apply bind_inv in H.
  destruct H as [(e & H & _)|(s1 & t1 & a & t2 & H1 & H & _)].
  - eapply Hm; eauto.
  - eapply Hk; [|exact H]. eapply Hm; eauto.
Qed.

Lemma preserves_try_catch {A} I (m : M A) h :
  preserves I m -> (forall e, preserves I (h e)) -> preserves I (try_catch m h).
Proof.
  intros Hm Hh s s' t r Hi H. apply try_catch_inv in H.
  destruct H as [(a & H & _)|(s1 & t1 & e & t2 & H1 & H & _)].
  - eapply Hm; eauto.
  - eapply Hh; [|exact H]. eapply Hm; eauto.
Qed.

Lemma preserves_set_shared_recipient_cache c0 c :
  preserves (fun s => _search_cache s = c0) (set_shared_recipient_cache c).
Proof.
  intros s s' t r Hi H. unfold set_shared_recipient_cache in H.
  injection H as E1 E2 E3. rewrite <- E1. simpl. exact Hi.
Qed.

Lemma preserves_get_store_display_name I folder :
  preserves I (_get_store_display_name folder).
Proof.
  unfold _get_store_display_name. apply preserves_bind;
    [apply preserves_emit|intros _].
  destruct (ib_parent folder) as [p|e]; [|apply preserves_ret].
  destruct (st_display_name p), (st_name p); apply preserves_ret.
Qed.

Lemma preserves_probe_shared c0 w addr :
  preserves (fun s => _search_cache s = c0) (probe_shared w addr).
Proof.
  unfold probe_shared. apply preserves_bind.
  - intros s s' t r Hi H. apply shared_recipient_spec in H.
    destruct H as ((_ & _ & _ & E & _) & _). simpl. congruence.
  - intros rcp. destruct (sr_resolved rcp); [|apply preserves_ret].
    apply preserves_bind; [apply preserves_emit|intros _].
    apply preserves_bind; [apply preserves_lift|intros inbox].
    apply preserves_bind; [apply preserves_get_store_display_name|intros n].
    apply preserves_ret.
Qed.

Lemma check_access_search_cache cfg w s s' t r :
  check_access cfg w s = (s', t, r) ->
  _search_cache s' = _search_cache s \/ _search_cache s' = [].
Proof.
  unfold check_access. intros H.
  destruct (ensure_connected_spec w s)
    as (s0 & t0 & ok & He & _ & _ & Hcache & _).
  apply bind_inv in H.
  destruct H as [(e & H & _)|(sa & ta & oka & t1 & Ha & H & _)];
    [rewrite He in H; discriminate H|].
  rewrite He in Ha. inversion Ha; subst sa ta oka; clear Ha.
  assert (Hp : preserves (fun st => _search_cache st = _search_cache s0)
    (if negb ok
     then ret (AccessError "Could not connect to Outlook")
     else
       personal <- try_catch
         (emit EvGetDefaultFolder ;;;
          personal_inbox <- lift (w_default_folder w) ;;
          name <- _get_store_display_name personal_inbox ;;
          ret (true, Some name, []))
         (fun e => ret (false, None,
                        [("Personal mailbox error: " ++ exn_str e)%string])) ;;
       let '(personal_accessible, personal_name, errors1) := personal in
       shared <-
         (if truthy_str (shared_mailbox_email cfg) then
            try_catch
              (r <- probe_shared w (default "" (shared_mailbox_email cfg)) ;;
               ret (fst r, snd r, errors1))
              (fun e =>
                 set_shared_recipient_cache None ;;;
                 ret (false, None,
                      errors1 ++ [("Shared mailbox error: " ++ exn_str e)%string]))
          else ret (false, None, errors1)) ;;
       let '(shared_accessible, shared_name, errors2) := shared in
       ret (AccessReport true personal_accessible shared_accessible
              (truthy_str (shared_mailbox_email cfg))
              (personal_retention_months cfg) (shared_retention_months cfg)
              personal_name shared_name errors2))).
  2:{ pose proof (Hp s0 s' t1 r eq_refl H) as E.
      destruct Hcache as [Hx|Hx]; rewrite <- E in Hx; auto. }
  clear. destruct ok; simpl; [|apply preserves_ret].
  apply preserves_bind.
  - apply preserves_try_catch; [|intros e; apply preserves_ret].
    apply preserves_bind; [apply preserves_emit|intros _].
    apply preserves_bind; [apply preserves_lift|intros inbox].
    apply preserves_bind; [apply preserves_get_store_display_name|intros n].
    apply preserves_ret.
  - intros [[pa pn] errors1]. apply preserves_bind.
    + destruct (truthy_str (shared_mailbox_email cfg)); [|apply preserves_ret].
      apply preserves_try_catch.
      * apply preserves_bind; [apply preserves_probe_shared|intros x].
        apply preserves_ret.
      * intros e. apply preserves_bind;
          [apply preserves_set_shared_recipient_cache|intros _].
        apply preserves_ret.
    + intros [[sa sn] errors2]. apply preserves_ret.
Qed.

(** ** The size of the cache and the entry just stored *)


Lemma dict_set_new {V} k (v : V) d :
  lookup k d = None -> dict_set k v d = d ++ [(k, v)].
Proof.
  induction d as [|[k' v'] r IH]; simpl; [reflexivity|].
  destruct (String.eqb k k'); [discriminate|]. intros H. rewrite IH; auto.
Qed.

Lemma dict_set_length_old {V} k (v v0 : V) d :
  lookup k d = Some v0 -> List.length (dict_set k v d) = List.length d.
Proof.
  induction d as [|[k' v'] r IH]; simpl; [discriminate|].
  destruct (String.eqb k k'); simpl; [reflexivity|]. intros H. rewrite IH; auto.
Qed.

Lemma dict_set_length {V} k (v : V) d :
  (List.length (dict_set k v d) <= S (List.length d))%nat.
Proof.
  destruct (lookup k d) as [v0|] eqn:E.
  - rewrite (dict_set_length_old _ _ _ _ E). lia.
  - rewrite (dict_set_new _ _ _ E), length_app. simpl. lia.
Qed.

Lemma dict_del_length {V} k (d : list (string * V)) :
  In k (map fst d) -> S (List.length (dict_del k d)) = List.length d.
Proof.
  induction d as [|[k' v'] r IH]; simpl; [tauto|].
  destruct (String.eqb k k') eqn:E; [reflexivity|].
  intros [K|K]; [subst; rewrite String.eqb_refl in E; discriminate|].
  simpl. rewrite IH; auto.
Qed.

Lemma min_key_in d : forall best bts,
  In (min_key best bts d) (best :: map fst d).
Proof.
  induction d as [|[k e] r IH]; intros best bts; simpl; [auto|].
  destruct (timestamp e <? bts).
  - destruct (IH k (timestamp e)) as [H|H]; auto.
  - destruct (IH best bts) as [H|H]; auto.
Qed.


Lemma limit_cache_length cache :
  (List.length cache <= 101)%nat -> (List.length (limit_cache cache) <= 100)%nat.
Proof.
  intros H. unfold limit_cache.
  destruct (100 <? List.length cache)%nat eqn:E; [|apply Nat.ltb_ge in E; exact E].
  destruct cache as [|[k e] r]; [simpl; lia|].
  pose proof (dict_del_length (min_key k (timestamp e) r) ((k, e) :: r)
                (min_key_in r k (timestamp e))) as Hd.
  simpl List.length in *. lia.
Qed.


(** ** Invariants of the reachable client states *)

Lemma reachable_cache cfg s :
  reachable cfg s ->
  cache_ok (_search_cache s) /\ (List.length (_search_cache s) <= 100)%nat.
Proof.
  induction 1 as [|w txt ip ish s s' t r Hr [IH1 IH2] H
                  |w s s' t r Hr [IH1 IH2] H].
  - simpl. split; [apply cache_ok_nil|lia].
  - destruct (search_emails_spec _ _ _ _ _ _ _ _ _ H IH1)
      as (s0 & t0 & ok & t1 & He & _ & Hc & _ & _ & _ & Hf & Hh & Hm & Hx).
    split; [exact Hc|].
    destruct (ensure_connected_spec w s)
      as (s0' & t0' & ok' & He' & _ & _ & Hcache & _).
    rewrite He in He'. inversion He'; subst s0' t0' ok'; clear He'.
    assert (L0 : (List.length (_search_cache s0) <= 100)%nat).
    { destruct Hcache as [-> | ->]; simpl; lia. }
    destruct ok.
    + destruct (cache_hit w (cache_key txt ip ish (max_search_results cfg)) s0)
        as [e|] eqn:Eh.
      * destruct (Hh e eq_refl eq_refl) as (_ & -> & _). exact L0.
      * destruct r as [l|e].
        -- destruct (Hm l eq_refl eq_refl eq_refl) as (-> & _).
           apply limit_cache_length.
           pose proof (dict_set_length
                         (cache_key txt ip ish (max_search_results cfg))
                         (mkEntry l (w_time w)) (_search_cache s0)). lia.
        -- rewrite (Hx e eq_refl). exact L0.
    + destruct (Hf eq_refl) as (_ & -> & _). exact L0.
  - apply check_access_search_cache in H.
    destruct H as [-> | ->]; [auto|]. split; [apply cache_ok_nil|simpl; lia].
Qed.

(** ** Received times of search results *)

(** C10: [_extract_email_data] builds a record from every item it can
    read, and the record carries a received_time: the item's ReceivedTime
    or, when the item has none, the clock reading [datetime.now()]; hence
    every record of every list [search_emails] returns, from the store or
    from the cache, has a received time. *)
Theorem search_results_have_received_time cfg w txt ip ish s s' t l :
  reachable cfg s ->
  search_emails cfg w txt ip ish s = (s', t, Ok l) ->
  Forall has_time l /\
  (forall item folder_name mt,
     it_broken item = false ->
     exists d,
       _extract_email_data cfg w item folder_name mt = Some d /\
       received_time d = Val (match it_received_time item with
                              | Some stamped => com_datetime stamped
                              | None => Naive (w_now w)
                              end)) /\
  (forall item folder_name mt,
     it_broken item = true ->
     _extract_email_data cfg w item folder_name mt = None).
Proof.
  intros Hr H. split; [|split].
  - destruct (reachable_cache _ _ Hr) as [Hc _].
    destruct (search_emails_spec _ _ _ _ _ _ _ _ _ H Hc)
      as (s0 & t0 & ok & t1 & _ & _ & _ & Hres & _).
    apply (Hres l eq_refl).
  - intros item fn mt Hb.
    destruct (_extract_email_data cfg w item fn mt) as [d|] eqn:Ed.
    + exists d. split; [reflexivity|]. apply (extract_fields _ _ _ _ _ _ Ed).
    + unfold _extract_email_data in Ed. rewrite Hb in Ed.
      destruct (read_recipients _ _ _ _ _ _ _) as [[to cc] all].
      discriminate Ed.
  - intros item fn mt Hb. unfold _extract_email_data. rewrite Hb. reflexivity.
Qed.

Lemma search_results_have_received_time_witness :
  exists l,
    snd (search_emails Examples.plain_config Examples.unstamped_world "Order"
           true false (init Examples.plain_config)) = Ok l /\
    map received_time l = [Val (Naive (w_now Examples.unstamped_world))] /\
    Forall has_time l.
Proof.
  eexists. split; [vm_compute; reflexivity|]. split; [reflexivity|].
  apply (search_results_have_received_time Examples.plain_config
           Examples.unstamped_world "Order" true false
           (init Examples.plain_config)
           (fst (fst (search_emails Examples.plain_config
                        Examples.unstamped_world "Order" true false
                        (init Examples.plain_config))))
           (snd (fst (search_emails Examples.plain_config
                        Examples.unstamped_world "Order" true false
                        (init Examples.plain_config))))).
  - apply reach_init.
  - vm_compute. reflexivity.
Defined.

(** ** Size and identity tokens of search results *)

(** C2, as stated, fails twice: the set of found identity tokens is
    private to each mailbox pass, so an item reachable through the personal
    and the shared mailbox is returned twice; and with a negative cap the
    empty result is longer than the cap. *)
Lemma search_results_can_repeat_a_token_across_mailboxes :
  (exists r1 r2,
     snd (search_emails Examples.shared_config Examples.overlap_world "Order"
            true true (init Examples.shared_config)) = Ok [r1; r2] /\
     entry_id r1 = entry_id r2 /\
     mailbox_type r1 = Val "personal" /\ mailbox_type r2 = Val "shared") /\
  (snd (search_emails Examples.negative_config
          (Examples.world_of [Some Examples.order_item] []) "Order"
          true true (init Examples.negative_config)) = Ok [] /\
   ~ Z.of_nat (List.length (@nil MailRecord))
       <= max_search_results Examples.negative_config).
Proof.
  split.
  - do 2 eexists. split; [vm_compute; reflexivity|].
    repeat split; reflexivity.
  - split; [vm_compute; reflexivity|]. simpl. lia.
Qed.

(** C2 (amended): every list returned by [search_emails], in any
    reachable client state, has at most max(maxResults, 0) elements, and
    no two records of it that carry the same mailbox scope share an
    identity token. *)
Theorem search_results_capped_and_unique_per_mailbox cfg w txt ip ish s s' t l :
  reachable cfg s ->
  search_emails cfg w txt ip ish s = (s', t, Ok l) ->
  Z.of_nat (List.length l) <= Z.max 0 (max_search_results cfg) /\
  NoDup (map scope_id l) /\
  (forall i j a b,
     nth_error l i = Some a -> nth_error l j = Some b -> i <> j ->
     mailbox_type a = mailbox_type b -> entry_id a <> entry_id b).
Proof.
  intros Hr H. destruct (reachable_cache _ _ Hr) as [Hc _].
  destruct (search_emails_spec _ _ _ _ _ _ _ _ _ H Hc)
    as (s0 & t0 & ok & t1 & _ & _ & _ & Hres & _).
  destruct (Hres l eq_refl) as (Hlen & Hnd & _).
  split; [lia|]. split; [exact Hnd|].
  intros i j a b Ha Hb Hij Hm He.
  apply Hij. rewrite NoDup_nth_error in Hnd. apply Hnd.
  - rewrite length_map. apply nth_error_Some. congruence.
  - rewrite !nth_error_map, Ha, Hb. simpl. unfold scope_id. congruence.
Qed.

Lemma search_results_capped_and_unique_per_mailbox_witness :
  exists l,
    snd (search_emails Examples.shared_config Examples.overlap_world "Order"
           true true (init Examples.shared_config)) = Ok l /\
    List.length l = 2%nat /\
    NoDup (map scope_id l).
Proof.
  eexists. split; [vm_compute; reflexivity|]. split; [reflexivity|].
  apply (search_results_capped_and_unique_per_mailbox Examples.shared_config
           Examples.overlap_world "Order" true true
           (init Examples.shared_config)
           (fst (fst (search_emails Examples.shared_config Examples.overlap_world
                        "Order" true true (init Examples.shared_config))))
           (snd (fst (search_emails Examples.shared_config Examples.overlap_world
                        "Order" true true (init Examples.shared_config))))).
  - apply reach_init.
  - vm_compute. reflexivity.
Defined.

(** ** A result cap of zero or less *)

Lemma bind_trace_prefix {A B} (m : M A) (k : A -> M B) s s1 t1 a s' t r :
  m s = (s1, t1, Ok a) -> bind m k s = (s', t, r) ->
  exists rest, t = t1 ++ rest /\ k a s1 = (s', rest, r).
Proof.
  unfold bind. intros ->. destruct (k a s1) as [[s2 t2] r2].
  intros H. inversion H; subst. eexists. split; reflexivity.
Qed.

Lemma bind_trace_left {A B} (m : M A) (k : A -> M B) s s' t r :
  bind m k s = (s', t, r) ->
  exists s1 t1 r1 rest, m s = (s1, t1, r1) /\ t = t1 ++ rest.
Proof.
  unfold bind. destruct (m s) as [[s1 t1] [a|e]].
  - destruct (k a s1) as [[s2 t2] r2]. intros H. inversion H; subst.
    do 4 eexists. split; reflexivity.
  - intros H. inversion H; subst. exists s', t, (Raise e), [].
    rewrite app_nil_r. split; reflexivity.
Qed.

Lemma search_emails_opens_default_folder cfg w txt ip ish s s' t r s0 t0 inbox :
  search_emails cfg w txt ip ish s = (s', t, r) ->
  _ensure_connected w s = (s0, t0, Ok true) ->
  cache_hit w (cache_key txt ip ish (max_search_results cfg)) s0 = None ->
  ip = true -> w_default_folder w = Ok inbox ->
  exists rest,
    t = t0 ++ EvGetDefaultFolder :: folder_reads (ib_folder inbox) ++ rest.
Proof.
  intros H He Hmiss -> Hin. unfold search_emails in H.
  destruct (bind_trace_prefix _ _ _ _ _ _ _ _ _ He H) as (r1 & -> & H1).
  cbn [negb] in H1.
  destruct (bind_trace_prefix _ _ _ _ _ _ _ _ _ (eq_refl : get_state s0 = (s0, [], Ok s0)) H1)
    as (r2 & -> & H2).
  rewrite Hmiss in H2.
  destruct (bind_trace_left _ _ _ _ _ _ H2) as (s1 & t1 & r1' & r3 & H3 & ->).
  destruct (bind_trace_prefix _ _ _ _ _ _ _ _ _
              (eq_refl : emit EvGetDefaultFolder s0 = (s0, [EvGetDefaultFolder], Ok tt)) H3)
    as (r4 & -> & H4).
  rewrite Hin in H4.
  destruct (bind_trace_prefix _ _ _ _ _ _ _ _ _
              (eq_refl : lift (Ok inbox) s0 = (s0, [], Ok inbox)) H4)
    as (r5 & -> & H5).
  unfold _search_mailbox_comprehensive in H5.
  destruct (bind_trace_left _ _ _ _ _ _ H5) as (s6 & t6 & r6 & r7 & H6 & ->).
  unfold _collect_subfolders_recursive in H6.
  unfold bind, emit_all, ret in H6. inversion H6; subst.
  rewrite app_nil_r. simpl. rewrite <- !app_assoc. eexists. reflexivity.
Qed.

Lemma search_emails_default_folder_raises cfg w txt ip ish s s' t r s0 t0 e :
  search_emails cfg w txt ip ish s = (s', t, r) ->
  _ensure_connected w s = (s0, t0, Ok true) ->
  cache_hit w (cache_key txt ip ish (max_search_results cfg)) s0 = None ->
  ip = true -> w_default_folder w = Raise e ->
  t = t0 ++ [EvGetDefaultFolder] /\ r = Raise e.
Proof.
  intros H He Hmiss -> Hin. unfold search_emails in H.
  destruct (bind_trace_prefix _ _ _ _ _ _ _ _ _ He H) as (r1 & -> & H1).
  cbn [negb] in H1. run_in H1. rewrite Hmiss, Hin in H1.
  inversion H1; subst. split; reflexivity.
Qed.

Lemma search_emails_of_no_mailbox cfg w txt ish s s' t r :
  search_emails cfg w txt false ish s = (s', t, r) ->
  ish && _shared_mailbox_configured cfg = false ->
  exists s0 ok, _ensure_connected w s = (s0, t, Ok ok).
Proof.
  intros H Hs. unfold search_emails in H.
  destruct (ensure_connected_spec w s) as (s0 & t0 & ok & He & _).
  destruct (bind_trace_prefix _ _ _ _ _ _ _ _ _ He H) as (r1 & -> & H1).
  exists s0, ok. rewrite Hs in H1. destruct ok; cbn [negb] in H1.
  - run_in H1.
    destruct (cache_hit _ _ _) as [e|] eqn:Eh.
    + inversion H1; subst. rewrite app_nil_r. exact He.
    + simpl in H1. inversion H1; subst. rewrite app_nil_r. exact He.
  - unfold ret in H1. inversion H1; subst. rewrite app_nil_r. exact He.
Qed.

(** C8, as stated, fails: with a cap of 0 the search still connects,
    opens the default folder and enumerates the folders; only the filtered
    queries are left out. *)
Lemma zero_cap_still_touches_session :
  search_emails Examples.zero_config
    (Examples.world_of [Some Examples.order_item] []) "Order" true true
    (init Examples.zero_config)
  = (fst (fst (search_emails Examples.zero_config
                 (Examples.world_of [Some Examples.order_item] []) "Order"
                 true true (init Examples.zero_config))),
     [EvConnect 0; EvGetDefaultFolder; EvFolders "Inbox"; EvParent;
      EvRootFolders],
     Ok []).
Proof. vm_compute. reflexivity. Qed.

(** C8 (amended): when the configured cap is 0 or negative, every list a
    search returns is empty and no filtered query is run; the session is
    still touched: every search starts with the liveness probe or a
    connection attempt.  The accesses of that connection check are all
    there is when the connection fails, when the request is served from
    the cache, or when no mailbox is searched (personal not included,
    shared not included or not configured).  When the connection is up,
    the request is not in the cache and the personal mailbox is included,
    the search goes on to open the default folder and, once that is
    opened, to enumerate its folders before the per-folder loop stops; if
    the default folder cannot be opened the search raises after that one
    access. *)
Theorem nonpositive_cap_runs_no_query cfg w txt ip ish s s' t r :
  max_search_results cfg <= 0 ->
  reachable cfg s ->
  search_emails cfg w txt ip ish s = (s', t, r) ->
  (forall l, r = Ok l -> l = []) /\
  Forall (fun e => ~ is_restrict e) t /\
  (exists e rest, t = e :: rest /\ is_connection_access e) /\
  (exists s0 t0 ok,
     _ensure_connected w s = (s0, t0, Ok ok) /\
     Forall is_connection_access t0 /\
     (ok = false \/
      cache_hit w (cache_key txt ip ish (max_search_results cfg)) s0 <> None \/
      (ip = false /\ ish && _shared_mailbox_configured cfg = false) ->
      t = t0) /\
     (ok = true ->
      cache_hit w (cache_key txt ip ish (max_search_results cfg)) s0 = None ->
      ip = true ->
      match w_default_folder w with
      | Ok inbox =>
          exists rest,
            t = t0 ++ EvGetDefaultFolder :: folder_reads (ib_folder inbox)
                   ++ rest
      | Raise e => t = t0 ++ [EvGetDefaultFolder] /\ r = Raise e
      end)).
Proof.
  intros Hle Hr H. destruct (reachable_cache _ _ Hr) as [Hc _].
  destruct (search_emails_spec _ _ _ _ _ _ _ _ _ H Hc)
    as (s0 & t0 & ok & t1 & He & Et & _ & Hres & Hq & _ & Hf & Hh & _).
  destruct (ensure_connected_spec w s)
    as (s0' & t0' & ok' & He' & Hstart & Fc & _).
  rewrite He in He'. injection He' as <- <- <-.
  split; [|split; [|split]].
  - intros l E. destruct (Hres l E) as (Hlen & _).
    destruct l; [reflexivity|]. simpl in Hlen. lia.
  - subst t. apply Forall_app. split; [|apply Hq, Hle].
    eapply Forall_impl; [|exact Fc]. intros [] K; simpl in *; tauto.
  - destruct Hstart as (e & rest & Ht & Hce). subst t t0.
    exists e, (rest ++ t1). split; [reflexivity|exact Hce].
  - exists s0, t0, ok. split; [exact He|]. split; [exact Fc|]. split.
    + intros [->|[Hhit|[-> Hno]]].
      * destruct (Hf eq_refl) as (_ & _ & ->). subst t. apply app_nil_r.
      * destruct ok.
        -- destruct (cache_hit w _ s0) as [entry|] eqn:Eh; [|congruence].
           destruct (Hh entry eq_refl eq_refl) as (_ & _ & ->).
           subst t. apply app_nil_r.
        -- destruct (Hf eq_refl) as (_ & _ & ->). subst t. apply app_nil_r.
      * destruct (search_emails_of_no_mailbox _ _ _ _ _ _ _ _ H Hno)
          as (s0' & ok' & He').
        rewrite He in He'. inversion He'. reflexivity.
    + intros -> Hmiss ->. destruct (w_default_folder w) as [inbox|ex] eqn:Ed.
      * eapply search_emails_opens_default_folder; eauto.
      * eapply search_emails_default_folder_raises; eauto.
Qed.

Lemma nonpositive_cap_runs_no_query_witness :
  max_search_results Examples.zero_config <= 0 /\
  Forall (fun e => ~ is_restrict e)
    (snd (fst (search_emails Examples.zero_config
                 (Examples.world_of [Some Examples.order_item] []) "Order"
                 true true (init Examples.zero_config)))) /\
  snd (fst (search_emails Examples.zero_config
              (Examples.world_of [Some Examples.order_item] []) "Order"
              false true (init Examples.zero_config)))
  = [EvConnect 0].
Proof.
  split; [vm_compute; discriminate|]. split.
  - refine (proj1 (proj2
      (nonpositive_cap_runs_no_query Examples.zero_config
         (Examples.world_of [Some Examples.order_item] []) "Order" true true
         (init Examples.zero_config)
         (fst (fst (search_emails Examples.zero_config
                      (Examples.world_of [Some Examples.order_item] [])
                      "Order" true true (init Examples.zero_config))))
         (snd (fst (search_emails Examples.zero_config
                      (Examples.world_of [Some Examples.order_item] [])
                      "Order" true true (init Examples.zero_config))))
         (snd (search_emails Examples.zero_config
                 (Examples.world_of [Some Examples.order_item] [])
                 "Order" true true (init Examples.zero_config)))
         _ _ _))).
    + vm_compute. discriminate.
    + apply reach_init.
    + vm_compute. reflexivity.
  - destruct (proj2 (proj2 (proj2
      (nonpositive_cap_runs_no_query Examples.zero_config
         (Examples.world_of [Some Examples.order_item] []) "Order" false true
         (init Examples.zero_config)
         (fst (fst (search_emails Examples.zero_config
                      (Examples.world_of [Some Examples.order_item] [])
                      "Order" false true (init Examples.zero_config))))
         (snd (fst (search_emails Examples.zero_config
                      (Examples.world_of [Some Examples.order_item] [])
                      "Order" false true (init Examples.zero_config))))
         (snd (search_emails Examples.zero_config
                 (Examples.world_of [Some Examples.order_item] [])
                 "Order" false true (init Examples.zero_config)))
         ltac:(vm_compute; discriminate) (reach_init _) eq_refl))))
      as (s0 & t0 & ok & He & _ & Hsame & _).
    rewrite (Hsame (or_intror (or_intror (conj eq_refl eq_refl)))).
    vm_compute in He. injection He as _ <- _. reflexivity.
Defined.

(** ** The cache-hit path *)




Lemma reachable_after_searches cfg w ip ish (texts : list nat) : forall s,
  reachable cfg s ->
  reachable cfg
    (fold_left
       (fun s n =>
          fst (fst (search_emails cfg w
                      ("q" ++ str_int (Z.of_nat n))%string ip ish s)))
       texts s).
Proof.
  induction texts as [|n r IH]; intros s Hs; cbn [fold_left]; [exact Hs|].
  apply IH.
  destruct (search_emails cfg w ("q" ++ str_int (Z.of_nat n))%string ip ish s)
    as [[s1 t1] r1] eqn:E.
  cbn [fst]. exact (reach_search cfg w _ ip ish s s1 t1 r1 Hs E).
Qed.

(** The proviso of C1 on the clock is needed: when the cache is full and
    the clock has been set back behind its entries, the entry just stored
    is the oldest and is evicted at once, so the same request runs its
    queries again. *)
Lemma clock_set_back_evicts_new_entry :
  reachable Examples.plain_config Examples.busy_client /\
  let w := Examples.world_of [Some Examples.order_item] [] in
  let first := search_emails Examples.plain_config w "Order" true false
                 Examples.busy_client in
  exists l,
    snd first = Ok l /\ l <> [] /\
    List.length (_search_cache Examples.busy_client) = 100%nat /\
    In (EvRestrict "Inbox" (dasl_filter "Order"))
       (snd (fst (search_emails Examples.plain_config w "Order" true false
                    (fst (fst first))))).
Proof.
  split; [apply reachable_after_searches, reach_init|].
  eexists. split; [vm_compute; reflexivity|]. split; [discriminate|].
  split; [vm_compute; reflexivity|].
  vm_compute. auto 10.
Qed.



(** ** Participants: the table as a fold over touches *)

Lemma touch_entries_as_fold role entries : forall stats,
  rfold (touch_entry role) entries stats =
  (tt <-? rmap (entry_touches role) entries ;;
   Ok (fold_left apply_touch (List.concat tt) stats)).
Proof.
  induction entries as [|entry rest IH]; intros stats; simpl; [reflexivity|].
  unfold touch_entry at 1, entry_touches at 1.
  destruct (lower_key _ _) as [k|e]; simpl; [|reflexivity].
  destruct (negb (String.eqb k "")); simpl; rewrite IH;
    destruct (rmap (entry_touches role) rest); reflexivity.
Qed.

Lemma touch_email_as_fold stats email :
  touch_email stats email =
  (ts <-? email_touches email ;; Ok (fold_left apply_touch ts stats)).
Proof.
  unfold touch_email, email_touches.
  destruct (lower_key _ _) as [key|e]; simpl; [|reflexivity].
  destruct (iter_entries (to_recipients email)) as [tos|e]; simpl; [|reflexivity].
  rewrite touch_entries_as_fold.
  destruct (rmap (entry_touches RTo) tos) as [tt|e]; simpl; [|reflexivity].
  destruct (iter_entries (cc_recipients email)) as [ccs|e]; simpl; [|reflexivity].
  rewrite touch_entries_as_fold.
  destruct (rmap (entry_touches RCc) ccs) as [ct|e]; simpl; [|reflexivity].
  rewrite fold_left_app. reflexivity.
Qed.

Lemma participant_stats_as_fold emails : forall stats,
  rfold touch_email emails stats =
  (tss <-? rmap email_touches emails ;;
   Ok (fold_left apply_touch (List.concat tss) stats)).
Proof.
  induction emails as [|email rest IH]; intros stats; simpl; [reflexivity|].
  rewrite touch_email_as_fold.
  destruct (email_touches email) as [ts|e]; simpl; [|reflexivity].
  rewrite IH. destruct (rmap email_touches rest) as [tss|e]; simpl;
    [|reflexivity].
  rewrite fold_left_app. reflexivity.
Qed.



Lemma lower_key_wf e n k :
  lower_key e n = Ok k -> exists s, or_str e n = Some s /\ k = lower s.
Proof.
  unfold lower_key. destruct (or_str e n) as [s|]; [|discriminate].
  intros H; inversion H. eauto.
Qed.

Lemma entry_touches_wf role entries : forall tt,
  rmap (entry_touches role) entries = Ok tt -> Forall touch_wf (List.concat tt).
Proof.
  induction entries as [|entry rest IH]; intros tt H; simpl in H.
  - inversion H; subst. constructor.
  - unfold entry_touches at 1 in H.
    destruct (lower_key _ _) as [k|e] eqn:Ek; simpl in H; [|discriminate].
    apply lower_key_wf in Ek.
    destruct (negb (String.eqb k "")); simpl in H;
      destruct (rmap (entry_touches role) rest) as [tr|e]; simpl in H;
      try discriminate; inversion H; subst; simpl;
      try constructor; try (apply IH; reflexivity).
    exact Ek.
Qed.

Lemma email_touches_wf emails : forall tss,
  rmap email_touches emails = Ok tss -> Forall touch_wf (List.concat tss).
Proof.
  induction emails as [|email rest IH]; intros tss H; simpl in H.
  - inversion H; subst. constructor.
  - destruct (email_touches email) as [ts|e] eqn:Et; simpl in H; [|discriminate].
    destruct (rmap email_touches rest) as [tr|e]; simpl in H; [|discriminate].
    inversion H; subst. simpl. apply Forall_app. split; [|apply IH; reflexivity].
    unfold email_touches in Et.
    destruct (lower_key _ _) as [key|e] eqn:Ek; simpl in Et; [|discriminate].
    destruct (iter_entries (to_recipients email)) as [tos|e]; simpl in Et;
      [|discriminate].
    destruct (rmap (entry_touches RTo) tos) as [tt|e] eqn:E1; simpl in Et;
      [|discriminate].
    destruct (iter_entries (cc_recipients email)) as [ccs|e]; simpl in Et;
      [|discriminate].
    destruct (rmap (entry_touches RCc) ccs) as [ct|e] eqn:E2; simpl in Et;
      [|discriminate].
    inversion Et; subst. constructor.
    + apply lower_key_wf in Ek. exact Ek.
    + apply Forall_app. split; eapply entry_touches_wf; eassumption.
Qed.

(** ** Participants: what the table holds after a sequence of touches *)

Lemma has_key_In {V} k (d : list (string * V)) :
  has_key k d = true <-> In k (map fst d).
Proof.
  induction d as [|[k' v] r IH]; simpl; [split; [discriminate|tauto]|].
  rewrite orb_true_iff, IH, String.eqb_eq. split; intros [H|H]; auto.
Qed.

Lemma update_keys {V} k (f : V -> V) d : map fst (update k f d) = map fst d.
Proof.
  induction d as [|[k' v] r IH]; simpl; [reflexivity|].
  destruct (String.eqb k k'); simpl; congruence.
Qed.

Lemma update_In {V} k (f : V -> V) d k' v' :
  NoDup (map fst d) -> In (k', v') (update k f d) ->
  (k' = k /\ exists v, In (k, v) d /\ v' = f v) \/ (k' <> k /\ In (k', v') d).
Proof.
  induction d as [|[k0 v0] r IH]; simpl; [tauto|].
  intros Hnd Hin. inversion Hnd as [|x xs Hnot Hrest]; subst.
  destruct (String.eqb k k0) eqn:E.
  - apply String.eqb_eq in E. subst k0. destruct Hin as [Hin|Hin].
    + inversion Hin; subst. left. split; [reflexivity|]. exists v0. auto.
    + right. split; [|auto]. intros ->. apply Hnot.
      apply in_map_iff. exists (k, v'). auto.
  - apply String.eqb_neq in E. destruct Hin as [Hin|Hin].
    + inversion Hin; subst. right. split; [congruence|auto].
    + destruct (IH Hrest Hin) as [(-> & v & Hv & ->)|(Hne & Hv)].
      * left. split; [reflexivity|]. exists v. auto.
      * right. auto.
Qed.

Lemma occurrences_app role k ts t :
  occurrences role k (ts ++ [t]) =
  (occurrences role k ts +
   (if String.eqb (t_key t) k && role_eqb (t_role t) role then 1 else 0))%nat.
Proof.
  unfold occurrences. rewrite filter_app, length_app. simpl.
  destruct (String.eqb (t_key t) k && role_eqb (t_role t) role); reflexivity.
Qed.

Lemma occurrences_absent role k ts :
  ~ In k (map t_key ts) -> occurrences role k ts = 0%nat.
Proof.
  unfold occurrences. induction ts as [|t r IH]; simpl; [reflexivity|].
  intros H. destruct (String.eqb (t_key t) k) eqn:E.
  - apply String.eqb_eq in E. tauto.
  - simpl. apply IH. tauto.
Qed.

Lemma count_of_refresh role n e r i :
  count_of role (refresh n e r i) =
  (count_of role i + (if role_eqb r role then 1 else 0))%nat.
Proof.
  unfold refresh.
  destruct (truthy_str e && negb (truthy_str (i_email (bump r i))));
    destruct (truthy_str n && _); destruct r, role; simpl; lia.
Qed.

Lemma refresh_key_source n e r i k s :
  or_str e n = Some s -> k = lower s ->
  k = key_source (i_name i) (i_email i) ->
  k = key_source (i_name (refresh n e r i)) (i_email (refresh n e r i)).
Proof.
  intros Hs Hk Hi. unfold refresh.
  assert (Hbn : i_name (bump r i) = i_name i) by (destruct r; reflexivity).
  assert (Hbe : i_email (bump r i) = i_email i) by (destruct r; reflexivity).
  unfold key_source, or_str in *.
  destruct (truthy_str e) eqn:Te;
    destruct (truthy_str (i_email (bump r i))) eqn:Tb; simpl;
    rewrite ?Hbn, ?Hbe in *;
    destruct (truthy_str n && (negb (truthy_str (i_name i))
                               || is_unknown (i_name i))) eqn:Tn;
    simpl; rewrite ?Hbn, ?Hbe, ?Te, ?Tb in *; rewrite ?Hs; auto.
Qed.

Lemma stats_inv_nil : stats_inv [] [].
Proof. repeat split; try constructor; intros; contradiction. Qed.

Lemma stats_inv_step ts stats t :
  stats_inv ts stats -> touch_wf t ->
  stats_inv (ts ++ [t]) (apply_touch stats t).
Proof.
  intros (Hnd & Hent & Hkeys) (s & Hs & Hk).
  unfold apply_touch, _touch.
  set (k := t_key t) in *.
  set (stats1 := if has_key k stats then stats
                 else stats ++ [(k, mkInfo (t_name t) (t_email t) 0 0 0)]).
  assert (Hnd1 : NoDup (map fst stats1)).
  { unfold stats1. destruct (has_key k stats) eqn:E; [exact Hnd|].
    rewrite map_app. simpl. apply NoDup_app; [exact Hnd|repeat constructor; auto|].
    intros a Ha [<-|[]]. apply has_key_In in Ha. congruence. }
  assert (Hk1 : In k (map fst stats1)).
  { unfold stats1. destruct (has_key k stats) eqn:E; [apply has_key_In, E|].
    rewrite map_app. apply in_or_app. right. simpl. auto. }
  assert (Hsub : forall x, In x (map fst stats) -> In x (map fst stats1)).
  { unfold stats1. destruct (has_key k stats); [auto|].
    intros x Hx. rewrite map_app. apply in_or_app. auto. }
  assert (Hent1 : forall k' i, In (k', i) stats1 ->
            In (k', i) stats \/
            (k' = k /\ i = mkInfo (t_name t) (t_email t) 0 0 0 /\
             ~ In k (map fst stats))).
  { unfold stats1. destruct (has_key k stats) eqn:E; [auto|].
    intros k' i Hin. apply in_app_or in Hin. destruct Hin as [Hin|[Hin|[]]];
      [auto|]. inversion Hin; subst. right. repeat split.
    intros Hc. apply has_key_In in Hc. congruence. }
  repeat split.
  - rewrite update_keys. exact Hnd1.
  - destruct (update_In _ _ _ _ _ Hnd1 H) as [(-> & i0 & Hi0 & ->)|(Hne & Hi0)].
    + intros role. rewrite count_of_refresh, occurrences_app. fold k.
      rewrite String.eqb_refl. simpl.
      destruct (Hent1 _ _ Hi0) as [Hold|(_ & -> & Hnew)].
      * destruct (Hent _ _ Hold) as (Hc & _). rewrite Hc. reflexivity.
      * rewrite occurrences_absent.
        -- destruct role; reflexivity.
        -- intros Hc. apply Hnew. apply in_map_iff in Hc.
           destruct Hc as (t' & <- & Ht'). apply Hkeys. exact Ht'.
    + intros role. rewrite occurrences_app. fold k.
      destruct (String.eqb k k0) eqn:E;
        [apply String.eqb_eq in E; congruence|]. simpl.
      destruct (Hent1 _ _ Hi0) as [Hold|(Heq & _)]; [|congruence].
      destruct (Hent _ _ Hold) as (Hc & _). rewrite Hc. lia.
  - destruct (update_In _ _ _ _ _ Hnd1 H) as [(-> & i0 & Hi0 & ->)|(Hne & Hi0)].
    + eapply refresh_key_source; [exact Hs|exact Hk|].
      destruct (Hent1 _ _ Hi0) as [Hold|(_ & -> & _)].
      * apply (Hent _ _ Hold).
      * simpl. unfold key_source. rewrite Hs. exact Hk.
    + destruct (Hent1 _ _ Hi0) as [Hold|(Heq & _)]; [|congruence].
      apply (Hent _ _ Hold).
  - rewrite map_app. apply in_or_app.
    destruct (update_In _ _ _ _ _ Hnd1 H) as [(-> & _)|(Hne & Hi0)].
    + right. simpl. auto.
    + destruct (Hent1 _ _ Hi0) as [Hold|(Heq & _)]; [|congruence].
      left. apply (Hent _ _ Hold).
  - intros t' Ht'. rewrite update_keys. apply in_app_or in Ht'.
    destruct Ht' as [Ht'|[<-|[]]]; [|exact Hk1].
    apply Hsub, Hkeys, Ht'.
Qed.

Lemma stats_inv_fold ts : forall pre stats,
  stats_inv pre stats -> Forall touch_wf ts ->
  stats_inv (pre ++ ts) (fold_left apply_touch ts stats).
Proof.
  induction ts as [|t r IH]; intros pre stats Hi Hw; simpl.
  - rewrite app_nil_r. exact Hi.
  - inversion Hw; subst.
    replace (pre ++ t :: r) with ((pre ++ [t]) ++ r)
      by (rewrite <- app_assoc; reflexivity).
    apply IH; [apply stats_inv_step; assumption|assumption].
Qed.

(** ** Participants: the ranking *)




(** Sorting by a count never raises and yields a descending list. *)
Lemma insert_desc_nat {A} (x : A * nat) l :
  exists l', insert_desc nat_lt x l = Ok l' /\
    (StronglySorted (fun a b => (snd b <= snd a)%nat) l ->
     StronglySorted (fun a b => (snd b <= snd a)%nat) l').
Proof.
  induction l as [|y r IH]; simpl.
  - eexists. split; [reflexivity|]. intros _. repeat constructor.
  - destruct (snd x <? snd y)%nat eqn:E.
    + destruct IH as (r' & Hr & Hs). rewrite Hr. simpl.
      eexists. split; [reflexivity|].
      intros Hss. inversion Hss as [|a b Hsr Hall]; subst.
      constructor; [auto|].
      apply insert_desc_perm in Hr.
      eapply Permutation_Forall; [exact Hr|].
      constructor; [|exact Hall]. apply Nat.ltb_lt in E. lia.
    + eexists. split; [reflexivity|]. intros Hss.
      constructor; [exact Hss|].
      apply Nat.ltb_ge in E. inversion Hss as [|a b Hsr Hall]; subst.
      constructor; [exact E|].
      eapply Forall_impl; [|exact Hall]. simpl. intros z Hz. lia.
Qed.

Lemma sort_keyed_nat_desc {A} (l : list (A * nat)) :
  exists s, sort_keyed nat_lt true l = Ok s /\
            StronglySorted (fun a b => (snd b <= snd a)%nat) s.
Proof.
  induction l as [|x r IH]; simpl.
  - exists []. split; [reflexivity|constructor].
  - destruct IH as (s & Hs & Hss). rewrite Hs. simpl.
    destruct (insert_desc_nat x s) as (s' & Hi & Hs'). eauto.
Qed.

Lemma sorted_by_count {A} (f : A -> nat) (l : list A) :
  exists s, sorted nat_lt (fun x => Ok (f x)) true l = Ok s /\
            Permutation l s /\
            StronglySorted (fun a b => (f b <= f a)%nat) s.
Proof.
  unfold sorted.
  assert (Hk : rmap (fun a => k <-? Ok (f a) ;; Ok (a, k)) l
               = Ok (map (fun a => (a, f a)) l)).
  { induction l as [|a r IH]; simpl in *; [reflexivity|]. rewrite IH. reflexivity. }
  rewrite Hk. simpl.
  destruct (sort_keyed_nat_desc (map (fun a => (a, f a)) l)) as (s & Hs & Hss).
  rewrite Hs. simpl. exists (map fst s). split; [reflexivity|].
  pose proof (sort_keyed_perm _ _ _ _ Hs) as Hp.
  split.
  - replace l with (map fst (map (fun a => (a, f a)) l)) at 1
      by (rewrite map_map; simpl; apply map_id).
    apply Permutation_map. exact Hp.
  - assert (Hf : Forall (fun ak => snd ak = f (fst ak)) s).
    { eapply Permutation_Forall; [exact Hp|].
      apply Forall_forall. intros x Hx. apply in_map_iff in Hx.
      destruct Hx as (a & <- & _). reflexivity. }
    clear - Hss Hf. induction Hss as [|a r Hr IH Hall]; simpl; [constructor|].
    inversion Hf as [|x xs Ha Hrest]; subst. constructor; [auto|].
    rewrite Forall_forall in *. intros b Hb. apply in_map_iff in Hb.
    destruct Hb as (y & <- & Hy). rewrite <- Ha, <- (Hrest y Hy).
    apply Hall, Hy.
Qed.


Lemma ranked_participants_spec emails tss :
  rmap email_touches emails = Ok tss ->
  exists all,
    ranked_participants emails = Ok all /\
    Permutation
      (map entry_profile (fold_left apply_touch (List.concat tss) []))
      (map profile all) /\
    NoDup (map fst (map profile all)) /\
    StronglySorted
      (fun a b => (participation_count b <= participation_count a)%nat) all /\
    Forall (fun p => (sent p + to_count p + cc_count p)%nat
                     = participation_count p
                     /\ participation_count p = profile_total (profile p)) all.
Proof.
  intros Ht. unfold ranked_participants, participant_stats.
  rewrite participant_stats_as_fold, Ht. simpl.
  set (stats := fold_left apply_touch (List.concat tss) []).
  assert (Hinv : stats_inv (List.concat tss) stats).
  { apply (stats_inv_fold (List.concat tss) [] []);
      [apply stats_inv_nil|eapply email_touches_wf; exact Ht]. }
  destruct (sorted_by_count info_total (map snd stats)) as (ranked & Hs & Hp & Hss).
  rewrite Hs. simpl. exists (map to_participant ranked).
  split; [reflexivity|].
  assert (Hprof : Permutation (map entry_profile stats)
                              (map profile (map to_participant ranked))).
  { replace (map entry_profile stats)
      with (map profile (map to_participant (map snd stats))).
    - apply Permutation_map, Permutation_map. exact Hp.
    - rewrite !map_map. apply map_ext_in. intros [k i] Hin.
      destruct Hinv as (_ & He & _). destruct (He _ _ Hin) as (_ & Hk & _).
      unfold profile, entry_profile, participant_key. simpl. rewrite <- Hk.
      reflexivity. }
  split; [exact Hprof|]. split.
  { eapply Permutation_NoDup; [apply Permutation_map; exact Hprof|].
    rewrite map_map. simpl. apply Hinv. }
  split.
  { clear - Hss. induction Hss as [|a r Hr IH Hall]; simpl; constructor; auto.
    rewrite Forall_forall in *. intros b Hb. apply in_map_iff in Hb.
    destruct Hb as (y & <- & Hy). simpl. apply (Hall y Hy). }
  apply Forall_forall. intros p Hp'. apply in_map_iff in Hp'.
  destruct Hp' as (i & <- & _). split; reflexivity.
Qed.

Lemma ranked_participants_inv emails all :
  ranked_participants emails = Ok all ->
  exists tss, rmap email_touches emails = Ok tss.
Proof.
  unfold ranked_participants, participant_stats.
  rewrite participant_stats_as_fold.
  destruct (rmap email_touches emails) as [tss|e]; simpl; [eauto|discriminate].
Qed.


Lemma get_participants_inv l ps :
  get_participants l = Ok ps ->
  exists all, ranked_participants l = Ok all /\ ps = firstn 20 all.
Proof.
  unfold get_participants. generalize 20%nat. intros n.
  destruct (ranked_participants l) as [all|e]; simpl; intros H;
    [|discriminate].
  exists all. split; [reflexivity|]. congruence.
Qed.

Lemma get_participants_intro l all :
  ranked_participants l = Ok all -> get_participants l = Ok (firstn 20 all).
Proof. unfold get_participants. intros ->. reflexivity. Qed.

(** ** Ranking of participants under reordering *)




(** ** Searches with a placeholder shared mailbox *)

(** X20: with a placeholder (or empty) shared mailbox address no search,
    in any reachable state, creates or resolves a shared recipient or opens
    a shared default folder. *)
Lemma search_with_placeholder_leaves_shared_mailbox_alone
  cfg w txt ip ish s s' t r :
  _shared_mailbox_configured cfg = false ->
  reachable cfg s ->
  search_emails cfg w txt ip ish s = (s', t, r) ->
  Forall (fun e => ~ is_shared_access e) t.
Proof.
  intros Hn Hr H. destruct (reachable_cache _ _ Hr) as [Hc _].
  destruct (search_emails_spec _ _ _ _ _ _ _ _ _ H Hc)
    as (s0 & t0 & ok & t1 & He & -> & _ & _ & _ & Hs & _).
  destruct (ensure_connected_spec w s)
    as (s0' & t0' & ok' & He' & _ & Fc & _).
  rewrite He in He'. injection He' as <- <- <-.
  apply Forall_app. split; [|apply Hs, Hn].
  eapply Forall_impl; [|exact Fc]. intros [] K; simpl in *; tauto.
Qed.

Lemma search_with_placeholder_leaves_shared_mailbox_alone_witness :
  Forall (fun e => ~ is_shared_access e)
    (snd (fst (search_emails Examples.placeholder_config Examples.overlap_world
                 "Order" true true (init Examples.placeholder_config)))).
Proof.
  apply (search_with_placeholder_leaves_shared_mailbox_alone
           Examples.placeholder_config Examples.overlap_world "Order" true true
           (init Examples.placeholder_config)
           (fst (fst (search_emails Examples.placeholder_config
                        Examples.overlap_world "Order" true true
                        (init Examples.placeholder_config))))
           (snd (fst (search_emails Examples.placeholder_config
                        Examples.overlap_world "Order" true true
                        (init Examples.placeholder_config))))
           (snd (search_emails Examples.placeholder_config
                   Examples.overlap_world "Order" true true
                   (init Examples.placeholder_config))));
    [vm_compute; reflexivity|constructor|].
  destruct (search_emails _ _ _ _ _ _) as [[s t] r]. reflexivity.
Defined.

(** ** Order of the lists that are returned *)

(** X21: whenever [search_emails] does return a list, in any reachable
    state, the list is ordered most recent first: all its received times
    are of one kind (all naive or all aware) and none is older than a later
    one. *)
Lemma search_results_newest_first cfg w txt ip ish s s' t l :
  reachable cfg s ->
  search_emails cfg w txt ip ish s = (s', t, Ok l) ->
  newest_first l.
Proof.
  intros Hr H. destruct (reachable_cache _ _ Hr) as [Hc _].
  destruct (search_emails_spec _ _ _ _ _ _ _ _ _ H Hc)
    as (s0 & t0 & ok & t1 & _ & _ & _ & Hres & _).
  apply (Hres l eq_refl).
Qed.

Lemma search_results_newest_first_witness :
  exists l,
    snd (search_emails Examples.shared_config Examples.overlap_world "Order"
           true true (init Examples.shared_config)) = Ok l /\
    List.length l = 2%nat /\ newest_first l.
Proof.
  eexists. split; [vm_compute; reflexivity|]. split; [reflexivity|].
  eapply (search_results_newest_first Examples.shared_config
            Examples.overlap_world "Order" true true
            (init Examples.shared_config)); [constructor|].
  vm_compute. reflexivity.
Defined.

(* ================================================================== *)
(** * Further properties of the formatter *)
(* ================================================================== *)

(** ** get_mailbox_distribution *)

Lemma distribution_counts emails : forall d0,
  fold_left (fun d email =>
    match get (mailbox_type email) (Some "unknown") with
    | Some m =>
        if String.eqb m "personal" then mkDist (S (d_personal d)) (d_shared d) (d_unknown d)
        else if String.eqb m "shared" then mkDist (d_personal d) (S (d_shared d)) (d_unknown d)
        else mkDist (d_personal d) (d_shared d) (S (d_unknown d))
    | None => mkDist (d_personal d) (d_shared d) (S (d_unknown d))
    end) emails d0 =
  mkDist (d_personal d0 + List.length (filter (counted_as "personal") emails))
         (d_shared d0 + List.length (filter (counted_as "shared") emails))
         (d_unknown d0 + List.length (filter (counted_as "unknown") emails)).
Proof.
  induction emails as [|r rest IH]; intros d0; simpl.
  - destruct d0; simpl. f_equal; lia.
  - rewrite IH. unfold counted_as.
    destruct (get (mailbox_type r) (Some "unknown")) as [m|]; simpl;
      [destruct (String.eqb m "personal"); [|destruct (String.eqb m "shared")]|];
      simpl; f_equal; lia.
Qed.

Lemma filter_length_perm {A} (f : A -> bool) l l' :
  Permutation l l' -> List.length (filter f l) = List.length (filter f l').
Proof.
  induction 1 as [|x l l' Hp IH|x y l|l l' l'' H1 IH1 H2 IH2]; simpl.
  - reflexivity.
  - destruct (f x); simpl; congruence.
  - destruct (f x), (f y); reflexivity.
  - congruence.
Qed.

Lemma counted_as_exactly_one r :
  (counted_as "personal" r = true /\ counted_as "shared" r = false /\
   counted_as "unknown" r = false) \/
  (counted_as "personal" r = false /\ counted_as "shared" r = true /\
   counted_as "unknown" r = false) \/
  (counted_as "personal" r = false /\ counted_as "shared" r = false /\
   counted_as "unknown" r = true).
Proof.
  unfold counted_as.
  destruct (get (mailbox_type r) (Some "unknown")) as [m|];
    [destruct (String.eqb m "personal"); [|destruct (String.eqb m "shared")]|];
    simpl; auto.
Qed.

(** X1: the three counters of [get_mailbox_distribution] add up to the
    number of records: every record is counted exactly once, under
    "personal", "shared" or (any other tag, None, no tag) "unknown"; and
    the distribution does not depend on the order of the records. *)
Theorem mailbox_distribution_counts_every_record emails :
  (d_personal (get_mailbox_distribution emails)
   + d_shared (get_mailbox_distribution emails)
   + d_unknown (get_mailbox_distribution emails))%nat = List.length emails /\
  d_personal (get_mailbox_distribution emails)
    = List.length (filter (counted_as "personal") emails) /\
  d_shared (get_mailbox_distribution emails)
    = List.length (filter (counted_as "shared") emails) /\
  (forall emails', Permutation emails emails' ->
     get_mailbox_distribution emails' = get_mailbox_distribution emails).
Proof.
  unfold get_mailbox_distribution. rewrite distribution_counts. simpl.
  split; [|split; [reflexivity|split; [reflexivity|]]].
  - induction emails as [|r rest IH]; [reflexivity|].
    cbn [filter List.length].
    destruct (counted_as_exactly_one r) as [(-> & -> & ->)|[(-> & -> & ->)|(-> & -> & ->)]];
      cbn [List.length]; lia.
  - intros emails' Hp. rewrite distribution_counts. simpl.
    rewrite !(filter_length_perm _ _ _ Hp). reflexivity.
Qed.

(** ** get_date_range *)

Lemma list_min_spec l : forall x,
  list_min x l <= x /\ Forall (fun y => list_min x l <= y) l /\
  In (list_min x l) (x :: l).
Proof.
  unfold list_min. induction l as [|a r IH]; intros x; simpl.
  - split; [lia|]. split; [constructor|auto].
  - destruct (IH (Z.min x a)) as (H1 & H2 & H3).
    split; [lia|]. split.
    + constructor; [lia|exact H2].
    + destruct H3 as [H3|H3]; [|auto].
      rewrite <- H3. destruct (Z.min_spec x a) as [[_ ->]|[_ ->]]; auto.
Qed.

Lemma list_max_spec l : forall x,
  x <= list_max x l /\ Forall (fun y => y <= list_max x l) l /\
  In (list_max x l) (x :: l).
Proof.
  unfold list_max. induction l as [|a r IH]; intros x; simpl.
  - split; [lia|]. split; [constructor|auto].
  - destruct (IH (Z.max x a)) as (H1 & H2 & H3).
    split; [lia|]. split.
    + constructor; [lia|exact H2].
    + destruct H3 as [H3|H3]; [|auto].
      rewrite <- H3. destruct (Z.max_spec x a) as [[_ ->]|[_ ->]]; auto.
Qed.

Lemma rmap_raises {A B} (f : A -> Result B) e0 l :
  (forall a, In a l -> (exists b, f a = Ok b) \/ f a = Raise e0) ->
  Exists (fun a => f a = Raise e0) l -> rmap f l = Raise e0.
Proof.
  intros Hf. induction 1 as [a r Ha|a r Hr IH]; simpl.
  - rewrite Ha. reflexivity.
  - destruct (Hf a (or_introl eq_refl)) as [(b & ->)| ->]; [|reflexivity].
    simpl. rewrite IH; [reflexivity|]. intros x Hx. apply Hf. right. exact Hx.
Qed.

Lemma rmap_all_ok {A B} (f : A -> Result B) (g : A -> B) l :
  Forall (fun a => f a = Ok (g a)) l -> rmap f l = Ok (map g l).
Proof.
  induction 1 as [|a r Ha Hr IH]; simpl; [reflexivity|].
  rewrite Ha, IH. reflexivity.
Qed.

Lemma normalize_cases dt :
  (normalisable dt = true /\ _normalize_dt (Some dt) = Ok (Naive (utc_us dt))) \/
  (normalisable dt = false /\ _normalize_dt (Some dt) = Raise overflow_in_date).
Proof.
  destruct dt as [t|t o]; simpl; [left; auto|].
  unfold astimezone_utc. destruct (in_datetime_range t); [left|right]; auto.
Qed.

Lemma time_ok_dec r : {time_ok r} + {~ time_ok r}.
Proof.
  unfold time_ok. destruct (get (received_time r) None) as [dt|]; [|left; exact I].
  destruct (normalisable dt); [left; reflexivity|right; discriminate].
Qed.

Lemma date_range_times emails :
  map utc_us
      (flat_map (fun email =>
                   match get (received_time email) None with
                   | Some dt => [dt]
                   | None => []
                   end) emails)
  = present_times emails.
Proof.
  unfold present_times. induction emails as [|r rest IH]; [reflexivity|].
  cbn [flat_map]. rewrite map_app, IH.
  destruct (get (received_time r) None) as [[t|t o]|]; reflexivity.
Qed.

Lemma date_range_cases emails :
  (Forall time_ok emails ->
   get_date_range emails
   = Ok (match present_times emails with
         | [] => mkRange None None
         | t :: ts => mkRange (Some (Iso (Naive (list_min t ts))))
                              (Some (Iso (Naive (list_max t ts))))
         end)) /\
  (~ Forall time_ok emails -> get_date_range emails = Raise overflow_in_date).
Proof.
  unfold get_date_range.
  set (dates := flat_map (fun email =>
                   match get (received_time email) None with
                   | Some dt => [dt]
                   | None => []
                   end) emails).
  assert (Hd : Forall time_ok emails <->
               Forall (fun d => normalisable d = true) dates).
  { unfold dates. induction emails as [|r rest IH]; cbn [flat_map].
    - split; constructor.
    - rewrite Forall_app, Forall_cons_iff.
      assert (Hr : time_ok r <->
                   Forall (fun d => normalisable d = true)
                     match get (received_time r) None with
                     | Some dt => [dt]
                     | None => []
                     end).
      { unfold time_ok. destruct (get (received_time r) None) as [dt|].
        - split; [intros H; repeat constructor; exact H
                 |intros H; inversion H; assumption].
        - split; [constructor|auto]. }
      split; (intros [A B]; split; [apply Hr, A|apply IH, B]). }
  split.
  - intros H. apply Hd in H.
    rewrite (rmap_all_ok _ (fun d => Naive (utc_us d))).
    + cbn [rbind]. rewrite map_map. cbn [utc_us].
      change (map (fun x => utc_us x) dates) with (map utc_us dates).
      unfold dates. rewrite date_range_times.
      destruct (present_times emails); reflexivity.
    + eapply Forall_impl; [|exact H]. intros d Hn.
      destruct (normalize_cases d) as [[_ E]|[E _]]; [exact E|congruence].
  - intros H. rewrite (rmap_raises _ overflow_in_date); [reflexivity| |].
    + intros d _. destruct (normalize_cases d) as [[_ E]|[_ E]]; eauto.
    + apply Exists_exists.
      destruct (Forall_Exists_dec (fun d => normalisable d = true)
                  (fun d => Bool.bool_dec (normalisable d) true) dates)
        as [Hf|He]; [exfalso; apply H, Hd, Hf|].
      apply Exists_exists in He. destruct He as (d & Hin & Hn).
      exists d. split; [exact Hin|].
      destruct (normalize_cases d) as [[E _]|[_ E]]; [contradiction|exact E].
Qed.

(** X2: [get_date_range] raises exactly when some record carries an aware
    received time whose UTC instant lies outside datetime's range, and then
    OverflowError.  Otherwise it answers (None, None) exactly when no
    record has a received time, and else "first" and "last" are the least
    and the greatest normalised received time among the records: both
    occur in the input, first <= last, and every timestamp lies between
    them, whatever mix of naive and aware timestamps the records carry. *)
Theorem date_range_bounds_all_timestamps emails :
  (Forall time_ok emails ->
   (present_times emails = [] /\
    get_date_range emails = Ok (mkRange None None)) \/
   (exists lo hi,
      get_date_range emails
        = Ok (mkRange (Some (Iso (Naive lo))) (Some (Iso (Naive hi)))) /\
      lo <= hi /\
      In lo (present_times emails) /\ In hi (present_times emails) /\
      Forall (fun t => lo <= t <= hi) (present_times emails))) /\
  (~ Forall time_ok emails ->
   get_date_range emails = Raise (mkExn OverflowError "date value out of range")).
Proof.
  destruct (date_range_cases emails) as [Hok Hraise].
  split; [|exact Hraise]. intros H. rewrite (Hok H).
  destruct (present_times emails) as [|t ts]; [left; auto|right].
  destruct (list_min_spec ts t) as (A1 & A2 & A3).
  destruct (list_max_spec ts t) as (B1 & B2 & B3).
  exists (list_min t ts), (list_max t ts).
  split; [reflexivity|]. split; [lia|]. split; [exact A3|]. split; [exact B3|].
  constructor; [lia|]. rewrite Forall_forall in *. intros y Hy.
  specialize (A2 y Hy). specialize (B2 y Hy). lia.
Qed.

Lemma date_range_bounds_all_timestamps_witness :
  get_date_range Examples.order_thread
  = Ok (mkRange (Some (Iso (Naive 63800000000000000)))
                (Some (Iso (Naive 63800000001000000)))) /\
  get_date_range [Examples.extracted "Order" "ann@corp.test"
                    (Aware (-1800000000) 30)]
  = Raise (mkExn OverflowError "date value out of range").
Proof.
  split.
  - destruct (proj1 (date_range_bounds_all_timestamps Examples.order_thread))
      as [[Hn _]|(lo & hi & H & _)].
    + repeat constructor.
    + discriminate Hn.
    + rewrite H. vm_compute in H. injection H as <- <-. reflexivity.
  - apply (proj2 (date_range_bounds_all_timestamps _)).
    intros H. inversion H as [|x xs Hx _]; subst. discriminate Hx.
Defined.

(** ** group_by_conversation *)

Lemma dict_append_keys {V} k (v : V) d :
  (In k (map fst d) /\ map fst (dict_append k v d) = map fst d) \/
  (~ In k (map fst d) /\ dict_append k v d = d ++ [(k, [v])]).
Proof.
  induction d as [|[k' vs] r IH]; simpl.
  - right. split; [tauto|reflexivity].
  - destruct (String.eqb k k') eqn:E.
    + apply String.eqb_eq in E. subst. left. split; [auto|reflexivity].
    + apply String.eqb_neq in E. destruct IH as [[H1 H2]|[H1 H2]].
      * left. split; [auto|]. simpl. congruence.
      * right. split; [intros [K|K]; [congruence|tauto]|]. simpl. congruence.
Qed.

Lemma dict_append_In {V} k (v : V) d k' g' :
  NoDup (map fst d) ->
  In (k', g') (dict_append k v d) ->
  (k' = k /\ ((~ In k (map fst d) /\ g' = [v]) \/
              (exists g, In (k, g) d /\ g' = g ++ [v]))) \/
  (k' <> k /\ In (k', g') d).
Proof.
  induction d as [|[k0 vs] r IH]; simpl; intros Hnd Hin.
  - destruct Hin as [Hin|[]]. inversion Hin; subst. left. split; [reflexivity|].
    left. split; [tauto|reflexivity].
  - inversion Hnd as [|x xs Hnot Hrest]; subst.
    destruct (String.eqb k k0) eqn:E.
    + apply String.eqb_eq in E. subst k0. destruct Hin as [Hin|Hin].
      * inversion Hin; subst. left. split; [reflexivity|]. right.
        exists vs. auto.
      * right. split; [|auto]. intros ->. apply Hnot. apply in_map_iff.
        exists (k, g'). auto.
    + apply String.eqb_neq in E. destruct Hin as [Hin|Hin].
      * inversion Hin; subst. right. split; [congruence|auto].
      * destruct (IH Hrest Hin) as [(-> & [(Hn & ->)|(g & Hg & ->)])|(Hne & Hg)].
        -- left. split; [reflexivity|]. left. split; [|reflexivity].
           intros [K|K]; [congruence|tauto].
        -- left. split; [reflexivity|]. right. exists g. auto.
        -- right. auto.
Qed.

Lemma dict_append_length {V} k (v : V) d :
  List.length (List.concat (map snd (dict_append k v d)))
  = S (List.length (List.concat (map snd d))).
Proof.
  induction d as [|[k' vs] r IH]; simpl; [reflexivity|].
  destruct (String.eqb k k'); simpl; rewrite !length_app.
  - simpl. lia.
  - rewrite IH. lia.
Qed.

Lemma groups_inv_step pre groups r s :
  groups_inv pre groups -> get (subject r) (Some "") = Some s ->
  groups_inv (pre ++ [r]) (dict_append (conv_key s) r groups).
Proof.
  intros (Hnd & Hg & Hk & Hl) Hs.
  assert (Hself : key_is (conv_key s) r = true)
    by (unfold key_is; rewrite Hs; apply String.eqb_refl).
  split; [|split; [|split]].
  - destruct (dict_append_keys (conv_key s) r groups) as [[_ ->]|[Hn ->]];
      [exact Hnd|].
    rewrite map_app. apply NoDup_app; [exact Hnd|repeat constructor; auto|].
    intros a Ha [<-|[]]. exact (Hn Ha).
  - intros k g Hin.
    destruct (dict_append_In _ _ _ _ _ Hnd Hin)
      as [(-> & [(Hn & ->)|(g0 & Hg0 & ->)])|(Hne & Hin0)].
    + split; [discriminate|]. rewrite filter_app. simpl. rewrite Hself.
      replace (filter (key_is (conv_key s)) pre) with (@nil MailRecord);
        [reflexivity|].
      destruct (filter (key_is (conv_key s)) pre) as [|x xs] eqn:Ef;
        [reflexivity|exfalso].
      assert (Hx : In x (filter (key_is (conv_key s)) pre))
        by (rewrite Ef; left; reflexivity).
      apply filter_In in Hx. destruct Hx as [Hx Hkx]. unfold key_is in Hkx.
      destruct (get (subject x) (Some "")) as [sx|] eqn:Esx; [|discriminate].
      apply String.eqb_eq in Hkx. apply Hn. rewrite <- Hkx. eapply Hk; eauto.
    + destruct (Hg _ _ Hg0) as [Hne He]. split.
      * destruct g0; discriminate.
      * rewrite filter_app. simpl. rewrite Hself, <- He. reflexivity.
    + destruct (Hg _ _ Hin0) as [Hne' He]. split; [exact Hne'|].
      rewrite filter_app. simpl.
      replace (key_is k r) with false; [rewrite app_nil_r; exact He|].
      unfold key_is. rewrite Hs. symmetry. apply String.eqb_neq. congruence.
  - intros x sx Hx Hsx.
    assert (Hsub : forall a, In a (map fst groups) ->
                     In a (map fst (dict_append (conv_key s) r groups))).
    { intros a Ha.
      destruct (dict_append_keys (conv_key s) r groups) as [[_ ->]|[_ ->]];
        [exact Ha|]. rewrite map_app. apply in_or_app. auto. }
    apply in_app_or in Hx. destruct Hx as [Hx|[<-|[]]].
    + apply Hsub. eapply Hk; eauto.
    + rewrite Hs in Hsx. inversion Hsx; subst sx.
      destruct (dict_append_keys (conv_key s) r groups) as [[Hi ->]|[_ ->]];
        [exact Hi|]. rewrite map_app. apply in_or_app. right. simpl. auto.
  - rewrite dict_append_length, Hl, length_app. simpl. lia.
Qed.

Lemma group_loop emails : forall pre groups,
  groups_inv pre groups ->
  (Forall subject_usable emails ->
   exists groups',
     rfold (fun conversations email =>
              match get (subject email) (Some "") with
              | Some s => Ok (dict_append (conv_key s) email conversations)
              | None => Raise (mkExn AttributeError
                           "'NoneType' object has no attribute 'strip'")
              end) emails groups = Ok groups' /\
     groups_inv (pre ++ emails) groups') /\
  (~ Forall subject_usable emails ->
   rfold (fun conversations email =>
            match get (subject email) (Some "") with
            | Some s => Ok (dict_append (conv_key s) email conversations)
            | None => Raise (mkExn AttributeError
                         "'NoneType' object has no attribute 'strip'")
            end) emails groups
   = Raise (mkExn AttributeError "'NoneType' object has no attribute 'strip'")).
Proof.
  induction emails as [|r rest IH]; intros pre groups Hi.
  - split.
    + intros _. exists groups. rewrite app_nil_r. auto.
    + intros H. exfalso. apply H. constructor.
  - simpl. destruct (get (subject r) (Some "")) as [s|] eqn:Es; simpl.
    + destruct (IH (pre ++ [r]) _ (groups_inv_step _ _ _ _ Hi Es)) as [I1 I2].
      split.
      * intros H. inversion H; subst. destruct (I1 H3) as (g & Hg & Hinv).
        exists g. rewrite <- app_assoc in Hinv. auto.
      * intros H. apply I2. intros Hrest. apply H. constructor; [|exact Hrest].
        unfold subject_usable. congruence.
    + split; [|reflexivity].
      intros H. inversion H; subst. unfold subject_usable in *. congruence.
Qed.

(** X3: [group_by_conversation] raises exactly when some record's subject
    is None; otherwise the conversation keys are pairwise different, each
    group is non-empty and holds, in input order, exactly the records whose
    subject has that key, and the groups together hold as many records as
    the input: every record is in the group of its own key and in no
    other. *)
Theorem group_by_conversation_partitions emails :
  (Forall subject_usable emails ->
   exists groups,
     group_by_conversation emails = Ok groups /\
     NoDup (map fst groups) /\
     (forall k g, In (k, g) groups ->
        g <> [] /\ g = filter (key_is k) emails) /\
     (forall r s, In r emails -> get (subject r) (Some "") = Some s ->
        In (conv_key s) (map fst groups)) /\
     List.length (List.concat (map snd groups)) = List.length emails) /\
  (~ Forall subject_usable emails ->
   group_by_conversation emails
   = Raise (mkExn AttributeError "'NoneType' object has no attribute 'strip'")).
Proof.
  assert (H0 : groups_inv [] []).
  { repeat split; try constructor; intros; contradiction. }
  destruct (group_loop emails [] [] H0) as [H1 H2]. split.
  - intros H. destruct (H1 H) as (g & Hg & Hinv). exists g.
    split; [exact Hg|]. exact Hinv.
  - exact H2.
Qed.

Lemma group_by_conversation_partitions_witness :
  exists groups,
    group_by_conversation Examples.thread = Ok groups /\
    NoDup (map fst groups) /\
    List.length (List.concat (map snd groups)) = 2%nat.
Proof.
  destruct (proj1 (group_by_conversation_partitions Examples.thread))
    as (groups & H & Hn & _ & _ & Hl);
    [repeat constructor; discriminate|].
  exists groups. split; [exact H|]. split; [exact Hn|exact Hl].
Defined.

(** ** Conversation keys do not depend on letter case *)

Lemma is_space_lower_char c : is_space (lower_char c) = is_space c.
Proof.
  destruct c as [b0 b1 b2 b3 b4 b5 b6 b7].
  destruct b0, b1, b2, b3, b4, b5, b6, b7; reflexivity.
Qed.

Lemma lower_char_idem c : lower_char (lower_char c) = lower_char c.
Proof.
  destruct c as [b0 b1 b2 b3 b4 b5 b6 b7].
  destruct b0, b1, b2, b3, b4, b5, b6, b7; reflexivity.
Qed.

Lemma lower_idem s : lower (lower s) = lower s.
Proof. induction s; simpl; [reflexivity|]. rewrite lower_char_idem. congruence. Qed.

Lemma lower_lstrip s : lower (lstrip s) = lstrip (lower s).
Proof.
  induction s as [|c r IH]; simpl; [reflexivity|].
  rewrite is_space_lower_char. destruct (is_space c); [exact IH|reflexivity].
Qed.

Lemma lower_rstrip s : lower (rstrip s) = rstrip (lower s).
Proof.
  induction s as [|c r IH]; simpl; [reflexivity|].
  rewrite <- IH, is_space_lower_char.
  destruct (rstrip r) as [|c' r']; simpl; [destruct (is_space c)|]; reflexivity.
Qed.

Lemma lower_strip s : lower (strip s) = strip (lower s).
Proof. unfold strip. rewrite lower_rstrip, lower_lstrip. reflexivity. Qed.

Lemma lower_drop n : forall s, lower (drop n s) = drop n (lower s).
Proof.
  induction n as [|n IH]; intros s; [reflexivity|].
  destruct s; simpl; [reflexivity|apply IH].
Qed.

Lemma lower_strip_prefix x p :
  lower (strip_prefix x p) = strip_prefix (lower x) p.
Proof.
  unfold strip_prefix. rewrite lower_idem.
  destruct (startswith (lower x) p); [|reflexivity].
  rewrite lower_strip, lower_drop. reflexivity.
Qed.

Lemma lower_fold_strip_prefix ps : forall x,
  lower (fold_left strip_prefix ps x) = fold_left strip_prefix ps (lower x).
Proof.
  induction ps as [|p r IH]; intros x; simpl; [reflexivity|].
  rewrite IH, lower_strip_prefix. reflexivity.
Qed.

(** X4: the conversation key depends on the subject only up to letter
    case: two subjects with the same lower-case form get the same key, so
    "RE: Order", "Re: ORDER" and "re: order" land in one conversation. *)
Theorem conv_key_ignores_case s s' :
  lower s = lower s' -> conv_key s = conv_key s'.
Proof.
  intros H. unfold conv_key.
  rewrite !lower_fold_strip_prefix, !lower_strip, H. reflexivity.
Qed.

Lemma conv_key_ignores_case_witness :
  conv_key "RE: Order #1" = conv_key "re: ORDER #1".
Proof. apply conv_key_ignores_case. reflexivity. Defined.

Lemma StronglySorted_impl' {A} (R R' : A -> A -> Prop) l :
  (forall a b, R a b -> R' a b) -> StronglySorted R l -> StronglySorted R' l.
Proof.
  intros H. induction 1 as [|a r Hr IH Ha]; constructor; auto.
  eapply Forall_impl; [|exact Ha]. intros b. apply H.
Qed.

(** ** Sorting by normalised time *)

Section SortTotal.
Context {A K : Type}.
Variable lt : K -> K -> Result bool.
Variable Q : K -> Prop.
Hypothesis lt_total : forall x y, Q x -> Q y -> exists b, lt x y = Ok b.

Lemma insert_total (reverse : bool) (x : A * K) (l : list (A * K)) :
  Q (snd x) -> Forall (fun y => Q (snd y)) l ->
  exists l', (if reverse then insert_desc lt x l else insert_asc lt x l) = Ok l'.
Proof.
  intros Hx Hl. induction Hl as [|y r Hy Hr IH].
  - destruct reverse; eexists; reflexivity.
  - destruct IH as (r' & Hr'). destruct reverse; simpl.
    + destruct (lt_total _ _ Hx Hy) as ([|] & ->); simpl.
      * rewrite Hr'. eexists; reflexivity.
      * eexists; reflexivity.
    + destruct (lt_total _ _ Hy Hx) as ([|] & ->); simpl.
      * rewrite Hr'. eexists; reflexivity.
      * eexists; reflexivity.
Qed.

Lemma sort_keyed_total (reverse : bool) (l : list (A * K)) :
  Forall (fun y => Q (snd y)) l -> exists s, sort_keyed lt reverse l = Ok s.
Proof.
  induction 1 as [|x r Hx Hr IH]; simpl; [eexists; reflexivity|].
  destruct IH as (s & Hs). rewrite Hs. simpl.
  assert (Hq : Forall (fun y => Q (snd y)) s)
    by (eapply Permutation_Forall; [eapply sort_keyed_perm; exact Hs|exact Hr]).
  destruct (insert_total reverse x s Hx Hq) as (l' & Hl').
  destruct reverse; eauto.
Qed.

Lemma sorted_total (key : A -> Result K) (reverse : bool) (l : list A) :
  Forall (fun a => exists k, key a = Ok k /\ Q k) l ->
  exists s, sorted lt key reverse l = Ok s /\ Permutation l s.
Proof.
  intros H. unfold sorted.
  assert (Hk : exists keyed,
            rmap (fun a => k <-? key a ;; Ok (a, k)) l = Ok keyed /\
            Forall (fun y => Q (snd y)) keyed).
  { induction H as [|a r (k & Hk & Hq) Hr (keyed & Hm & Hf)]; simpl.
    - exists []. split; [reflexivity|constructor].
    - rewrite Hk. simpl. rewrite Hm. simpl. exists ((a, k) :: keyed).
      split; [reflexivity|]. constructor; assumption. }
  destruct Hk as (keyed & Hm & Hf).
  destruct (sort_keyed_total reverse keyed Hf) as (s & Hs).
  exists (map fst s). split.
  - rewrite Hm. simpl. rewrite Hs. reflexivity.
  - eapply sorted_perm. unfold sorted. rewrite Hm. simpl. rewrite Hs. reflexivity.
Qed.

Hypothesis lt_asym : forall x y, lt x y = Ok true -> lt y x = Ok false.
Hypothesis lt_trans_false :
  forall x y z, lt x y = Ok false -> lt y z = Ok false -> lt x z = Ok false.

Lemma insert_asc_sorted (x : A * K) l l' :
  insert_asc lt x l = Ok l' ->
  StronglySorted (fun a b => lt (snd b) (snd a) = Ok false) l ->
  StronglySorted (fun a b => lt (snd b) (snd a) = Ok false) l'.
Proof.
  revert l'. induction l as [|y r IH]; intros l' H Hs; simpl in H.
  - inversion H; subst. repeat constructor.
  - inversion Hs as [|a b Hsr Hall]; subst.
    destruct (lt (snd y) (snd x)) as [[|]|e] eqn:E; simpl in H;
      try discriminate.
    + destruct (insert_asc lt x r) as [r'|e] eqn:Er; simpl in H;
        [|discriminate].
      inversion H; subst. constructor; [apply IH; auto|].
      eapply Permutation_Forall; [eapply insert_asc_perm; exact Er|].
      constructor; [apply lt_asym; exact E|exact Hall].
    + inversion H; subst. constructor; [exact Hs|].
      constructor; [exact E|].
      eapply Forall_impl; [|exact Hall]. intros z Hz. cbv beta in Hz.
      exact (lt_trans_false _ _ _ Hz E).
Qed.

Lemma sort_keyed_asc_sorted (l l' : list (A * K)) :
  sort_keyed lt false l = Ok l' ->
  StronglySorted (fun a b => lt (snd b) (snd a) = Ok false) l'.
Proof.
  revert l'. induction l as [|x r IH]; intros l' H; simpl in H.
  - inversion H; subst. constructor.
  - destruct (sort_keyed lt false r) as [r'|e]; simpl in H; [|discriminate].
    eapply insert_asc_sorted; [exact H|]. apply IH. reflexivity.
Qed.

Lemma sorted_asc_sorted (f : A -> K) l l' :
  sorted lt (fun x => Ok (f x)) false l = Ok l' ->
  StronglySorted (fun a b => lt (f b) (f a) = Ok false) l'.
Proof.
  unfold sorted. intros H.
  destruct (rmap _ l) as [keyed|e] eqn:Ek; simpl in H; [|discriminate].
  destruct (sort_keyed lt false keyed) as [s|e] eqn:Es; simpl in H;
    [|discriminate].
  inversion H; subst. apply rmap_keyed_fst in Ek. destruct Ek as [_ Hk].
  pose proof (sort_keyed_asc_sorted _ _ Es) as Hss.
  assert (Hf : Forall (fun ak => Ok (f (fst ak)) = Ok (snd ak)) s).
  { eapply Permutation_Forall; [eapply sort_keyed_perm; exact Es|exact Hk]. }
  clear - Hss Hf. induction Hss as [|a r Hr IH Hall]; simpl; [constructor|].
  inversion Hf as [|x xs Ha Hrest]; subst. constructor; [auto|].
  rewrite Forall_forall in *. intros b Hb. apply in_map_iff in Hb.
  destruct Hb as (y & <- & Hy). specialize (Hrest y Hy).
  inversion Ha as [Ea]. inversion Hrest as [Ey]. rewrite Ea, Ey.
  apply Hall, Hy.
Qed.

End SortTotal.

Lemma dt_lt_naive x y : is_naive x -> is_naive y -> exists b, dt_lt x y = Ok b.
Proof. destruct x, y; simpl; try contradiction; eauto. Qed.

Lemma dt_lt_asym x y : dt_lt x y = Ok true -> dt_lt y x = Ok false.
Proof.
  destruct x as [a|a oa], y as [b|b ob]; simpl; try discriminate;
    intros H; injection H as E; apply Z.ltb_lt in E; f_equal;
    apply Z.ltb_ge; lia.
Qed.

Lemma dt_lt_trans_false x y z :
  dt_lt x y = Ok false -> dt_lt y z = Ok false -> dt_lt x z = Ok false.
Proof.
  destruct x as [a|a oa], y as [b|b ob], z as [c|c oc]; simpl;
    try discriminate; intros H1 H2; injection H1 as E1;
    injection H2 as E2; apply Z.ltb_ge in E1; apply Z.ltb_ge in E2;
    f_equal; apply Z.ltb_ge; lia.
Qed.

Lemma dt_lt_false_le x y :
  is_naive x -> is_naive y -> dt_lt x y = Ok false -> naive_us y <= naive_us x.
Proof.
  destruct x, y; simpl; try contradiction. intros _ _ H. injection H as E.
  apply Z.ltb_ge in E. exact E.
Qed.

Lemma sort_key_time_cases r reverse :
  (time_ok r /\
   _sort_key_time r reverse = Ok (Naive (time_key reverse r))) \/
  (~ time_ok r /\ _sort_key_time r reverse = Raise overflow_in_date).
Proof.
  unfold _sort_key_time, time_ok, time_key.
  destruct (get (received_time r) None) as [[t|t o]|]; simpl.
  - left. auto.
  - unfold astimezone_utc. destruct (in_datetime_range t);
      [left; auto|right; split; [discriminate|reflexivity]].
  - left. split; [exact I|]. destruct reverse; reflexivity.
Qed.

Lemma rmap_ext_in {A B} (f g : A -> Result B) l :
  (forall a, In a l -> f a = g a) -> rmap f l = rmap g l.
Proof.
  induction l as [|a r IH]; intros H; simpl; [reflexivity|].
  rewrite (H a (or_introl eq_refl)), IH; [reflexivity|].
  intros x Hx. apply H. right. exact Hx.
Qed.

Lemma sorted_ext {A K} (lt : K -> K -> Result bool) (key key' : A -> Result K)
  reverse l :
  (forall a, In a l -> key a = key' a) ->
  sorted lt key reverse l = sorted lt key' reverse l.
Proof.
  intros H. unfold sorted.
  rewrite (rmap_ext_in _ (fun a => k <-? key' a ;; Ok (a, k))); [reflexivity|].
  intros a Ha. rewrite (H a Ha). reflexivity.
Qed.

Lemma sorted_by_time_ok emails key_reverse reverse :
  Forall time_ok emails ->
  sorted dt_lt (fun x => _sort_key_time x key_reverse) reverse emails
  = sorted dt_lt (fun x => Ok (Naive (time_key key_reverse x))) reverse emails.
Proof.
  intros H. apply sorted_ext. intros a Ha. rewrite Forall_forall in H.
  destruct (sort_key_time_cases a key_reverse) as [[_ E]|[Hn _]];
    [exact E|exfalso; apply Hn, H, Ha].
Qed.

Lemma sorted_by_time_raises emails key_reverse reverse :
  ~ Forall time_ok emails ->
  sorted dt_lt (fun x => _sort_key_time x key_reverse) reverse emails
  = Raise overflow_in_date.
Proof.
  intros H. unfold sorted. rewrite (rmap_raises _ overflow_in_date);
    [reflexivity| |].
  - intros a _. destruct (sort_key_time_cases a key_reverse) as [[_ E]|[_ E]];
      rewrite E; simpl; eauto.
  - destruct (Forall_Exists_dec time_ok time_ok_dec emails) as [Hf|He];
      [contradiction|].
    apply Exists_exists in He. destruct He as (a & Hin & Hn).
    apply Exists_exists. exists a. split; [exact Hin|].
    destruct (sort_key_time_cases a key_reverse) as [[Hy _]|[_ E]];
      [contradiction|]. rewrite E. reflexivity.
Qed.

Lemma sorted_by_key_total emails key_reverse reverse :
  exists s,
    sorted dt_lt (fun x => Ok (Naive (time_key key_reverse x))) reverse emails
      = Ok s /\ Permutation emails s.
Proof.
  apply (sorted_total dt_lt is_naive dt_lt_naive).
  apply Forall_forall. intros a _. eexists. split; [reflexivity|exact I].
Qed.

(** X5: sorting records by [_sort_key_time] raises exactly when some record
    carries an aware received time whose UTC instant lies outside
    datetime's range, and then OverflowError; no other mix of naive, aware,
    None and missing received times makes it raise, because the key of
    every other record is a naive datetime.  The result is then a
    reordering of the input, ascending in the key for a plain sort and
    descending for [reverse=True]; a record without received time takes
    the key datetime.min, or datetime.max when the key is computed with
    [reverse=True]. *)
Theorem sort_by_normalised_time_cases emails key_reverse :
  (Forall time_ok emails ->
   (exists asc,
      sorted dt_lt (fun x => _sort_key_time x key_reverse) false emails
        = Ok asc /\
      Permutation emails asc /\
      StronglySorted
        (fun a b => time_key key_reverse a <= time_key key_reverse b) asc) /\
   (exists desc,
      sorted dt_lt (fun x => _sort_key_time x key_reverse) true emails
        = Ok desc /\
      Permutation emails desc /\
      StronglySorted
        (fun a b => time_key key_reverse b <= time_key key_reverse a) desc) /\
   Forall (fun r => _sort_key_time r key_reverse
                    = Ok (Naive (time_key key_reverse r))) emails) /\
  (~ Forall time_ok emails ->
   forall reverse,
     sorted dt_lt (fun x => _sort_key_time x key_reverse) reverse emails
     = Raise (mkExn OverflowError "date value out of range")) /\
  (forall r, get (received_time r) None = None ->
     _sort_key_time r false = Ok datetime_min /\
     _sort_key_time r true = Ok datetime_max).
Proof.
  split; [|split].
  - intros Hall. split; [|split].
    + rewrite (sorted_by_time_ok _ _ _ Hall).
      destruct (sorted_by_key_total emails key_reverse false) as (s & Hs & Hp).
      exists s. split; [exact Hs|]. split; [exact Hp|].
      apply (sorted_asc_sorted dt_lt dt_lt_asym dt_lt_trans_false) in Hs.
      eapply StronglySorted_impl'; [|exact Hs].
      intros a b H. apply dt_lt_false_le in H; simpl in *; auto.
    + rewrite (sorted_by_time_ok _ _ _ Hall).
      destruct (sorted_by_key_total emails key_reverse true) as (s & Hs & Hp).
      exists s. split; [exact Hs|]. split; [exact Hp|].
      apply (sorted_desc_sorted dt_lt dt_lt_asym dt_lt_trans_false) in Hs.
      eapply StronglySorted_impl'; [|exact Hs].
      intros a b H. apply dt_lt_false_le in H; simpl in *; auto.
    + eapply Forall_impl; [|exact Hall]. intros r Hr.
      destruct (sort_key_time_cases r key_reverse) as [[_ E]|[Hn _]];
        [exact E|contradiction].
  - intros Hn reverse. apply sorted_by_time_raises. exact Hn.
  - intros r Hr. unfold _sort_key_time. rewrite Hr. split; reflexivity.
Qed.

Lemma sort_by_normalised_time_cases_witness :
  sorted dt_lt (fun x => _sort_key_time x false) false
         (rev Examples.order_thread) = Ok Examples.order_thread /\
  sorted dt_lt (fun x => _sort_key_time x false) false
         [Examples.extracted "Order" "ann@corp.test" (Aware (-1800000000) 30)]
  = Raise (mkExn OverflowError "date value out of range").
Proof.
  split.
  - destruct (proj1 (proj1 (sort_by_normalised_time_cases
                              (rev Examples.order_thread) false)
                           ltac:(repeat constructor)))
      as (asc & H & _).
    rewrite H. vm_compute in H. injection H as <-. reflexivity.
  - apply (proj1 (proj2 (sort_by_normalised_time_cases _ false))).
    intros H. inversion H as [|x xs Hx _]; subst. discriminate Hx.
Defined.

(** ** Formatting one record *)

Lemma take_length n : forall s, (String.length (take n s) <= n)%nat.
Proof.
  induction n as [|n IH]; intros [|c r]; simpl; try lia.
  specialize (IH r). lia.
Qed.

Lemma take_drop n : forall s, (take n s ++ drop n s)%string = s.
Proof.
  induction n as [|n IH]; intros [|c r]; simpl; try reflexivity.
  rewrite IH. reflexivity.
Qed.

Lemma get_importance_text_values v :
  In (get_importance_text v) ["Low"; "Normal"; "High"].
Proof.
  destruct v as [[|p|p]|]; simpl; auto.
  destruct p as [p|p|]; simpl; auto; destruct p; simpl; auto.
Qed.

Lemma body_preview_spec n (bf : Field string) :
  let p := match get bf (Some "") with
           | Some b => if negb (b =? "")%string then take n b else ""
           | None => ""
           end in
  (String.length p <= n)%nat /\
  (forall b, bf = Val b -> exists rest, b = (p ++ rest)%string).
Proof.
  cbv zeta. split.
  - destruct (get bf (Some "")) as [b|]; [|simpl; lia].
    destruct (negb (b =? "")%string); [apply take_length|simpl; lia].
  - intros b ->. cbn [get].
    destruct (negb (b =? "")%string);
      [exists (drop n b); symmetry; apply take_drop|exists b; reflexivity].
Qed.

(** X6: [format_single_email] raises exactly when the record's size is
    None (TypeError) or an int too large for the float division by 1024
    (OverflowError, from 2**1034 - 2**980 on in absolute value).  Otherwise
    the body preview has at most 500 characters and is the beginning of the
    body, the importance text is one of Low, Normal and High, and the
    record carries a received_time entry exactly when include_timestamps is
    set; that entry is None exactly when the record has no usable received
    time. *)
Theorem format_single_email_shape cfg email :
  match format_single_email cfg email with
  | Ok f =>
      size_ok email /\
      (String.length (fe_body_preview f) <= 500)%nat /\
      (forall b, body email = Val b ->
         exists rest, b = (fe_body_preview f ++ rest)%string) /\
      In (fe_importance f) ["Low"; "Normal"; "High"] /\
      (fe_received_time f = Missing <-> include_timestamps cfg = false) /\
      (fe_received_time f = PyNone <->
         include_timestamps cfg = true /\ get (received_time email) None = None)
  | Raise e =>
      (size email = PyNone /\ exn_kind e = TypeError) \/
      (exists n, get (size email) (Some 0) = Some n /\
                 float_of_kb_limit <= Z.abs n /\
                 exn_kind e = OverflowError)
  end.
Proof.
  unfold format_single_email, size_ok.
  pose proof (body_preview_spec 500 (body email)) as Hp. revert Hp.
  generalize 500%nat. intros n [Hb Hp].
  pose proof (get_importance_text_values (get (importance email) (Some 1)))
    as Hi.
  destruct (get (size email) (Some 0)) as [sz|] eqn:Eg; cbn [rbind].
  - destruct (Z.abs sz <? float_of_kb_limit) eqn:El; cbn [rbind].
    + apply Z.ltb_lt in El.
      destruct (include_timestamps cfg);
        cbn [fe_body_preview fe_importance fe_received_time];
        (split; [exact El|]); (split; [exact Hb|]); (split; [exact Hp|]);
        (split; [exact Hi|]).
      * destruct (get (received_time email) None); split; split;
          try discriminate; try tauto; intros [? ?]; discriminate.
      * split; split; try discriminate; try tauto; intros [? ?]; discriminate.
    + right. exists sz. split; [reflexivity|]. apply Z.ltb_ge in El.
      split; [exact El|reflexivity].
  - left. split; [|reflexivity].
    destruct (size email); simpl in Eg; try discriminate Eg; reflexivity.
Qed.

Lemma format_single_email_shape_witness :
  (exists f, format_single_email Examples.plain_config
               Examples.extracted_order = Ok f) /\
  (exists e, format_single_email Examples.plain_config
               (mkMail Missing Missing Missing Missing Missing Missing Missing
                       Missing Missing Missing Missing (Val (2 ^ 1034))
                       Missing Missing Missing) = Raise e /\
             exn_kind e = OverflowError).
Proof.
  split.
  - eexists. vm_compute. reflexivity.
  - pose proof (format_single_email_shape Examples.plain_config
        (mkMail Missing Missing Missing Missing Missing Missing Missing
                Missing Missing Missing Missing (Val (2 ^ 1034))
                Missing Missing Missing)) as H.
    destruct (format_single_email _ _) as [f|e] eqn:E.
    + vm_compute in E. discriminate E.
    + exists e. split; [reflexivity|].
      destruct H as [[Hs _]|(n & _ & _ & Hk)]; [discriminate Hs|exact Hk].
Defined.

(** ** Bounds of the participant list *)

Lemma occurrences_some_role k ts :
  In k (map t_key ts) ->
  (1 <= occurrences RSent k ts + occurrences RTo k ts + occurrences RCc k ts)%nat.
Proof.
  unfold occurrences. induction ts as [|t r IH]; simpl; [tauto|].
  intros [H|H].
  - rewrite H, String.eqb_refl. destruct (t_role t); simpl; lia.
  - specialize (IH H).
    destruct (t_key t =? k)%string; destruct (t_role t); simpl; lia.
Qed.

Lemma firstn_length_le' {A} n (l : list A) : (List.length (firstn n l) <= n)%nat.
Proof. rewrite length_firstn. lia. Qed.

(** X7: whenever [get_participants] returns, the list has at most twenty
    entries, no two of them share a key (lower-cased address, or name where
    there is no address), the entries are in descending order of
    participation_count, and each count is the sum of the sent, to and cc
    counts and at least one. *)
Theorem get_participants_bounds emails ps :
  get_participants emails = Ok ps ->
  (List.length ps <= 20)%nat /\
  NoDup (map participant_key ps) /\
  StronglySorted
    (fun a b => (participation_count b <= participation_count a)%nat) ps /\
  Forall (fun p => participation_count p
                   = (sent p + to_count p + cc_count p)%nat /\
                   (1 <= participation_count p)%nat) ps.
Proof.
  intros H. apply get_participants_inv in H. destruct H as (all & Hr & ->).
  destruct (ranked_participants_inv _ _ Hr) as (tss & Ht).
  destruct (ranked_participants_spec _ _ Ht) as (all' & Hr' & Hperm & Hnd & Hss & Hf).
  rewrite Hr in Hr'. injection Hr' as <-.
  assert (Hinv : stats_inv (List.concat tss)
                   (fold_left apply_touch (List.concat tss) [])).
  { apply (stats_inv_fold (List.concat tss) [] []);
      [apply stats_inv_nil|eapply email_touches_wf; exact Ht]. }
  generalize 20%nat. intros n.
  split; [apply firstn_length_le'|]. split.
  { rewrite <- firstn_map. apply NoDup_firstn. rewrite map_map in Hnd. exact Hnd. }
  split; [apply StronglySorted_firstn; exact Hss|].
  apply Forall_firstn'. apply Forall_forall. intros p Hp.
  rewrite Forall_forall in Hf. destruct (Hf p Hp) as [Hsum _].
  split; [symmetry; exact Hsum|].
  assert (Hin : In (profile p) (map entry_profile
                  (fold_left apply_touch (List.concat tss) []))).
  { eapply Permutation_in; [apply Permutation_sym; exact Hperm|].
    apply in_map. exact Hp. }
  apply in_map_iff in Hin. destruct Hin as ([k i] & Heq & Hki).
  destruct Hinv as (_ & He & _). destruct (He _ _ Hki) as (Hc & _ & Hk).
  pose proof (occurrences_some_role _ _ Hk) as H1.
  rewrite <- (Hc RSent), <- (Hc RTo), <- (Hc RCc) in H1. simpl in H1.
  unfold profile, entry_profile in Heq. simpl in Heq.
  injection Heq as _ E1 E2 E3. rewrite <- Hsum. lia.
Qed.

Lemma get_participants_bounds_witness :
  exists ps, get_participants Examples.thread = Ok ps /\
             (List.length ps <= 20)%nat.
Proof.
  eexists. split; [reflexivity|].
  refine (proj1 (get_participants_bounds Examples.thread _ _)). reflexivity.
Defined.

(** ** The chain payload of extracted records *)

Lemma rmap_total_rel {A B} (f : A -> Result B) (P : A -> Prop)
  (R : A -> B -> Prop) l :
  (forall a, P a -> exists b, f a = Ok b /\ R a b) ->
  Forall P l -> exists bs, rmap f l = Ok bs /\ Forall2 R l bs.
Proof.
  intros Hf. induction 1 as [|a r Ha Hr (bs & Hbs & H2)]; simpl.
  - exists []. split; [reflexivity|constructor].
  - destruct (Hf a Ha) as (b & Hb & Hab). rewrite Hb. simpl. rewrite Hbs.
    simpl. exists (b :: bs). split; [reflexivity|]. constructor; assumption.
Qed.

Lemma complete_lower_key e n : exists k, lower_key (Some e) (Some n) = Ok k.
Proof.
  unfold lower_key, or_str. simpl.
  destruct (negb (e =? "")%string); eexists; reflexivity.
Qed.

Lemma complete_entry_touches role e :
  complete_entry e -> exists ts, entry_touches role e = Ok ts /\ True.
Proof.
  intros (n & a & ->). unfold entry_touches. simpl.
  destruct (complete_lower_key a n) as (k & ->). simpl.
  destruct (negb (k =? "")%string); eexists; split; auto.
Qed.

Lemma complete_email_touches r :
  complete r -> exists ts, email_touches r = Ok ts /\ True.
Proof.
  intros (_ & (n & Hn) & (a & Ha) & (tos & Ht & Hto) & (ccs & Hc & Hcc) & _).
  unfold email_touches, iter_entries. rewrite Hn, Ha, Ht, Hc. simpl.
  destruct (complete_lower_key a n) as (k & ->). simpl.
  destruct (rmap_total_rel (entry_touches RTo) _ (fun _ _ => True) tos
              (complete_entry_touches RTo) Hto) as (tt & -> & _).
  simpl.
  destruct (rmap_total_rel (entry_touches RCc) _ (fun _ _ => True) ccs
              (complete_entry_touches RCc) Hcc) as (ct & -> & _).
  simpl. eexists; split; auto.
Qed.

Lemma get_participants_total emails :
  Forall complete emails -> exists ps, get_participants emails = Ok ps.
Proof.
  intros H.
  destruct (rmap_total_rel email_touches _ (fun _ _ => True) emails
              complete_email_touches H) as (tss & Ht & _).
  destruct (ranked_participants_spec _ _ Ht) as (all & Hr & _).
  eexists. apply get_participants_intro. exact Hr.
Qed.

Lemma format_single_email_stamped cfg r :
  include_timestamps cfg = true -> formattable r ->
  exists f, format_single_email cfg r = Ok f /\ stamped f.
Proof.
  intros Hc ((_ & _ & _ & _ & _ & (t & Ht) & (sz & Hs)) & Htime & Hsize).
  unfold time_ok in Htime. unfold size_ok in Hsize.
  rewrite Ht in Htime. rewrite Hs in Hsize. cbn [get] in Htime, Hsize.
  apply Z.ltb_lt in Hsize.
  unfold format_single_email. rewrite Hs, Hc, Ht. cbn [get]. rewrite Hsize.
  cbn [rbind]. eexists. split; [reflexivity|]. exists t. auto.
Qed.

Lemma Forall2_length' {A B} (R : A -> B -> Prop) l l' :
  Forall2 R l l' -> List.length l = List.length l'.
Proof. induction 1; simpl; congruence. Qed.

Lemma Forall2_right {A B} (R : A -> B -> Prop) (Q : B -> Prop) l l' :
  (forall a b, R a b -> Q b) -> Forall2 R l l' -> Forall Q l'.
Proof. intros H. induction 1; constructor; eauto. Qed.

Lemma sorted_by_time_total emails key_reverse reverse :
  Forall time_ok emails ->
  exists s,
    sorted dt_lt (fun x => _sort_key_time x key_reverse) reverse emails
      = Ok s /\ Permutation emails s.
Proof.
  intros H. rewrite (sorted_by_time_ok _ _ _ H). apply sorted_by_key_total.
Qed.

Lemma date_range_total emails :
  Forall time_ok emails -> exists range, get_date_range emails = Ok range.
Proof. intros H. eexists. apply (proj1 (date_range_cases emails) H). Qed.

Lemma formattable_complete l : Forall formattable l -> Forall complete l.
Proof. apply Forall_impl. intros r H. apply H. Qed.

Lemma formattable_time_ok l : Forall formattable l -> Forall time_ok l.
Proof. apply Forall_impl. intros r H. apply H. Qed.

Lemma format_conversation_total cfg item :
  include_timestamps cfg = true ->
  snd item <> [] /\ Forall formattable (snd item) ->
  exists c, format_conversation cfg item = Ok c /\
            (email_count c = List.length (snd item) /\
             conv_emails c <> [] /\ Forall stamped (conv_emails c)).
Proof.
  intros Hc [Hne Hall]. unfold format_conversation.
  destruct (sorted_by_time_total (snd item) false false
              (formattable_time_ok _ Hall)) as (s & -> & Hp).
  cbn [rbind].
  assert (Hs : Forall formattable s) by (eapply Permutation_Forall; eassumption).
  destruct (date_range_total s (formattable_time_ok _ Hs)) as (range & ->).
  cbn [rbind].
  destruct (get_participants_total s (formattable_complete _ Hs)) as (ps & ->).
  cbn [rbind].
  destruct (rmap_total_rel (format_single_email cfg) formattable
              (fun _ f => stamped f) s
              (fun a Ha => format_single_email_stamped cfg a Hc Ha) Hs)
    as (fs & -> & H2).
  cbn [rbind]. eexists. split; [reflexivity|]. cbn.
  split; [symmetry; apply Permutation_length; exact Hp|]. split.
  - intros ->. apply Forall2_length' in H2. simpl in H2.
    apply Hne. apply Permutation_length in Hp.
    destruct (snd item); [reflexivity|simpl in *; lia].
  - eapply Forall2_right; [|exact H2]. auto.
Qed.

Lemma conversation_times l : forall acc,
  Forall stamped l ->
  exists ts,
    rfold (fun acc e =>
             match fe_received_time e with
             | Missing => Raise (mkExn KeyError "'received_time'")
             | PyNone => Ok acc
             | Val iso => t <-? parse_iso_time iso ;; Ok (acc ++ [t])
             end) l acc = Ok (acc ++ ts) /\
    List.length ts = List.length l.
Proof.
  induction l as [|e r IH]; intros acc H; cbn [rfold].
  - exists []. rewrite app_nil_r. auto.
  - inversion H as [|x xs (dt & Hd & Hn) Hr]; subst. rewrite Hd.
    change (parse_iso_time (Iso dt)) with (_normalize_dt (Some dt)).
    destruct (normalize_cases dt) as [[_ E]|[E _]]; [|congruence].
    rewrite E. cbn [rbind].
    destruct (IH (acc ++ [Naive (utc_us dt)]) Hr) as (ts & -> & Hl).
    exists (Naive (utc_us dt) :: ts). rewrite <- app_assoc. simpl.
    split; [reflexivity|lia].
Qed.

Lemma conversation_key_total c :
  conv_emails c <> [] -> Forall stamped (conv_emails c) ->
  exists k, conversation_key c = Ok k /\ is_naive k.
Proof.
  intros Hne Hs. unfold conversation_key.
  destruct (conversation_times (conv_emails c) [] Hs) as (ts & -> & Hl).
  cbn [rbind app]. destruct ts as [|t ts].
  - destruct (conv_emails c); [congruence|discriminate].
  - simpl. eexists. split; [reflexivity|exact I].
Qed.

Lemma complete_subject_usable r : complete r -> subject_usable r.
Proof.
  intros ((x & Hx) & _). unfold subject_usable. rewrite Hx. discriminate.
Qed.

Lemma list_sum_perm l l' : Permutation l l' -> list_sum l = list_sum l'.
Proof. induction 1; simpl; lia. Qed.

Lemma list_sum_lengths {A} (ls : list (list A)) :
  list_sum (map (@List.length A) ls) = List.length (List.concat ls).
Proof.
  induction ls as [|l r IH]; simpl; [reflexivity|].
  rewrite length_app, IH. reflexivity.
Qed.

Lemma format_email_chain_formattable cfg emails search_subject :
  include_timestamps cfg = true ->
  emails <> [] ->
  Forall formattable emails ->
  exists summary convs all_emails,
    format_email_chain cfg emails search_subject
      = Ok (ChainSuccess search_subject summary convs all_emails) /\
    total_emails summary = List.length emails /\
    conversations summary = List.length convs /\
    emails_counted convs = List.length emails /\
    List.length all_emails = List.length emails /\
    Forall stamped all_emails.
Proof.
  intros Hc Hne Hall. unfold format_email_chain.
  destruct emails as [|e0 rest]; [congruence|].
  remember (e0 :: rest) as emails eqn:He. clear He Hne e0 rest.
  assert (H0 : groups_inv [] []).
  { repeat split; try constructor; intros; contradiction. }
  destruct (group_loop emails [] [] H0) as [H1 _].
  destruct H1 as (groups & Hg & Hinv).
  { eapply Forall_impl; [|exact Hall]. intros r Hr.
    apply complete_subject_usable, Hr. }
  unfold group_by_conversation. rewrite Hg. cbn [rbind]. simpl app in Hinv.
  destruct (date_range_total emails (formattable_time_ok _ Hall))
    as (range & ->).
  cbn [rbind].
  destruct (get_participants_total emails (formattable_complete _ Hall))
    as (ps & ->).
  cbn [rbind].
  destruct Hinv as (_ & Hgroups & _ & Hlen).
  assert (Hitems : Forall (fun item => snd item <> []
                                       /\ Forall formattable (snd item)) groups).
  { apply Forall_forall. intros [k g] Hin. simpl.
    destruct (Hgroups k g Hin) as [Hn Hf]. split; [exact Hn|].
    rewrite Hf. apply Forall_forall. intros r Hr. apply filter_In in Hr.
    rewrite Forall_forall in Hall. apply Hall, Hr. }
  destruct (rmap_total_rel (format_conversation cfg) _ _ groups
              (fun a Ha => format_conversation_total cfg a Hc Ha) Hitems)
    as (fcs & -> & H2).
  cbn [rbind].
  destruct (sorted_total dt_lt is_naive dt_lt_naive conversation_key true fcs)
    as (convs & -> & Hp).
  { eapply Forall2_right; [|exact H2]. intros a c (_ & Hn & Hs).
    apply conversation_key_total; assumption. }
  cbn [rbind].
  destruct (sorted_by_time_total emails true true (formattable_time_ok _ Hall))
    as (chron & -> & Hpc).
  cbn [rbind].
  assert (Hs : Forall formattable chron)
    by (eapply Permutation_Forall; eassumption).
  destruct (rmap_total_rel (format_single_email cfg) formattable
              (fun _ f => stamped f) chron
              (fun a Ha => format_single_email_stamped cfg a Hc Ha) Hs)
    as (fs & -> & H3).
  cbn [rbind]. do 3 eexists. split; [reflexivity|]. cbn.
  split; [reflexivity|].
  split; [apply Forall2_length' in H2; rewrite H2;
          apply Permutation_length; exact Hp|].
  split.
  { unfold emails_counted.
    rewrite <- (list_sum_perm _ _ (Permutation_map email_count Hp)).
    rewrite <- Hlen, <- list_sum_lengths. f_equal.
    clear - H2. induction H2 as [|a c l l' (E & _) _ IH]; simpl;
      [reflexivity|]. rewrite E, IH. reflexivity. }
  split.
  { apply Forall2_length' in H3. rewrite <- H3. symmetry.
    apply Permutation_length. exact Hpc. }
  eapply Forall2_right; [|exact H3]. auto.
Qed.

(** X8: with include_timestamps set, [format_email_chain] never raises on
    a non-empty list of records of the kind the extraction builds: every
    field the extraction writes is there, the size is an int a float can
    hold, and an aware received time has its UTC instant within datetime's
    range.  It answers a success payload whose summary counts every
    record, whose conversations together account for every record once,
    and whose chronological list has one entry per record, each with its
    received time. *)
Theorem format_email_chain_total_on_formattable_records
  cfg emails search_subject :
  include_timestamps cfg = true ->
  emails <> [] ->
  Forall formattable emails ->
  exists summary convs all_emails,
    format_email_chain cfg emails search_subject
      = Ok (ChainSuccess search_subject summary convs all_emails) /\
    total_emails summary = List.length emails /\
    conversations summary = List.length convs /\
    emails_counted convs = List.length emails /\
    List.length all_emails = List.length emails /\
    Forall stamped all_emails.
Proof. apply format_email_chain_formattable. Qed.

Lemma order_thread_complete : Forall complete Examples.order_thread.
Proof.
  repeat constructor; try (eexists; reflexivity);
    eexists; (split; [reflexivity|constructor]).
Qed.

Lemma order_thread_formattable : Forall formattable Examples.order_thread.
Proof.
  pose proof order_thread_complete as H.
  inversion H as [|r1 l1 C1 H1]; subst. inversion H1 as [|r2 l2 C2 _]; subst.
  constructor; [|constructor; [|constructor]];
    (split; [assumption|split; vm_compute; reflexivity]).
Qed.

Lemma format_email_chain_total_on_formattable_records_witness :
  exists summary convs all_emails,
    format_email_chain Examples.plain_config Examples.order_thread "Order"
      = Ok (ChainSuccess "Order" summary convs all_emails) /\
    total_emails summary = 2%nat.
Proof.
  destruct (format_email_chain_total_on_formattable_records
              Examples.plain_config Examples.order_thread "Order")
    as (s & c & a & H & Ht & _);
    [reflexivity|discriminate|exact order_thread_formattable|].
  exists s, c, a. split; assumption.
Defined.

(** ** The chain payload without timestamps *)

Lemma subject_usable_dec r : {subject_usable r} + {~ subject_usable r}.
Proof.
  unfold subject_usable. destruct (get (subject r) (Some "")).
  - left. discriminate.
  - right. intros H. apply H. reflexivity.
Qed.

Lemma group_by_conversation_inv emails groups :
  group_by_conversation emails = Ok groups -> groups_inv emails groups.
Proof.
  intros H.
  assert (H0 : groups_inv [] []).
  { repeat split; try constructor; intros; contradiction. }
  destruct (group_loop emails [] [] H0) as [H1 H2].
  destruct (Forall_dec subject_usable subject_usable_dec emails) as [Hu|Hu].
  - destruct (H1 Hu) as (g & Hg & Hinv). unfold group_by_conversation in H.
    rewrite Hg in H. injection H as <-. exact Hinv.
  - unfold group_by_conversation in H. rewrite (H2 Hu) in H. discriminate.
Qed.

Lemma format_single_email_unstamped cfg r f :
  include_timestamps cfg = false ->
  format_single_email cfg r = Ok f -> fe_received_time f = Missing.
Proof.
  intros Hc. unfold format_single_email. rewrite Hc.
  destruct (get (size r) (Some 0)) as [sz|]; cbn [rbind];
    [|intros H; discriminate H].
  destruct (Z.abs sz <? float_of_kb_limit); cbn [rbind]; intros H;
    [injection H as <-; reflexivity|discriminate].
Qed.

Lemma format_single_email_total cfg r :
  formattable r -> exists f, format_single_email cfg r = Ok f /\ True.
Proof.
  intros ((_ & _ & _ & _ & _ & _ & (sz & Hs)) & _ & Hsize).
  unfold size_ok in Hsize. rewrite Hs in Hsize. cbn [get] in Hsize.
  apply Z.ltb_lt in Hsize.
  unfold format_single_email. rewrite Hs. cbn [get]. rewrite Hsize.
  cbn [rbind]. destruct (include_timestamps cfg); eexists; split; auto.
Qed.

Lemma format_conversation_succeeds cfg item :
  Forall formattable (snd item) ->
  exists c, format_conversation cfg item = Ok c /\ True.
Proof.
  intros Hall. unfold format_conversation.
  destruct (sorted_by_time_total (snd item) false false
              (formattable_time_ok _ Hall)) as (s & -> & Hp).
  cbn [rbind].
  assert (Hs : Forall formattable s) by (eapply Permutation_Forall; eassumption).
  destruct (date_range_total s (formattable_time_ok _ Hs)) as (range & ->).
  cbn [rbind].
  destruct (get_participants_total s (formattable_complete _ Hs)) as (ps & ->).
  cbn [rbind].
  destruct (rmap_total_rel (format_single_email cfg) formattable
              (fun _ _ => True) s (format_single_email_total cfg) Hs)
    as (fs & -> & _).
  cbn [rbind]. eexists. split; auto.
Qed.

Lemma rmap_cons_inv {A B} (f : A -> Result B) a l bs :
  rmap f (a :: l) = Ok bs ->
  exists b bs', f a = Ok b /\ rmap f l = Ok bs' /\ bs = b :: bs'.
Proof.
  simpl. destruct (f a) as [b|e]; simpl; [|discriminate].
  destruct (rmap f l) as [bs'|e]; simpl; [|discriminate].
  intros H. injection H as <-. eauto.
Qed.

Lemma format_conversation_unstamped cfg item c :
  include_timestamps cfg = false ->
  snd item <> [] ->
  format_conversation cfg item = Ok c ->
  exists f rest, conv_emails c = f :: rest /\ fe_received_time f = Missing.
Proof.
  intros Hc Hne. unfold format_conversation.
  destruct (sorted dt_lt _ false (snd item)) as [s|e] eqn:Es; cbn [rbind];
    [|discriminate].
  apply sorted_perm in Es.
  destruct (get_date_range s) as [range|e]; cbn [rbind]; [|discriminate].
  destruct (get_participants s) as [ps|e]; cbn [rbind]; [|discriminate].
  destruct (rmap (format_single_email cfg) s) as [fs|e] eqn:Ef; cbn [rbind];
    [|discriminate].
  intros H. injection H as <-. cbn.
  destruct s as [|a s'].
  - apply Permutation_sym, Permutation_nil in Es. contradiction.
  - apply rmap_cons_inv in Ef. destruct Ef as (f & fs' & Hf & _ & ->).
    exists f, fs'. split; [reflexivity|].
    eapply format_single_email_unstamped; eassumption.
Qed.

Lemma conversation_key_unstamped c f rest :
  conv_emails c = f :: rest -> fe_received_time f = Missing ->
  conversation_key c = Raise (mkExn KeyError "'received_time'").
Proof.
  intros Hc Hf. unfold conversation_key. rewrite Hc. cbn [rfold].
  rewrite Hf. reflexivity.
Qed.

Lemma sorted_first_key_raises {A K} (lt : K -> K -> Result bool)
  (key : A -> Result K) reverse a l e :
  key a = Raise e -> sorted lt key reverse (a :: l) = Raise e.
Proof. intros H. unfold sorted. simpl. rewrite H. reflexivity. Qed.

Lemma format_email_chain_unstamped cfg emails search_subject :
  include_timestamps cfg = false ->
  emails <> [] ->
  exists e,
    format_email_chain cfg emails search_subject = Raise e /\
    (Forall formattable emails -> e = mkExn KeyError "'received_time'").
Proof.
  intros Hc Hne. unfold format_email_chain.
  destruct emails as [|e0 rest]; [congruence|].
  remember (e0 :: rest) as emails eqn:He.
  assert (Hlen : (0 < List.length emails)%nat) by (subst; simpl; lia).
  clear He Hne e0 rest.
  destruct (group_by_conversation emails) as [groups|e] eqn:Eg; cbn [rbind].
  2:{ exists e. split; [reflexivity|]. intros Hall. exfalso.
      assert (H0 : groups_inv [] []).
      { repeat split; try constructor; intros; contradiction. }
      destruct (group_loop emails [] [] H0) as [H1 _].
      destruct H1 as (g & Hg & _).
      { eapply Forall_impl; [|exact Hall]. intros r Hr.
        apply complete_subject_usable, Hr. }
      unfold group_by_conversation in Eg. congruence. }
  apply group_by_conversation_inv in Eg.
  destruct Eg as (_ & Hgroups & _ & Hl).
  destruct (get_date_range emails) as [range|e] eqn:Ed; cbn [rbind].
  2:{ exists e. split; [reflexivity|]. intros Hall. exfalso.
      destruct (date_range_total emails (formattable_time_ok _ Hall))
        as (range & Hrange).
      congruence. }
  destruct (get_participants emails) as [ps|e] eqn:Ep; cbn [rbind].
  2:{ exists e. split; [reflexivity|]. intros Hall. exfalso.
      destruct (get_participants_total emails (formattable_complete _ Hall))
        as (ps & Hps).
      congruence. }
  destruct (rmap (format_conversation cfg) groups) as [fcs|e] eqn:Ef;
    cbn [rbind].
  2:{ exists e. split; [reflexivity|]. intros Hall. exfalso.
      assert (Hitems : Forall (fun item => Forall formattable (snd item))
                         groups).
      { apply Forall_forall. intros [k g] Hin. simpl.
        destruct (Hgroups k g Hin) as [_ Hf].
        rewrite Hf. apply Forall_forall. intros r Hr. apply filter_In in Hr.
        rewrite Forall_forall in Hall. apply Hall, Hr. }
      destruct (rmap_total_rel (format_conversation cfg) _ (fun _ _ => True)
                  groups (format_conversation_succeeds cfg) Hitems)
        as (x & Hx & _).
      congruence. }
  destruct groups as [|[k g] groups'].
  { simpl in Hl. lia. }
  apply rmap_cons_inv in Ef. destruct Ef as (c & fcs' & Hcv & _ & ->).
  destruct (Hgroups k g (or_introl eq_refl)) as [Hg _].
  destruct (format_conversation_unstamped cfg (k, g) c Hc Hg Hcv)
    as (f & fr & Hce & Hm).
  rewrite (sorted_first_key_raises dt_lt conversation_key true c fcs' _
             (conversation_key_unstamped c f fr Hce Hm)).
  cbn [rbind]. eexists. split; [reflexivity|]. intros _. reflexivity.
Qed.



(** ** Connection attempts *)

Lemma attempts_cons a n : attempts a (S n) = EvConnect a :: attempts (a + 1) n.
Proof.
  unfold attempts. simpl. rewrite Z.add_0_r. f_equal.
  rewrite <- seq_shift, map_map. apply map_ext. intros i. f_equal. lia.
Qed.

Lemma connect_from_attempts w n :
  forall a s, exists s' k,
    (1 <= k <= S n)%nat /\
    connect_from w n a s
      = (s', attempts a k, Ok (w_connect w (a + Z.of_nat k - 1))) /\
    (forall i, (i < k - 1)%nat -> w_connect w (a + Z.of_nat i) = false) /\
    (w_connect w (a + Z.of_nat k - 1) = false -> k = S n) /\
    connected s' = w_connect w (a + Z.of_nat k - 1) /\
    outlook s' = connected s' /\ namespace s' = connected s' /\
    _search_cache s' = _search_cache s /\
    _folder_cache s' = _folder_cache s /\
    _shared_recipient_cache s' = _shared_recipient_cache s /\
    _max_retries s' = _max_retries s.
Proof.
  induction n as [|n IH]; intros a s; simpl.
  - run. exists
      (if w_connect w a
       then mkState true true true (_search_cache s) (_folder_cache s)
                    (_shared_recipient_cache s) (_max_retries s)
       else mkState false false false (_search_cache s) (_folder_cache s)
                    (_shared_recipient_cache s) (_max_retries s)), 1%nat.
    replace (a + Z.of_nat 1 - 1) with a by lia.
    split; [lia|]. split.
    { unfold attempts. simpl. rewrite Z.add_0_r.
      destruct (w_connect w a); reflexivity. }
    split; [intros i Hi; lia|]. split; [reflexivity|].
    destruct (w_connect w a); simpl; auto 10.
  - run. destruct (w_connect w a) eqn:Ea; run.
    + eexists _, 1%nat.
      replace (a + Z.of_nat 1 - 1) with a by lia. rewrite Ea.
      split; [lia|]. split.
      { unfold attempts. simpl. rewrite Z.add_0_r. reflexivity. }
      split; [intros i Hi; lia|]. split; [discriminate|]. simpl. auto 10.
    + match goal with
      | |- context [connect_from w n ?a' ?s0] =>
          destruct (IH a' s0)
            as (s' & k & Hk & H & Hf & Hl & C1 & C2 & C3 & C4 & C5 & C6 & C7)
      end.
      rewrite H. exists s', (S k).
      replace (a + Z.of_nat (S k) - 1) with (a + 1 + Z.of_nat k - 1) by lia.
      split; [lia|]. split; [rewrite attempts_cons; reflexivity|].
      split.
      { intros i Hi. destruct i as [|i]; [rewrite Z.add_0_r; exact Ea|].
        replace (a + Z.of_nat (S i)) with (a + 1 + Z.of_nat i) by lia.
        apply Hf. lia. }
      split; [intros Hw; rewrite (Hl Hw); reflexivity|].
      simpl in *. auto 10.
Qed.

(** X10: [connect] never raises.  It makes at least one attempt and at
    most [_max_retries] (one when that setting is below one), numbered from
    0; every attempt but the last fails, the result and the connected,
    outlook and namespace attributes say whether the last one went through,
    and a failed connect has used up every attempt.  The caches are left as
    they are. *)
Theorem connect_attempts_bounded w s :
  exists s' k,
    connect w s = (s', attempts 0 k, Ok (w_connect w (Z.of_nat k - 1))) /\
    (1 <= k)%nat /\ Z.of_nat k <= Z.max 1 (_max_retries s) /\
    (forall i, (i < k - 1)%nat -> w_connect w (Z.of_nat i) = false) /\
    (w_connect w (Z.of_nat k - 1) = false ->
       Z.of_nat k = Z.max 1 (_max_retries s)) /\
    connected s' = w_connect w (Z.of_nat k - 1) /\
    outlook s' = connected s' /\ namespace s' = connected s' /\
    _search_cache s' = _search_cache s /\
    _folder_cache s' = _folder_cache s /\
    _shared_recipient_cache s' = _shared_recipient_cache s.
Proof.
  unfold connect. run.
  destruct (connect_from_attempts w (Z.to_nat (_max_retries s - 1)) 0 s)
    as (s' & k & Hk & H & Hf & Hl & C1 & C2 & C3 & C4 & C5 & C6 & C7).
  rewrite H. exists s', k. simpl in *.
  split; [reflexivity|]. split; [lia|]. split; [lia|].
  split; [exact Hf|]. split; [intros Hw; rewrite (Hl Hw); lia|]. auto 10.
Qed.

Lemma ensure_connected_cases w s :
  exists s' t ok,
    _ensure_connected w s = (s', t, Ok ok) /\
    connected s' = ok /\
    if connected s && namespace s && w_probe w
    then s' = s /\ t = [EvCurrentUser] /\ ok = true
    else _search_cache s' = [] /\ _folder_cache s' = [] /\
         _shared_recipient_cache s' = None /\
         exists k, (1 <= k)%nat /\
           t = (if connected s && namespace s then [EvCurrentUser] else [])
               ++ attempts 0 k /\
           ok = w_connect w (Z.of_nat k - 1).
Proof.
  unfold _ensure_connected, _is_connection_alive. run.
  destruct (connected s) eqn:Ec; destruct (namespace s) eqn:En; simpl;
    try destruct (w_probe w) eqn:Ep; run;
    [| (match goal with
         | |- context [connect w ?s0] =>
             destruct (connect_from_attempts w
                         (Z.to_nat (_max_retries s0 - 1)) 0 s0)
               as (s' & k & Hk & H & Hf & Hl & C1 & C2 & C3 & C4 & C5 & C6 & C7);
             unfold connect; run; rewrite H
         end;
         simpl in *; do 3 eexists; (split; [reflexivity|]);
         (split; [exact C1|]);
         (split; [exact C4|]); (split; [exact C5|]); (split; [exact C6|]);
         exists k; split; [lia|split; reflexivity]) ..].
  do 3 eexists. split; [reflexivity|]. split; [exact Ec|].
  split; [reflexivity|]. split; reflexivity.
Qed.

(** X11: [_ensure_connected] never raises and answers whether the client
    is connected afterwards.  A client whose session answers the probe is
    left exactly as it is, at the price of that one probe.  In every other
    case the search cache, the folder cache and the cached shared
    recipient are dropped before the connection attempts, whether or not
    these succeed, and the answer is that of the last attempt. *)
Theorem ensure_connected_resets_stale_client w s :
  exists s' t ok,
    _ensure_connected w s = (s', t, Ok ok) /\
    connected s' = ok /\
    if connected s && namespace s && w_probe w
    then s' = s /\ t = [EvCurrentUser] /\ ok = true
    else _search_cache s' = [] /\ _folder_cache s' = [] /\
         _shared_recipient_cache s' = None /\
         exists k, (1 <= k)%nat /\
           t = (if connected s && namespace s then [EvCurrentUser] else [])
               ++ attempts 0 k /\
           ok = w_connect w (Z.of_nat k - 1).
Proof. apply ensure_connected_cases. Qed.

(** ** The access check *)

Lemma bind_ok {A B} (m : M A) (k : A -> M B) s s1 t1 a :
  m s = (s1, t1, Ok a) ->
  bind m k s = (let '(s2, t2, r) := k a s1 in (s2, t1 ++ t2, r)).
Proof. unfold bind. intros ->. reflexivity. Qed.

Ltac step :=
  run;
  cbn [outlook namespace connected _search_cache _folder_cache
       _shared_recipient_cache _max_retries app fst snd].

Lemma check_access_report cfg w s :
  exists s' t r,
    check_access cfg w s = (s', t, Ok r) /\
    match r with
    | AccessError _ => connected s' = false
    | AccessReport oc pa sa sc rp rs pn sn errs =>
        connected s' = true /\ oc = true /\
        sc = truthy_str (shared_mailbox_email cfg) /\
        (pa = true <-> exists inbox, w_default_folder w = Ok inbox) /\
        (pa = true -> pn <> None) /\
        (sa = true -> sc = true /\ sn <> None) /\
        (List.length errs <= 2)%nat /\
        (pa = true -> sc = false -> errs = [])
    end.
Proof.
  unfold check_access.
  destruct (ensure_connected_spec w s)
    as (s0 & t0 & ok & He & _ & _ & _ & Hc & _).
  rewrite (bind_ok _ _ _ _ _ _ He).
  destruct ok; cbn [negb].
  2:{ run. do 3 eexists. split; [reflexivity|]. exact Hc. }
  unfold probe_shared, shared_recipient, _get_store_display_name. run.
  destruct s0 as [o n c sc fc rc mr]. simpl in Hc. subst c.
  destruct (w_default_folder w) as [inbox|e0] eqn:Ed; step;
    [destruct (ib_parent inbox) as [p|ep]; step;
       [destruct (st_display_name p); [|destruct (st_name p)]|]; step|];
    (destruct (truthy_str (shared_mailbox_email cfg)) eqn:Et; step;
     [destruct rc as [r0|]; step;
      [|destruct (w_create_recipient w (default "" (shared_mailbox_email cfg)))
          as [r0|er]; step];
      try (destruct (sr_resolved r0); step;
           [destruct (sr_inbox r0) as [si|es]; step;
            [destruct (ib_parent si) as [p2|ep2]; step;
             [destruct (st_display_name p2); [|destruct (st_name p2)]|]; step
            |]
           |])
     |]);
    do 3 eexists; (split; [reflexivity|]); simpl;
    repeat split; try reflexivity; try discriminate; try (simpl; lia);
    try (intros; eexists; reflexivity);
    try (intros [? ?]; discriminate); try (intros; discriminate).
Qed.

(** X12: [check_access] never raises.  It answers the error dict exactly
    when no connection could be made; otherwise a report with
    outlook_connected set, in which personal_accessible says whether the
    default folder could be opened, an accessible mailbox has a name, the
    shared mailbox is only accessible when an address is set, and at most
    two errors are listed, none when the personal mailbox is accessible
    and no shared address is set. *)
Theorem check_access_never_raises cfg w s :
  exists s' t r,
    check_access cfg w s = (s', t, Ok r) /\
    match r with
    | AccessError _ => connected s' = false
    | AccessReport oc pa sa sc rp rs pn sn errs =>
        connected s' = true /\ oc = true /\
        sc = truthy_str (shared_mailbox_email cfg) /\
        (pa = true <-> exists inbox, w_default_folder w = Ok inbox) /\
        (pa = true -> pn <> None) /\
        (sa = true -> sc = true /\ sn <> None) /\
        (List.length errs <= 2)%nat /\
        (pa = true -> sc = false -> errs = [])
    end.
Proof. apply check_access_report. Qed.

(** X13: the tool check_mailbox_access always answers the mailbox status
    payload, whose status is success, whatever arguments it is given and
    whatever the session answers: when Outlook cannot be reached the
    payload still says success, with connection.outlook_connected false.
    The error payloads of the handler and of the dispatcher are never
    produced for this tool. *)
Theorem check_mailbox_access_tool_always_succeeds cfg w arguments s :
  exists s' t status,
    call_tool cfg w "check_mailbox_access" arguments s
      = (s', t, Ok (text (MailboxStatusPayload status))) /\
    payload_status (MailboxStatusPayload status) = "success" /\
    ms_outlook_connected status = connected s' /\
    (connected s' = true ->
     ms_shared_configured status = truthy_str (shared_mailbox_email cfg)).
Proof.
  destruct (check_access_report cfg w s) as (s' & t & r & H & Hr).
  exists s', (t ++ []), (format_mailbox_status cfg r).
  split.
  - unfold call_tool. cbn [String.eqb Ascii.eqb Bool.eqb].
    apply try_catch_of_ok. unfold handle_check_mailbox_access.
    apply try_catch_of_ok. rewrite (bind_ok _ _ _ _ _ _ H). reflexivity.
  - split; [reflexivity|].
    destruct r as [msg|oc pa sa sc rp rs pn sn errs]; simpl.
    + split; [symmetry; exact Hr|]. intros Hc. congruence.
    + destruct Hr as (Hc & -> & -> & _). split; [symmetry; exact Hc|].
      intros _. reflexivity.
Qed.

(* ================================================================== *)
(** * Further properties of the client *)
(* ================================================================== *)

(** ** Records of a search *)

Lemma establishes_ret {A} I (Q : A -> Prop) a : Q a -> establishes I (ret a) Q.
Proof.
  intros Hq s s' t r Hi H. unfold ret in H. injection H as <- _ <-.
  split; [exact Hi|]. intros a' E. injection E as <-. exact Hq.
Qed.

Lemma establishes_lift {A} I (Q : A -> Prop) (x : Result A) :
  (forall a, x = Ok a -> Q a) -> establishes I (lift x) Q.
Proof.
  intros Hq s s' t r Hi H. unfold lift in H. injection H as <- _ <-.
  split; [exact Hi|exact Hq].
Qed.

Lemma establishes_bind {A B} I (m : M A) (k : A -> M B) Q1 Q :
  establishes I m Q1 -> (forall a, Q1 a -> establishes I (k a) Q) ->
  establishes I (bind m k) Q.
Proof.
  intros Hm Hk s s' t r Hi H. apply bind_inv in H.
  destruct H as [(e & H & ->)|(s1 & t1 & a & t2 & H1 & H & _)].
  - destruct (Hm _ _ _ _ Hi H) as [Hi' _]. split; [exact Hi'|].
    intros a E; discriminate.
  - destruct (Hm _ _ _ _ Hi H1) as [Hi1 Hq1].
    exact (Hk a (Hq1 a eq_refl) _ _ _ _ Hi1 H).
Qed.

Lemma establishes_try_catch {A} I (m : M A) h (Q : A -> Prop) :
  establishes I m Q -> (forall e, establishes I (h e) Q) ->
  establishes I (try_catch m h) Q.
Proof.
  intros Hm Hh s s' t r Hi H. apply try_catch_inv in H.
  destruct H as [(a & H & ->)|(s1 & t1 & e & t2 & H1 & H & _)].
  - exact (Hm _ _ _ _ Hi H).
  - destruct (Hm _ _ _ _ Hi H1) as [Hi1 _]. exact (Hh e _ _ _ _ Hi1 H).
Qed.

Lemma establishes_weaken {A} I (m : M A) (Q Q' : A -> Prop) :
  establishes I m Q -> (forall a, Q a -> Q' a) -> establishes I m Q'.
Proof.
  intros Hm Hq s s' t r Hi H. destruct (Hm _ _ _ _ Hi H) as [Hi' Ha].
  split; [exact Hi'|]. intros a E. apply Hq, Ha, E.
Qed.

Lemma establishes_preserves {A} I (m : M A) :
  preserves I m -> establishes I m (fun _ => True).
Proof.
  intros Hm s s' t r Hi H. split; [exact (Hm _ _ _ _ Hi H)|]. auto.
Qed.

Lemma establishes_get_state I : establishes I get_state I.
Proof.
  intros s s' t r Hi H. unfold get_state in H. injection H as <- _ <-.
  split; [exact Hi|]. intros a E. injection E as <-. exact Hi.
Qed.

Section SearchRecords.
Variable P : MailRecord -> Prop.
Hypothesis extract_P : forall cfg w item fn mt d,
  _extract_email_data cfg w item fn mt = Some d -> P d.

Let I (s : State) : Prop := cache_all P (_search_cache s).

Lemma scan_all cfg w fn mt max_results filtered :
  forall count emails found b emails' found',
    scan cfg w fn mt max_results filtered count emails found
      = (b, emails', found') ->
    Forall P emails -> Forall P emails'.
Proof.
  induction filtered as [|[item|] rest IH]; intros count emails found b
    emails' found' Hs Hall; simpl in Hs.
  - injection Hs as _ <- _. exact Hall.
  - destruct (count >=? max_results); [injection Hs as _ <- _; exact Hall|].
    destruct (negb (String.eqb (default "" (it_entry_id item)) "")
              && negb (mem (default "" (it_entry_id item)) found)).
    + destruct (_extract_email_data cfg w item fn mt) as [d|] eqn:Ed.
      * eapply IH; [exact Hs|]. apply Forall_app. split; [exact Hall|].
        constructor; [eapply extract_P; exact Ed|constructor].
      * eapply IH; eauto.
    + eapply IH; eauto.
  - injection Hs as _ <- _. exact Hall.
Qed.

Lemma search_folder_restrict_all J cfg w folder txt mt max_results found :
  establishes J
    (_search_folder_restrict cfg w folder txt mt max_results found)
    (fun r => Forall P (fst r)).
Proof.
  intros s s' t r Hi H.
  destruct (search_folder_restrict_spec cfg w folder txt mt max_results found s)
    as (t0 & emails & found' & Hs & _).
  rewrite Hs in H. injection H as <- _ <-. split; [exact Hi|].
  intros a E. injection E as <-. simpl.
  revert Hs. unfold _search_folder_restrict.
  set (safe := replace "'" "''" txt).
  destruct (match f_restrict folder (dasl_filter safe) with
            | Some filtered =>
                scan cfg w (f_name folder) mt max_results filtered 0 [] found
            | None => (false, [], found)
            end) as [[finished emails1] found1] eqn:E1.
  assert (H1 : Forall P emails1).
  { destruct (f_restrict folder (dasl_filter safe)).
    - eapply scan_all; [exact E1|constructor].
    - injection E1 as _ <- _. constructor. }
  destruct finished.
  - run. intros H. injection H as _ <- _. exact H1.
  - destruct (f_restrict folder (subject_filter safe)) as [filtered|].
    + destruct (scan cfg w (f_name folder) mt max_results filtered 0 emails1
                     found1) as [[b2 emails2] found2] eqn:E3.
      run. intros H. injection H as _ <- _.
      eapply scan_all; [exact E3|exact H1].
    + run. intros H. injection H as _ <- _. exact H1.
Qed.

Lemma search_folders_all J cfg w txt mt max_results folders :
  forall emails found, Forall P emails ->
  establishes J (search_folders cfg w txt mt max_results folders emails found)
              (Forall P).
Proof.
  induction folders as [|f rest IH]; intros emails found Hall; simpl.
  - apply establishes_ret. exact Hall.
  - destruct (Z.of_nat (List.length emails) >=? max_results);
      [apply establishes_ret; exact Hall|].
    eapply establishes_bind.
    + apply establishes_try_catch; [apply search_folder_restrict_all|].
      intros e. apply establishes_ret. simpl. constructor.
    + intros r Hr. apply IH. apply Forall_app. split; assumption.
Qed.

Lemma preserves_get_folder_by_name parent name :
  preserves I (_get_folder_by_name parent name).
Proof.
  unfold _get_folder_by_name. intros s s' t r Hi. run.
  destruct (lookup _ (_folder_cache s));
    [intros H; injection H as <- _ _; exact Hi|].
  destruct (st_folders parent) as [fs|];
    [|intros H; injection H as <- _ _; exact Hi].
  destruct (find _ fs); intros H; injection H as <- _ _; exact Hi.
Qed.

Lemma search_mailbox_comprehensive_all cfg w inbox txt mt max_results :
  establishes I (_search_mailbox_comprehensive cfg w inbox txt mt max_results)
              (Forall P).
Proof.
  unfold _search_mailbox_comprehensive, _collect_subfolders_recursive.
  eapply establishes_bind with (Q1 := fun _ => True).
  { apply establishes_preserves. apply preserves_bind;
      [intros s s' t r Hi H; unfold emit_all in H; injection H as <- _ _;
       exact Hi|intros _; apply preserves_ret]. }
  intros folders _.
  eapply establishes_bind with (Q1 := fun _ => True).
  { apply establishes_preserves. unfold add_sent_items.
    destruct (include_sent_items cfg); [|apply preserves_ret].
    apply preserves_bind; [apply preserves_emit|intros _].
    apply preserves_bind; [apply preserves_lift|intros parent].
    apply preserves_bind; [apply preserves_get_folder_by_name|intros sent].
    destruct sent; apply preserves_ret. }
  intros fs _. apply search_folders_all. constructor.
Qed.

Lemma preserves_set_shared_recipient c :
  preserves I (set_shared_recipient_cache c).
Proof.
  intros s s' t r Hi H. unfold set_shared_recipient_cache in H.
  injection H as <- _ _. exact Hi.
Qed.

Lemma preserves_shared_recipient w addr :
  preserves I (shared_recipient w addr).
Proof.
  unfold shared_recipient. apply preserves_bind;
    [apply preserves_get_state|intros s0].
  destruct (_shared_recipient_cache s0); [apply preserves_ret|].
  apply preserves_bind; [apply preserves_emit|intros _].
  apply preserves_bind; [apply preserves_lift|intros r0].
  apply preserves_bind; [apply preserves_set_shared_recipient|intros _].
  apply preserves_ret.
Qed.

Lemma search_shared_all cfg w txt max_results all :
  Forall P all ->
  establishes I (search_shared cfg w txt max_results all) (Forall P).
Proof.
  intros Hall. unfold search_shared. apply establishes_try_catch.
  - eapply establishes_bind with (Q1 := fun _ => True).
    { apply establishes_preserves, preserves_shared_recipient. }
    intros rcp _. destruct (sr_resolved rcp);
      [|apply establishes_ret; exact Hall].
    eapply establishes_bind with (Q1 := fun _ => True).
    { apply establishes_preserves, preserves_emit. }
    intros _ _.
    eapply establishes_bind with (Q1 := fun _ => True).
    { apply establishes_preserves, preserves_lift. }
    intros inbox _.
    eapply establishes_bind; [apply search_mailbox_comprehensive_all|].
    intros l Hl. apply establishes_ret. apply Forall_app. split; assumption.
  - intros e. eapply establishes_bind with (Q1 := fun _ => True).
    { apply establishes_preserves, preserves_set_shared_recipient. }
    intros _ _. apply establishes_ret. exact Hall.
Qed.

Lemma ensure_connected_all w :
  establishes I (_ensure_connected w) (fun _ => True).
Proof.
  intros s s' t r Hi H.
  destruct (ensure_connected_spec w s)
    as (s0 & t0 & ok & He & _ & _ & Hcache & _).
  rewrite He in H. injection H as <- _ _. split; [|auto].
  unfold I. destruct Hcache as [-> | ->]; [exact Hi|].
  intros k e [].
Qed.

Lemma slice_to_all {A} (Q : A -> Prop) n l : Forall Q l -> Forall Q (slice_to n l).
Proof. unfold slice_to. destruct (0 <=? n); apply Forall_firstn'. Qed.

Lemma search_emails_all cfg w txt ip ish :
  establishes I (search_emails cfg w txt ip ish) (Forall P).
Proof.
  unfold search_emails.
  eapply establishes_bind; [apply ensure_connected_all|]. intros ok _.
  destruct (negb ok); [apply establishes_ret; constructor|].
  eapply establishes_bind; [apply establishes_get_state|]. intros s0 Hs0.
  destruct (cache_hit w _ s0) as [entry|] eqn:Eh.
  { apply establishes_ret. unfold cache_hit in Eh.
    destruct (lookup _ (_search_cache s0)) as [ce|] eqn:El; [|discriminate].
    destruct (w_time w - timestamp ce <? 3600); [|discriminate].
    injection Eh as <-. apply lookup_In in El. exact (Hs0 _ _ El). }
  eapply establishes_bind with (Q1 := Forall P).
  { destruct ip; [|apply establishes_ret; constructor].
    eapply establishes_bind with (Q1 := fun _ => True).
    { apply establishes_preserves, preserves_emit. }
    intros _ _.
    eapply establishes_bind with (Q1 := fun _ => True).
    { apply establishes_preserves, preserves_lift. }
    intros inbox _. apply search_mailbox_comprehensive_all. }
  intros personal Hp.
  eapply establishes_bind with (Q1 := Forall P).
  { destruct (ish && _shared_mailbox_configured cfg);
      [apply search_shared_all; exact Hp|apply establishes_ret; exact Hp]. }
  intros all Hall.
  eapply establishes_bind with (Q1 := Forall P).
  { apply establishes_lift. intros l Hl.
    eapply Permutation_Forall; [eapply sorted_perm; exact Hl|exact Hall]. }
  intros sorted_emails Hso.
  eapply establishes_bind; [apply establishes_get_state|]. intros s1 Hs1.
  eapply establishes_bind with (Q1 := fun _ => True).
  { intros s s' t r Hi H. unfold set_search_cache in H.
    injection H as <- _ _. split; [|auto]. unfold I. simpl.
    intros k e Hin. apply limit_cache_In, dict_set_In in Hin.
    destruct Hin as [[_ ->]|Hin]; [|exact (Hs1 _ _ Hin)].
    simpl. apply slice_to_all. exact Hso. }
  intros _ _. apply establishes_ret. apply slice_to_all. exact Hso.
Qed.

Lemma check_access_all cfg w s s' t r :
  check_access cfg w s = (s', t, r) -> I s -> I s'.
Proof.
  intros H Hi. apply check_access_search_cache in H. unfold I.
  destruct H as [-> | ->]; [exact Hi|]. intros k e [].
Qed.

Lemma reachable_all cfg s : reachable cfg s -> I s.
Proof.
  induction 1 as [|w txt ip ish s s' t r Hr IH H|w s s' t r Hr IH H].
  - intros k e [].
  - exact (proj1 (search_emails_all cfg w txt ip ish _ _ _ _ IH H)).
  - eapply check_access_all; eassumption.
Qed.

Lemma search_results_all cfg w txt ip ish s s' t l :
  reachable cfg s ->
  search_emails cfg w txt ip ish s = (s', t, Ok l) -> Forall P l.
Proof.
  intros Hr H.
  exact (proj2 (search_emails_all cfg w txt ip ish _ _ _ _ (reachable_all _ _ Hr) H)
               l eq_refl).
Qed.

End SearchRecords.

Lemma read_recipients_complete max_recipients total rs :
  forall count to cc all to' cc' all',
    read_recipients max_recipients total rs count to cc all = (to', cc', all') ->
    Forall complete_entry to -> Forall complete_entry cc ->
    Forall complete_entry to' /\ Forall complete_entry cc'.
Proof.
  induction rs as [|[r|] rest IH]; intros count to cc all to' cc' all' H Ht Hc;
    simpl in H.
  - injection H as <- <- _. auto.
  - destruct (count >=? max_recipients); [injection H as <- <- _; auto|].
    destruct (default OL_TO (rc_type r) =? OL_CC).
    + eapply IH; [exact H|exact Ht|]. apply Forall_app. split; [exact Hc|].
      constructor; [do 2 eexists; reflexivity|constructor].
    + eapply IH; [exact H| |exact Hc]. apply Forall_app. split; [exact Ht|].
      constructor; [do 2 eexists; reflexivity|constructor].
  - injection H as <- <- _. auto.
Qed.

Lemma extract_complete cfg w item fn mt d :
  _extract_email_data cfg w item fn mt = Some d -> complete d.
Proof.
  unfold _extract_email_data. destruct (it_broken item); [discriminate|].
  destruct (read_recipients _ _ _ _ _ _ _) as [[to cc] all] eqn:Er.
  destruct (read_recipients_complete _ _ _ _ _ _ _ _ _ _ Er) as [Ht Hc];
    [constructor|constructor|].
  intros H. injection H as <-. unfold complete. cbn.
  repeat split; eauto.
Qed.

Lemma long_fits_float : 2147483648 < float_of_kb_limit.
Proof. vm_compute. reflexivity. Qed.

Lemma extract_formattable cfg w item fn mt d :
  _extract_email_data cfg w item fn mt = Some d -> formattable d.
Proof.
  intros H. split; [exact (extract_complete _ _ _ _ _ _ H)|].
  revert H. unfold _extract_email_data. destruct (it_broken item); [discriminate|].
  destruct (read_recipients _ _ _ _ _ _ _) as [[to cc] all].
  intros H. injection H as <-. unfold time_ok, size_ok. cbn [received_time size get].
  split.
  - destruct (it_received_time item) as [[aware us Hus]|]; [|reflexivity].
    unfold com_datetime. cbn [ct_aware ct_us].
    destruct aware; [exact Hus|reflexivity].
  - pose proof long_fits_float as Hl.
    destruct (it_size item) as [[v Hv]|]; cbn [long_value]; [|lia].
    apply andb_prop in Hv. destruct Hv as [H1 H2].
    apply Z.leb_le in H1. apply Z.leb_le in H2. lia.
Qed.

(** X14: every record of every list [search_emails] returns, freshly
    queried or served from the cache, has the fields the formatter reads
    as the extraction writes them: a subject, a sender name and address,
    the received time and the size, and To and CC lists whose entries are
    name and address pairs. *)
Theorem search_results_are_complete_records cfg w txt ip ish s s' t l :
  reachable cfg s ->
  search_emails cfg w txt ip ish s = (s', t, Ok l) ->
  Forall complete l.
Proof. apply search_results_all. exact extract_complete. Qed.

Lemma search_results_are_complete_records_witness :
  exists l,
    snd (search_emails Examples.plain_config Examples.overlap_world "Order"
           true false (init Examples.plain_config)) = Ok l /\
    l <> [] /\ Forall complete l.
Proof.
  eexists. split; [vm_compute; reflexivity|]. split; [discriminate|].
  eapply (search_results_are_complete_records Examples.plain_config
            Examples.overlap_world "Order" true false
            (init Examples.plain_config)).
  - constructor.
  - vm_compute. reflexivity.
Defined.

(** ** From the search to the tool's answer *)

Lemma handle_get_email_chain_after_search cfg w txt ip ish s s' t l :
  search_emails cfg w txt ip ish s = (s', t, Ok l) ->
  handle_get_email_chain cfg w txt ip ish s
  = (s', t,
     Ok (text (match format_email_chain cfg l txt with
               | Ok payload => ChainResult payload
               | Raise e =>
                   SearchError txt
                     ("Could not search emails: " ++ exn_str e)%string
                     ["Verify Outlook connection";
                      "Use specific search terms for best results";
                      "Ensure mailboxes are accessible"]
               end))).
Proof.
  intros H. unfold handle_get_email_chain, try_catch.
  rewrite (bind_ok _ _ _ _ _ _ H). run.
  destruct (format_email_chain cfg l txt); cbn [app];
    rewrite ?app_nil_r; reflexivity.
Qed.

(** X15: with include_timestamps set, the handler of get_email_chain turns
    every list the search returns into a chain payload, never into its
    error payload: status no_emails_found for the empty list and success
    otherwise.  The error payload is left to a search that raises. *)
Theorem get_email_chain_formats_every_search_result
  cfg w txt ip ish s s' t l :
  include_timestamps cfg = true ->
  reachable cfg s ->
  search_emails cfg w txt ip ish s = (s', t, Ok l) ->
  exists payload,
    handle_get_email_chain cfg w txt ip ish s
      = (s', t, Ok (text (ChainResult payload))) /\
    format_email_chain cfg l txt = Ok payload /\
    payload_status (ChainResult payload)
      = match l with [] => "no_emails_found" | _ => "success" end.
Proof.
  intros Hc Hr H.
  pose proof (search_results_all formattable extract_formattable
                _ _ _ _ _ _ _ _ _ Hr H) as Hall.
  rewrite (handle_get_email_chain_after_search _ _ _ _ _ _ _ _ _ H).
  destruct l as [|r rest].
  - eexists. split; [reflexivity|]. split; reflexivity.
  - destruct (format_email_chain_formattable cfg (r :: rest) txt Hc)
      as (su & cs & al & Hf & _); [discriminate|exact Hall|].
    rewrite Hf. eexists. split; [reflexivity|]. split; reflexivity.
Qed.

Lemma get_email_chain_formats_every_search_result_witness :
  exists payload,
    snd (handle_get_email_chain Examples.plain_config Examples.overlap_world
           "Order" true false (init Examples.plain_config))
      = Ok (text (ChainResult payload)) /\
    payload_status (ChainResult payload) = "success".
Proof.
  edestruct (get_email_chain_formats_every_search_result
               Examples.plain_config Examples.overlap_world "Order" true false
               (init Examples.plain_config))
    as (payload & Hh & _ & Hs);
    [reflexivity|constructor|vm_compute; reflexivity|].
  exists payload. rewrite Hh. split; [reflexivity|exact Hs].
Defined.

(** X16: with include_timestamps switched off, the handler of
    get_email_chain answers its error payload for every non-empty list the
    search returns: the formatter raises KeyError('received_time'), and the
    tool reports status error although the search itself succeeded. *)
Theorem get_email_chain_fails_without_timestamps
  cfg w txt ip ish s s' t l :
  include_timestamps cfg = false ->
  reachable cfg s ->
  search_emails cfg w txt ip ish s = (s', t, Ok l) ->
  l <> [] ->
  handle_get_email_chain cfg w txt ip ish s
  = (s', t,
     Ok (text (SearchError txt "Could not search emails: 'received_time'"
                 ["Verify Outlook connection";
                  "Use specific search terms for best results";
                  "Ensure mailboxes are accessible"]))).
Proof.
  intros Hc Hr H Hne.
  pose proof (search_results_all formattable extract_formattable
                _ _ _ _ _ _ _ _ _ Hr H) as Hall.
  rewrite (handle_get_email_chain_after_search _ _ _ _ _ _ _ _ _ H).
  destruct (format_email_chain_unstamped cfg l txt Hc Hne) as (e & -> & He).
  rewrite (He Hall). reflexivity.
Qed.

Lemma get_email_chain_fails_without_timestamps_witness :
  snd (handle_get_email_chain Examples.no_timestamps_config
         Examples.overlap_world "Order" true false
         (init Examples.no_timestamps_config))
  = Ok (text (SearchError "Order" "Could not search emails: 'received_time'"
                ["Verify Outlook connection";
                 "Use specific search terms for best results";
                 "Ensure mailboxes are accessible"])).
Proof.
  erewrite (get_email_chain_fails_without_timestamps
              Examples.no_timestamps_config Examples.overlap_world "Order"
              true false (init Examples.no_timestamps_config));
    [reflexivity|reflexivity|constructor|vm_compute; reflexivity|discriminate].
Defined.

Lemma handle_get_email_contacts_after_search cfg w txt ip ish s s' t l :
  search_emails cfg w txt ip ish s = (s', t, Ok l) ->
  handle_get_email_contacts cfg w txt ip ish s
  = (s', t,
     Ok (text (match get_participants l with
               | Ok participants =>
                   match get_date_range l with
                   | Ok date_range =>
                       ContactsResult
                         (match l with
                          | [] => "no_emails_found"
                          | _ => "success"
                          end)
                         txt (List.length l) date_range participants
                   | Raise e =>
                       ContactsError txt
                         ("Contact search failed: " ++ exn_str e)%string
                   end
               | Raise e =>
                   ContactsError txt
                     ("Contact search failed: " ++ exn_str e)%string
               end))).
Proof.
  intros H. unfold handle_get_email_contacts, try_catch.
  rewrite (bind_ok _ _ _ _ _ _ H). run.
  destruct (get_participants l); cbn [app];
    [destruct (get_date_range l); cbn [app]|];
    rewrite ?app_nil_r; reflexivity.
Qed.

(** X17: the handler of get_email_contacts turns every list the search
    returns into a contacts payload, never into its error payload: status
    no_emails_found for the empty list and success otherwise,
    emails_scanned the length of the list, the date range of the list,
    which does not raise, and at most twenty contacts, none for the empty
    list. *)
Theorem get_email_contacts_answers_every_search_result
  cfg w txt ip ish s s' t l :
  reachable cfg s ->
  search_emails cfg w txt ip ish s = (s', t, Ok l) ->
  exists contacts date_range,
    handle_get_email_contacts cfg w txt ip ish s
      = (s', t,
         Ok (text (ContactsResult
                     (match l with [] => "no_emails_found" | _ => "success" end)
                     txt (List.length l) date_range contacts))) /\
    get_date_range l = Ok date_range /\
    get_participants l = Ok contacts /\
    (List.length contacts <= 20)%nat /\
    (l = [] -> contacts = []).
Proof.
  intros Hr H.
  pose proof (search_results_all formattable extract_formattable
                _ _ _ _ _ _ _ _ _ Hr H) as Hall.
  rewrite (handle_get_email_contacts_after_search _ _ _ _ _ _ _ _ _ H).
  destruct (get_participants_total l (formattable_complete _ Hall))
    as (ps & Hps).
  destruct (date_range_total l (formattable_time_ok _ Hall)) as (range & Hd).
  rewrite Hps, Hd.
  exists ps, range. split; [reflexivity|]. split; [reflexivity|].
  split; [reflexivity|]. split.
  - apply get_participants_inv in Hps. destruct Hps as (all & _ & ->).
    apply firstn_length_le'.
  - intros ->. vm_compute in Hps. congruence.
Qed.

Lemma get_email_contacts_answers_every_search_result_witness :
  exists contacts,
    snd (handle_get_email_contacts Examples.plain_config
           Examples.overlap_world "Order" true false
           (init Examples.plain_config))
      = Ok (text (ContactsResult "success" "Order" 1
                    (mkRange (Some (Iso (Naive 63800000000000000)))
                             (Some (Iso (Naive 63800000000000000))))
                    contacts)) /\
    (List.length contacts <= 20)%nat.
Proof.
  edestruct (get_email_contacts_answers_every_search_result
               Examples.plain_config Examples.overlap_world "Order" true false
               (init Examples.plain_config))
    as (contacts & range & Hh & Hd & _ & Hl & _);
    [constructor|vm_compute; reflexivity|].
  exists contacts. rewrite Hh. vm_compute in Hd. injection Hd as <-.
  split; [reflexivity|exact Hl].
Defined.

(** ** The search cache over time *)

(** X18: in every state the client can reach, by any sequence of searches
    and access checks and whatever the session answers, the search cache
    holds at most 100 entries, and every record cached has the fields the
    extraction writes. *)
Theorem search_cache_stays_bounded cfg s :
  reachable cfg s ->
  (List.length (_search_cache s) <= 100)%nat /\
  cache_all complete (_search_cache s).
Proof.
  intros Hr. split; [apply (reachable_cache _ _ Hr)|].
  exact (reachable_all complete extract_complete _ _ Hr).
Qed.

Lemma after_order_search_reachable :
  reachable Examples.plain_config Examples.after_order_search.
Proof.
  apply (reach_search Examples.plain_config
           (Examples.world_of [Some Examples.order_item] []) "Order" true false
           (init Examples.plain_config) Examples.after_order_search
           (snd (fst (search_emails Examples.plain_config
                        (Examples.world_of [Some Examples.order_item] [])
                        "Order" true false (init Examples.plain_config))))
           (snd (search_emails Examples.plain_config
                   (Examples.world_of [Some Examples.order_item] [])
                   "Order" true false (init Examples.plain_config))));
    [constructor|].
  unfold Examples.after_order_search.
  destruct (search_emails _ _ _ _ _ _) as [[s t] r]. reflexivity.
Qed.

Lemma search_cache_stays_bounded_witness :
  List.length (_search_cache Examples.after_order_search) = 1%nat /\
  (List.length (_search_cache Examples.after_order_search) <= 100)%nat.
Proof.
  split; [vm_compute; reflexivity|].
  exact (proj1 (search_cache_stays_bounded Examples.plain_config
                  Examples.after_order_search after_order_search_reachable)).
Defined.

Lemma limit_cache_small cache :
  (List.length cache <= 100)%nat -> limit_cache cache = cache.
Proof.
  intros H. unfold limit_cache.
  destruct (100 <? List.length cache)%nat eqn:E; [|reflexivity].
  apply Nat.ltb_lt in E. lia.
Qed.

(** X19: a cache entry that is 3600 seconds old or older is not served.
    With the session alive, the search runs again; when it returns a list,
    that list replaces the entry under the same key, stamped with the
    current time, and the other entries stay; when it raises, the cache is
    left as it was, stale entry included. *)
Theorem expired_cache_entry_is_replaced cfg w txt ip ish s s' t r e :
  reachable cfg s ->
  connected s = true -> namespace s = true -> w_probe w = true ->
  lookup (cache_key txt ip ish (max_search_results cfg)) (_search_cache s)
    = Some e ->
  3600 <= w_time w - timestamp e ->
  search_emails cfg w txt ip ish s = (s', t, r) ->
  match r with
  | Ok l =>
      _search_cache s'
      = dict_set (cache_key txt ip ish (max_search_results cfg))
                 (mkEntry l (w_time w)) (_search_cache s) /\
      lookup (cache_key txt ip ish (max_search_results cfg)) (_search_cache s')
      = Some (mkEntry l (w_time w))
  | Raise _ => _search_cache s' = _search_cache s
  end.
Proof.
  intros Hr Hc Hn Hp Hl Hold H.
  destruct (reachable_cache _ _ Hr) as [Hok Hlen].
  destruct (search_emails_spec _ _ _ _ _ _ _ _ _ H Hok)
    as (s0 & t0 & ok & t1 & He & _ & _ & _ & _ & _ & _ & _ & Hm & Hx).
  destruct (ensure_connected_spec w s)
    as (s0' & t0' & ok' & He' & _ & _ & _ & _ & _ & Hlive).
  rewrite He in He'. injection He' as <- <- <-.
  destruct (Hlive Hc Hn Hp) as (-> & _ & ->).
  assert (Hmiss : cache_hit w (cache_key txt ip ish (max_search_results cfg)) s
                  = None).
  { unfold cache_hit. rewrite Hl.
    destruct (w_time w - timestamp e <? 3600) eqn:E; [|reflexivity].
    apply Z.ltb_lt in E. lia. }
  destruct r as [l|e'].
  - destruct (Hm l eq_refl Hmiss eq_refl) as (Hs & _).
    rewrite limit_cache_small in Hs
      by (rewrite (dict_set_length_old _ _ _ _ Hl); exact Hlen).
    split; [exact Hs|]. rewrite Hs. apply lookup_dict_set.
  - exact (Hx e' eq_refl).
Qed.

Lemma expired_cache_entry_is_replaced_witness :
  exists l,
    snd (search_emails Examples.plain_config
           (Examples.later_world 3600
              (Examples.world_of [Some Examples.order_item] []))
           "Order" true false Examples.after_order_search) = Ok l /\
    lookup (cache_key "Order" true false 500)
           (_search_cache
              (fst (fst (search_emails Examples.plain_config
                 (Examples.later_world 3600
                    (Examples.world_of [Some Examples.order_item] []))
                 "Order" true false Examples.after_order_search))))
    = Some (mkEntry l 4600).
Proof.
  eexists. split; [vm_compute; reflexivity|].
  refine (proj2 (expired_cache_entry_is_replaced Examples.plain_config
            (Examples.later_world 3600
               (Examples.world_of [Some Examples.order_item] []))
            "Order" true false Examples.after_order_search _ _ (Ok _) _
            after_order_search_reachable _ _ _ _ _ _)).
  - reflexivity.
  - reflexivity.
  - reflexivity.
  - vm_compute. reflexivity.
  - vm_compute. discriminate.
  - vm_compute. reflexivity.
Defined.

(* ================================================================== *)
(** * Further properties of the server *)
(* ================================================================== *)

(** X22: a call the dispatcher refuses never reaches the client: no
    session access is made and the client state, caches included, is
    left as it is.  The answer names the tool and says either that
    search_text is required (for a listed tool) or that the tool is
    unknown. *)
Theorem refused_call_leaves_client_untouched cfg w name arguments s :
  dispatch_refuses name arguments = true ->
  exists err,
    call_tool cfg w name arguments s
      = (s, [], Ok (text (ToolError name err
                            ("Failed to execute " ++ name ++ ": " ++ err)%string)))
    /\ err = if existsb (fun tool => String.eqb (tool_name tool) name) list_tools
             then "search_text parameter is required"
             else ("Unknown tool: " ++ name)%string.
Proof.
  unfold dispatch_refuses, call_tool, required_search_text. intros H.
  cbn [list_tools existsb tool_name].
  rewrite !(String.eqb_sym _ name).
  destruct (name =? "check_mailbox_access")%string; [discriminate|].
  destruct (name =? "get_email_chain")%string; cbn [orb] in *.
  - rewrite H. eexists. split; reflexivity.
  - destruct (name =? "get_email_contacts")%string; cbn [orb] in *.
    + rewrite H. eexists. split; reflexivity.
    + eexists. split; reflexivity.
Qed.

Lemma refused_call_leaves_client_untouched_witness :
  call_tool Examples.plain_config Examples.overlap_world "get_email_chain"
            (mkArgs (Val "") None None) Examples.after_order_search
  = (Examples.after_order_search, [],
     Ok (text (ToolError "get_email_chain" "search_text parameter is required"
                 "Failed to execute get_email_chain: search_text parameter is required"))).
Proof.
  destruct (refused_call_leaves_client_untouched Examples.plain_config
              Examples.overlap_world "get_email_chain"
              (mkArgs (Val "") None None) Examples.after_order_search)
    as (err & H & ->); [reflexivity|].
  exact H.
Defined.

Lemma call_tool_runs_handler name s (m h : M (list TextContent)) :
  m s = h s ->
  (exists s' t l, h s = (s', t, Ok l) /\ from_handler l) ->
  exists s' t l,
    try_catch m
      (fun e => ret (text (ToolError name (exn_str e)
         ("Failed to execute " ++ name ++ ": " ++ exn_str e)%string))) s
    = (s', t, Ok l) /\
    h s = (s', t, Ok l) /\ from_handler l.
Proof.
  intros E (s' & t & l & H & Hl). exists s', t, l.
  split; [apply try_catch_of_ok; rewrite E; exact H|]. split; assumption.
Qed.

Lemma bind_ret_run {A B} (a : A) (k : A -> M B) s :
  (x <- ret a ;; k x) s = k a s.
Proof. unfold bind, ret. destruct (k a s) as [[s' t] r]. reflexivity. Qed.

(** X23: [call_tool] and the tool list agree.  For a name that
    [list_tools] announces, [call_tool] answers that search_text is
    required, without touching the client, exactly when the tool's schema
    requires search_text and the arguments carry none (missing, None or
    empty); otherwise it runs the handler of that name, with search_text
    and the two flags defaulting to true, and returns what the handler
    returns, one payload of the handler's own.  For every other name it
    answers "Unknown tool", again without touching the client. *)
Theorem call_tool_dispatches_the_listed_tools cfg w name arguments s :
  (forall tool,
     In tool list_tools -> tool_name tool = name ->
     if existsb (String.eqb "search_text") (tool_required tool)
        && negb (truthy_str (get (search_text arguments) None))
     then
       call_tool cfg w name arguments s
       = (s, [],
          Ok (text (ToolError name "search_text parameter is required"
                      ("Failed to execute " ++ name
                       ++ ": search_text parameter is required")%string)))
     else
       exists s' t l,
         call_tool cfg w name arguments s = (s', t, Ok l) /\
         (if name =? "check_mailbox_access" then
            handle_check_mailbox_access cfg w
          else if name =? "get_email_chain" then
            handle_get_email_chain cfg w
              (default "" (get (search_text arguments) None))
              (default true (include_personal arguments))
              (default true (include_shared arguments))
          else
            handle_get_email_contacts cfg w
              (default "" (get (search_text arguments) None))
              (default true (include_personal arguments))
              (default true (include_shared arguments)))%string s
         = (s', t, Ok l) /\
         from_handler l) /\
  (~ In name (map tool_name list_tools) ->
   call_tool cfg w name arguments s
   = (s, [],
      Ok (text (ToolError name ("Unknown tool: " ++ name)
                  ("Failed to execute " ++ name ++ ": Unknown tool: "
                   ++ name)%string)))).
Proof.
  split.
  - intros tool [<-|[<-|[<-|[]]]] <-; cbn [tool_name tool_required existsb andb orb].
    + unfold call_tool. cbn [String.eqb Ascii.eqb Bool.eqb].
      apply call_tool_runs_handler;
        [reflexivity|apply handle_check_mailbox_access_answers].
    + change (("search_text" =? "search_text")%string) with true.
      cbn [orb andb]. unfold call_tool, required_search_text.
      change (("get_email_chain" =? "check_mailbox_access")%string) with false.
      change (("get_email_chain" =? "get_email_chain")%string) with true.
      cbv iota.
      destruct (truthy_str (get (search_text arguments) None));
        cbn [negb]; [|reflexivity].
      apply call_tool_runs_handler;
        [apply (bind_ret_run _ (fun st => handle_get_email_chain cfg w st _ _))
        |apply handle_get_email_chain_answers].
    + change (("search_text" =? "search_text")%string) with true.
      cbn [orb andb]. unfold call_tool, required_search_text.
      change (("get_email_contacts" =? "check_mailbox_access")%string) with false.
      change (("get_email_contacts" =? "get_email_chain")%string) with false.
      change (("get_email_contacts" =? "get_email_contacts")%string) with true.
      cbv iota.
      destruct (truthy_str (get (search_text arguments) None));
        cbn [negb]; [|reflexivity].
      apply call_tool_runs_handler;
        [apply (bind_ret_run _ (fun st => handle_get_email_contacts cfg w st _ _))
        |apply handle_get_email_contacts_answers].
  - intros Hn. unfold call_tool.
    destruct (name =? "check_mailbox_access")%string eqn:E1;
      [apply String.eqb_eq in E1; exfalso; apply Hn; subst; simpl; auto|].
    destruct (name =? "get_email_chain")%string eqn:E2;
      [apply String.eqb_eq in E2; exfalso; apply Hn; subst; simpl; auto|].
    destruct (name =? "get_email_contacts")%string eqn:E3;
      [apply String.eqb_eq in E3; exfalso; apply Hn; subst; simpl; auto|].
    reflexivity.
Qed.

Lemma call_tool_dispatches_the_listed_tools_witness :
  call_tool Examples.plain_config Examples.overlap_world "get_email_contacts"
            (mkArgs PyNone None None) (init Examples.plain_config)
  = (init Examples.plain_config, [],
     Ok (text (ToolError "get_email_contacts" "search_text parameter is required"
                 "Failed to execute get_email_contacts: search_text parameter is required"))) /\
  (exists s' t l,
     call_tool Examples.plain_config Examples.overlap_world "get_email_contacts"
               (mkArgs (Val "Order") None None) (init Examples.plain_config)
     = (s', t, Ok l) /\
     handle_get_email_contacts Examples.plain_config Examples.overlap_world
       "Order" true true (init Examples.plain_config)
     = (s', t, Ok l)).
Proof.
  split.
  - exact (proj1 (call_tool_dispatches_the_listed_tools
                    Examples.plain_config Examples.overlap_world
                    "get_email_contacts" (mkArgs PyNone None None)
                    (init Examples.plain_config))
                 (mkTool "get_email_contacts" ["search_text"])
                 (or_intror (or_intror (or_introl eq_refl))) eq_refl).
  - destruct (proj1 (call_tool_dispatches_the_listed_tools
                       Examples.plain_config Examples.overlap_world
                       "get_email_contacts" (mkArgs (Val "Order") None None)
                       (init Examples.plain_config))
                    (mkTool "get_email_contacts" ["search_text"])
                    (or_intror (or_intror (or_introl eq_refl))) eq_refl)
      as (s' & t & l & H1 & H2 & _).
    exists s', t, l. split; [exact H1|exact H2].
Defined.

(* ================================================================== *)
(** * Further properties of the extraction *)
(* ================================================================== *)

(** ** Recipients *)

Lemma read_recipients_bounds max_recipients total rs :
  forall count to cc all to' cc' all',
    read_recipients max_recipients total rs count to cc all = (to', cc', all') ->
    Z.of_nat (List.length to + List.length cc) = count ->
    List.length all = (List.length to + List.length cc)%nat ->
    Z.of_nat (List.length to' + List.length cc') <= Z.max count max_recipients /\
    (List.length to' + List.length cc'
     <= List.length to + List.length cc + List.length rs)%nat /\
    (List.length to' + List.length cc' <= List.length all')%nat /\
    (List.length all' <= S (List.length to' + List.length cc'))%nat.
Proof.
  induction rs as [|[r|] rest IH]; intros count to cc all to' cc' all' H Hc Ha;
    simpl in H.
  - injection H as <- <- <-. simpl. lia.
  - destruct (count >=? max_recipients) eqn:E.
    + injection H as <- <- <-. rewrite length_app. simpl. lia.
    + rewrite Z.geb_leb in E. apply Z.leb_gt in E.
      destruct (default OL_TO (rc_type r) =? OL_CC).
      * apply IH in H; rewrite ?length_app in *; simpl in *; lia.
      * apply IH in H; rewrite ?length_app in *; simpl in *; lia.
  - injection H as <- <- <-. simpl. lia.
Qed.

(** X24: a record built by [_extract_email_data] lists, in to_recipients
    and cc_recipients together, at most max_recipients_display recipients
    and no more than the item has; every one of them is a name and address
    pair; the flat recipients list has one line for each, and at most one
    more, the overflow note. *)
Theorem extracted_recipients_are_capped cfg w item fn mt d :
  _extract_email_data cfg w item fn mt = Some d ->
  exists to cc all,
    to_recipients d = Val to /\ cc_recipients d = Val cc /\
    recipients d = Val all /\
    Forall complete_entry to /\ Forall complete_entry cc /\
    Z.of_nat (List.length to + List.length cc)
      <= Z.max 0 (max_recipients_display cfg) /\
    (List.length to + List.length cc <= List.length (it_recipients item))%nat /\
    (List.length to + List.length cc <= List.length all)%nat /\
    (List.length all <= S (List.length to + List.length cc))%nat.
Proof.
  unfold _extract_email_data. destruct (it_broken item); [discriminate|].
  destruct (read_recipients _ _ _ _ _ _ _) as [[to cc] all] eqn:Er.
  intros H. injection H as <-. exists to, cc, all. cbn.
  destruct (read_recipients_complete _ _ _ _ _ _ _ _ _ _ Er) as [Ht Hc];
    [constructor|constructor|].
  destruct (read_recipients_bounds _ _ _ _ _ _ _ _ _ _ Er) as (B1 & B2 & B3 & B4);
    [reflexivity|reflexivity|].
  simpl in B2. repeat split; auto.
Qed.

Lemma extracted_recipients_are_capped_witness :
  _extract_email_data Examples.two_recipients_config Examples.overlap_world
    Examples.invitation_item "Inbox" "personal"
  = Some Examples.extracted_invitation /\
  exists to cc all,
    to_recipients Examples.extracted_invitation = Val to /\
    cc_recipients Examples.extracted_invitation = Val cc /\
    recipients Examples.extracted_invitation = Val all /\
    to = [EntryDict (Val "Bob") (Val "bob@corp.test")] /\
    cc = [EntryDict (Val "Cy") (Val "cy@corp.test")] /\
    all = ["Bob"; "Cy"; "... and 1 more"] /\
    Z.of_nat (List.length to + List.length cc) <= 2 /\
    (List.length all <= S (List.length to + List.length cc))%nat.
Proof.
  split; [reflexivity|].
  destruct (extracted_recipients_are_capped Examples.two_recipients_config
              Examples.overlap_world Examples.invitation_item "Inbox"
              "personal" Examples.extracted_invitation)
    as (to & cc & all & Ht & Hc & Ha & _ & _ & Hb & _ & _ & Hs);
    [reflexivity|].
  exists to, cc, all.
  split; [exact Ht|]. split; [exact Hc|]. split; [exact Ha|].
  injection Ht as <-. injection Hc as <-. injection Ha as <-.
  split; [reflexivity|]. split; [reflexivity|]. split; [reflexivity|].
  split; [exact Hb|exact Hs].
Defined.

(** ** Cleaning of the body *)

Lemma single_spaced_weaken s : single_spaced true s = true -> single_spaced false s = true.
Proof.
  destruct s as [|c r]; simpl; [auto|].
  destruct (is_space c); [|auto]. rewrite andb_false_r. discriminate.
Qed.

Lemma collapse_ws_single_spaced s : forall b,
  single_spaced b (collapse_ws b s) = true.
Proof.
  induction s as [|c r IH]; intros b; simpl; [reflexivity|].
  destruct (is_space c) eqn:E.
  - destruct b; [apply IH|]. simpl. apply IH.
  - simpl. rewrite E. apply IH.
Qed.

Lemma lstrip_single_spaced s : forall b,
  single_spaced b s = true -> single_spaced false (lstrip s) = true.
Proof.
  induction s as [|c r IH]; intros b H; simpl in *; [reflexivity|].
  destruct (is_space c) eqn:E.
  - apply andb_prop in H. destruct H as [_ H]. exact (IH true H).
  - simpl. rewrite E. exact H.
Qed.

Lemma rstrip_single_spaced s : forall b,
  single_spaced b s = true -> single_spaced b (rstrip s) = true.
Proof.
  induction s as [|c r IH]; intros b H; simpl in *; [reflexivity|].
  destruct (is_space c) eqn:E.
  - apply andb_prop in H. destruct H as [H1 H2]. specialize (IH true H2).
    destruct (rstrip r) as [|c' r']; [reflexivity|].
    simpl. rewrite E. simpl in IH. rewrite H1. exact IH.
  - specialize (IH false H).
    destruct (rstrip r) as [|c' r']; simpl; rewrite E; [reflexivity|exact IH].
Qed.

Lemma rstrip_idem s : rstrip (rstrip s) = rstrip s.
Proof.
  induction s as [|c r IH]; simpl; [reflexivity|].
  destruct (rstrip r) as [|c' r'] eqn:Er.
  - destruct (is_space c) eqn:E; simpl; [reflexivity|]. rewrite E. reflexivity.
  - change (rstrip (String c (String c' r')) = String c (String c' r')).
    cbn [rstrip] in *. rewrite IH. reflexivity.
Qed.

Lemma lstrip_rstrip_lstrip s : lstrip (rstrip (lstrip s)) = rstrip (lstrip s).
Proof.
  induction s as [|c r IH]; simpl; [reflexivity|].
  destruct (is_space c) eqn:E; [exact IH|].
  simpl. destruct (rstrip r); rewrite ?E; simpl; rewrite ?E; reflexivity.
Qed.

Lemma strip_idem s : strip (strip s) = strip s.
Proof. unfold strip. rewrite lstrip_rstrip_lstrip. apply rstrip_idem. Qed.

Lemma prefix_length a : forall b,
  String.prefix a b = true -> (String.length a <= String.length b)%nat.
Proof.
  induction a as [|c r IH]; intros [|c' r'] H; simpl in *; try lia;
    try discriminate.
  destruct (ascii_dec c c'); [|discriminate]. specialize (IH _ H). lia.
Qed.

Lemma append_length (a b : string) :
  String.length (a ++ b)%string = (String.length a + String.length b)%nat.
Proof. induction a as [|c r IH]; simpl; [reflexivity|]. rewrite IH. reflexivity. Qed.

Lemma replace_from_length old new :
  (String.length new <= String.length old)%nat ->
  forall s skip, (skip <= String.length s)%nat ->
  (String.length (replace_from old new skip s) + skip <= String.length s)%nat.
Proof.
  intros Hn. induction s as [|c r IH]; intros skip Hs;
    cbn [replace_from String.length] in *; [lia|].
  destruct skip as [|k].
  - destruct (String.prefix old (String c r)) eqn:E.
    + apply prefix_length in E. cbn [String.length] in E.
      rewrite append_length.
      destruct (String.length old) as [|m] eqn:El.
      * assert (String.length new = 0)%nat by lia.
        specialize (IH 0%nat). simpl. lia.
      * replace (S m - 1)%nat with m by lia. specialize (IH m). lia.
    + cbn [String.length]. specialize (IH 0%nat). lia.
  - specialize (IH k). lia.
Qed.

Lemma replace_length old new s :
  (String.length new <= String.length old)%nat ->
  (String.length (replace old new s) <= String.length s)%nat.
Proof.
  intros H. pose proof (replace_from_length old new H s 0%nat). unfold replace. lia.
Qed.

Lemma remove_tags_length s : forall b,
  (String.length (remove_tags b s) <= String.length s)%nat.
Proof.
  induction s as [|c r IH]; intros b; simpl; [lia|].
  destruct b.
  - destruct (Ascii.eqb c ">"); [specialize (IH false)|specialize (IH true)]; lia.
  - destruct (Ascii.eqb c "<" && tag_opens r);
      [specialize (IH true)|simpl; specialize (IH false)]; lia.
Qed.

Lemma collapse_ws_length s : forall b,
  (String.length (collapse_ws b s) <= String.length s)%nat.
Proof.
  induction s as [|c r IH]; intros b; simpl; [lia|].
  destruct (is_space c); [destruct b|]; simpl;
    [specialize (IH true)|specialize (IH true)|specialize (IH false)]; lia.
Qed.

Lemma lstrip_length s : (String.length (lstrip s) <= String.length s)%nat.
Proof.
  induction s as [|c r IH]; simpl; [lia|]. destruct (is_space c); simpl; lia.
Qed.

Lemma rstrip_length s : (String.length (rstrip s) <= String.length s)%nat.
Proof.
  induction s as [|c r IH]; simpl; [lia|].
  destruct (rstrip r); [destruct (is_space c)|]; simpl in *; lia.
Qed.

Lemma strip_length s : (String.length (strip s) <= String.length s)%nat.
Proof.
  unfold strip. pose proof (rstrip_length (lstrip s)).
  pose proof (lstrip_length s). lia.
Qed.

Lemma clean_html_length text :
  (String.length (_clean_html text) <= String.length text)%nat.
Proof.
  unfold _clean_html.
  eapply Nat.le_trans; [apply strip_length|].
  eapply Nat.le_trans; [apply collapse_ws_length|].
  unfold html_entities. cbn [fold_left fst snd].
  repeat (eapply Nat.le_trans; [apply replace_length; simpl; lia|]).
  apply remove_tags_length.
Qed.

(** X25: the text [_clean_html] returns is never longer than its input,
    has no whitespace at either end, and its only whitespace is single
    spaces: every run of blanks, tabs and line breaks has become one
    space. *)
Theorem clean_html_normalises_whitespace text :
  (String.length (_clean_html text) <= String.length text)%nat /\
  strip (_clean_html text) = _clean_html text /\
  single_spaced false (_clean_html text) = true.
Proof.
  split; [apply clean_html_length|]. unfold _clean_html. cbv zeta.
  split; [apply strip_idem|].
  unfold strip. apply rstrip_single_spaced.
  eapply lstrip_single_spaced. apply collapse_ws_single_spaced.
Qed.

(** X26: with max_body_chars set to a positive number, the body of every
    extracted record has at most that many characters and the twelve of
    the truncation mark, cleaned or not; with no cap and cleaning switched
    off the body is the item's own. *)
Theorem extracted_body_is_capped cfg w item fn mt d :
  _extract_email_data cfg w item fn mt = Some d ->
  exists b,
    body d = Val b /\
    (0 < max_body_chars cfg ->
     Z.of_nat (String.length b) <= max_body_chars cfg + 12) /\
    (max_body_chars cfg <= 0 -> clean_html_content cfg = false ->
     b = default "" (it_body item)).
Proof.
  unfold _extract_email_data. destruct (it_broken item); [discriminate|].
  destruct (read_recipients _ _ _ _ _ _ _) as [[to cc] all].
  intros H. injection H as <-. eexists. cbn [body].
  split; [reflexivity|].
  set (body0 := default "" (it_body item)).
  set (body1 := if (max_body_chars cfg >? 0)
                   && (Z.of_nat (String.length body0) >? max_body_chars cfg)
                then (take (Z.to_nat (max_body_chars cfg)) body0
                      ++ " [truncated]")%string
                else body0).
  assert (H1 : 0 < max_body_chars cfg ->
               Z.of_nat (String.length body1) <= max_body_chars cfg + 12).
  { intros Hpos. unfold body1.
    destruct (max_body_chars cfg >? 0) eqn:E1; [|lia]. cbn [andb].
    destruct (Z.of_nat (String.length body0) >? max_body_chars cfg) eqn:E2.
    - rewrite append_length.
      pose proof (take_length (Z.to_nat (max_body_chars cfg)) body0).
      cbn [String.length]. lia.
    - lia. }
  split.
  - intros Hpos. specialize (H1 Hpos).
    destruct (clean_html_content cfg && negb (body1 =? "")%string);
      [|exact H1].
    pose proof (clean_html_length body1). lia.
  - intros Hz Hc. rewrite Hc. cbn [andb]. unfold body1.
    destruct (max_body_chars cfg >? 0) eqn:E1; [lia|]. reflexivity.
Qed.

Lemma extracted_body_is_capped_witness :
  exists b,
    body Examples.extracted_order = Val b /\
    b = default "" (it_body Examples.order_item).
Proof.
  destruct (extracted_body_is_capped
              (mkConfig None 500 true true 3 6 12 0 false 50)
              Examples.overlap_world Examples.order_item "Inbox" "personal"
              Examples.extracted_order)
    as (b & Hb & _ & Hz); [reflexivity|].
  exists b. split; [exact Hb|]. apply Hz; [simpl; lia|reflexivity].
Defined.

(* ================================================================== *)
(** * Further properties of the folder walk *)
(* ================================================================== *)








(** X28: [_get_folder_by_name] never raises.  A folder it finds among the
    root folders has the requested name up to letter case and is
    remembered: asking again for the same parent and name answers the same
    folder without any access to the session.  A name that is not found is
    not remembered, the client is left as it is, and the answer is None. *)
Theorem get_folder_by_name_remembers parent name s s' t r :
  _get_folder_by_name parent name s = (s', t, r) ->
  exists found,
    r = Ok found /\
    match found with
    | Some f =>
        _get_folder_by_name parent name s' = (s', [], Ok (Some f)) /\
        ((t = [] /\ s' = s) \/
         (t = [EvRootFolders] /\ lower (f_name f) = lower name /\
          exists folders, st_folders parent = Some folders /\ In f folders))
    | None => s' = s /\ t = [EvRootFolders]
    end.
Proof.
  unfold _get_folder_by_name. run.
  destruct (lookup _ (_folder_cache s)) as [f|] eqn:El.
  - intros H. injection H as <- <- <-. exists (Some f).
    split; [reflexivity|]. rewrite El. split; [reflexivity|]. left. auto.
  - destruct (st_folders parent) as [folders|] eqn:Ef.
    + destruct (find _ folders) as [f|] eqn:Efind.
      * intros H. injection H as <- <- <-. exists (Some f).
        split; [reflexivity|]. cbn [_folder_cache].
        rewrite lookup_dict_set. split; [reflexivity|]. right.
        apply find_some in Efind. destruct Efind as [Hin Heq].
        apply String.eqb_eq in Heq. split; [reflexivity|].
        split; [exact Heq|]. exists folders. auto.
      * intros H. injection H as <- <- <-. exists None. auto.
    + intros H. injection H as <- <- <-. exists None. auto.
Qed.

Lemma get_folder_by_name_remembers_witness :
  exists f,
    snd (_get_folder_by_name
           (mkStore 1 None None (Some [Examples.leaf "SENT ITEMS" []]))
           "Sent Items" (init Examples.plain_config)) = Ok (Some f) /\
    lower (f_name f) = "sent items".
Proof.
  destruct (get_folder_by_name_remembers
              (mkStore 1 None None (Some [Examples.leaf "SENT ITEMS" []]))
              "Sent Items" (init Examples.plain_config)
              (fst (fst (_get_folder_by_name
                 (mkStore 1 None None (Some [Examples.leaf "SENT ITEMS" []]))
                 "Sent Items" (init Examples.plain_config))))
              [EvRootFolders]
              (Ok (Some (Examples.leaf "SENT ITEMS" []))))
    as (found & Hf & Hm); [reflexivity|].
  injection Hf as <-. exists (Examples.leaf "SENT ITEMS" []).
  split; [reflexivity|].
  destruct Hm as (_ & [[Ht _]|(_ & Hl & _)]); [discriminate Ht|exact Hl].
Defined.

(* ================================================================== *)
(** * Searches without a connection *)
(* ================================================================== *)

Lemma attempts_are_connection_accesses a k :
  Forall is_connection_access (attempts a k).
Proof.
  unfold attempts. apply Forall_forall. intros e He. apply in_map_iff in He.
  destruct He as (i & <- & _). exact I.
Qed.

(** X29: when the client has no live session and no connection attempt
    goes through, [search_emails] returns the empty list, having only
    tried to connect; nothing is cached.  The tool get_email_chain then
    answers status no_emails_found, not an error: an unreachable Outlook
    and a search without matches look the same to the caller. *)
Theorem search_without_connection_reports_no_emails cfg w txt ip ish s :
  connected s && namespace s && w_probe w = false ->
  (forall i, w_connect w i = false) ->
  exists s' t,
    search_emails cfg w txt ip ish s = (s', t, Ok []) /\
    Forall is_connection_access t /\
    _search_cache s' = [] /\ connected s' = false /\
    handle_get_email_chain cfg w txt ip ish s
    = (s', t,
       Ok (text (ChainResult
                   (NoEmailsFound txt
                      ("No emails found for subject: '" ++ txt ++ "'")%string)))).
Proof.
  intros Hstale Hdown.
  destruct (ensure_connected_cases w s) as (s' & t & ok & He & Hc & Hcase).
  rewrite Hstale in Hcase.
  destruct Hcase as (Hsc & _ & _ & k & Hk & Ht & Hok).
  rewrite Hdown in Hok.
  subst ok.
  assert (Hs : search_emails cfg w txt ip ish s = (s', t, Ok [])).
  { unfold search_emails. rewrite (bind_ok _ _ _ _ _ _ He), Hok. cbn [negb].
    run. rewrite app_nil_r. reflexivity. }
  exists s', t. split; [exact Hs|]. split.
  { rewrite Ht. apply Forall_app. split;
      [destruct (connected s && namespace s); repeat constructor
      |apply attempts_are_connection_accesses]. }
  split; [exact Hsc|]. split; [exact Hok|].
  rewrite (handle_get_email_chain_after_search _ _ _ _ _ _ _ _ _ Hs).
  reflexivity.
Qed.

Lemma search_without_connection_reports_no_emails_witness :
  exists s' t,
    handle_get_email_chain Examples.plain_config Examples.offline_world
      "Order" true true (init Examples.plain_config)
    = (s', t,
       Ok (text (ChainResult
                   (NoEmailsFound "Order"
                      "No emails found for subject: 'Order'")))).
Proof.
  destruct (search_without_connection_reports_no_emails
              Examples.plain_config Examples.offline_world "Order" true true
              (init Examples.plain_config))
    as (s' & t & _ & _ & _ & _ & H); [reflexivity|reflexivity|].
  exists s', t. exact H.
Defined.

(* ================================================================== *)
(** * The alert timeline *)
(* ================================================================== *)

Lemma timeline_entry_cases alert :
  (subject_usable alert /\
   exists e, timeline_entry alert = Ok e /\
             (String.length (tl_subject e) <= 100)%nat /\
             In (tl_importance e) ["Low"; "Normal"; "High"] /\
             tl_timestamp e = match get (received_time alert) None with
                              | Some dt => Some (Iso dt)
                              | None => None
                              end) \/
  (~ subject_usable alert /\
   timeline_entry alert
   = Raise (mkExn TypeError "'NoneType' object is not subscriptable")).
Proof.
  unfold timeline_entry, subject_usable.
  destruct (subject alert) as [| |x]; cbn [get rbind].
  - left. split; [discriminate|]. eexists. split; [reflexivity|].
    cbn [tl_subject tl_importance tl_timestamp].
    split; [apply take_length|].
    split; [apply get_importance_text_values|reflexivity].
  - right. split; [intros H; apply H; reflexivity|reflexivity].
  - left. split; [discriminate|]. eexists. split; [reflexivity|].
    cbn [tl_subject tl_importance tl_timestamp].
    split; [apply take_length|].
    split; [apply get_importance_text_values|reflexivity].
Qed.

(** X30: [create_alert_timeline] sorts first, so it raises OverflowError
    when some alert carries an aware received time whose UTC instant lies
    outside datetime's range.  When no alert does, it raises exactly when
    the subject of some alert is None, and then a TypeError.  Otherwise the
    timeline has one entry for each alert, in ascending order of the
    normalised received time (alerts without one first); each entry has
    the alert's received time, the first hundred characters of its subject
    at most, and an importance of Low, Normal or High. *)
Theorem create_alert_timeline_shape alerts :
  (Forall time_ok alerts -> Forall subject_usable alerts ->
   exists ordered timeline,
     create_alert_timeline alerts = Ok timeline /\
     Permutation alerts ordered /\
     StronglySorted
       (fun a b => time_key false a <= time_key false b) ordered /\
     Forall2 (fun a e =>
                timeline_entry a = Ok e /\
                (String.length (tl_subject e) <= 100)%nat /\
                In (tl_importance e) ["Low"; "Normal"; "High"] /\
                tl_timestamp e = match get (received_time a) None with
                                 | Some dt => Some (Iso dt)
                                 | None => None
                                 end) ordered timeline) /\
  (Forall time_ok alerts -> ~ Forall subject_usable alerts ->
   create_alert_timeline alerts
   = Raise (mkExn TypeError "'NoneType' object is not subscriptable")) /\
  (~ Forall time_ok alerts ->
   create_alert_timeline alerts
   = Raise (mkExn OverflowError "date value out of range")).
Proof.
  unfold create_alert_timeline. split; [|split].
  - intros Ht Hall. rewrite (sorted_by_time_ok _ _ _ Ht).
    destruct (sorted_by_key_total alerts false false) as (ordered & Hs & Hp).
    rewrite Hs. cbn [rbind]. exists ordered.
    assert (Ho : Forall subject_usable ordered)
      by (eapply Permutation_Forall; eassumption).
    destruct (rmap_total_rel timeline_entry subject_usable
                (fun a e =>
                   timeline_entry a = Ok e /\
                   (String.length (tl_subject e) <= 100)%nat /\
                   In (tl_importance e) ["Low"; "Normal"; "High"] /\
                   tl_timestamp e = match get (received_time a) None with
                                    | Some dt => Some (Iso dt)
                                    | None => None
                                    end) ordered) as (tl & Htl & H2).
    { intros a Ha. destruct (timeline_entry_cases a) as [(_ & e & He)|(Hn & _)];
        [|contradiction]. exists e. split; [apply He|exact He]. }
    { exact Ho. }
    exists tl. split; [exact Htl|]. split; [exact Hp|]. split; [|exact H2].
    apply (sorted_asc_sorted dt_lt dt_lt_asym dt_lt_trans_false) in Hs.
    eapply StronglySorted_impl'; [|exact Hs].
    intros a b H. apply dt_lt_false_le in H; simpl in *; auto.
  - intros Ht Hn. rewrite (sorted_by_time_ok _ _ _ Ht).
    destruct (sorted_by_key_total alerts false false) as (ordered & Hs & Hp).
    rewrite Hs. cbn [rbind]. apply rmap_raises.
    + intros a _. destruct (timeline_entry_cases a) as [(_ & e & He & _)|(_ & He)];
        [left; eauto|right; exact He].
    + apply Exists_exists.
      destruct (Forall_Exists_dec subject_usable subject_usable_dec ordered)
        as [Hf|He].
      * exfalso. apply Hn. eapply Permutation_Forall;
          [apply Permutation_sym; exact Hp|exact Hf].
      * apply Exists_exists in He. destruct He as (a & Hin & Ha).
        exists a. split; [exact Hin|].
        destruct (timeline_entry_cases a) as [(Hu & _)|(_ & Hr)];
          [contradiction|exact Hr].
  - intros Hn. rewrite (sorted_by_time_raises _ _ _ Hn). reflexivity.
Qed.

Lemma create_alert_timeline_shape_witness :
  (exists ordered timeline,
     create_alert_timeline (rev Examples.order_thread) = Ok timeline /\
     Permutation (rev Examples.order_thread) ordered /\
     List.length timeline = 2%nat) /\
  create_alert_timeline
    [Examples.extracted "Order" "ann@corp.test" (Aware (-1800000000) 30)]
  = Raise (mkExn OverflowError "date value out of range").
Proof.
  split.
  - destruct (proj1 (create_alert_timeline_shape (rev Examples.order_thread)))
      as (ordered & timeline & H & Hp & _ & H2).
    + repeat constructor.
    + repeat constructor; discriminate.
    + exists ordered, timeline. split; [exact H|]. split; [exact Hp|].
      vm_compute in H. injection H as <-. reflexivity.
  - apply (proj2 (proj2 (create_alert_timeline_shape _))).
    intros H. inversion H as [|x xs Hx _]; subst. discriminate Hx.
Defined.
